(** * Real-time price streaming client (contexts/WebSocketContext.tsx)

    A shallow embedding of the [WebSocketProvider] component: its React
    state and refs, the browser objects it drives (WebSocket transports,
    timers, localStorage, the clock) and its handlers, followed by the
    properties of the streaming client.

    Conventions of the embedding.
    - JavaScript strings are byte strings ([string]); [TextEncoder.encode]
      is the identity on the bytes.
    - The component runs on a single event loop: a handler runs to
      completion, so every handler is a function [State -> State], and the
      client is the function [step] from an event and a state to the next
      state.  A state update requested with a [useState] setter is visible to
      the next handler, and a callback reads the current state.
    - Time is the clock [now] of the state, in milliseconds; a timer carries
      the time at which it is due and fires no earlier.
    - Inbound frames are modelled after [JSON.parse] and the [type]
      dispatch, fields typed as the interfaces of the source type them.
    - Every [try ... catch] of the source has its failing path in the
      model: a frame or a cached item that fails to parse, a [WebSocket]
      constructor that throws, a storage that rejects a write. *)

From Stdlib Require Import ZArith.
From stdpp Require Import base strings list gmap.

Local Open Scope Z_scope.

(** ** Platform: [crypto.subtle.digest('SHA-256', _)] (FIPS 180-4) *)

Module Sha256.

(** 32-bit words are integers reduced modulo [2^32]. *)
Definition w32 (x : Z) : Z := x mod 2 ^ 32.

Definition add32 (x y : Z) : Z := w32 (x + y).

Definition not32 (x : Z) : Z := Z.lxor x 0xffffffff.

Definition rotr (n x : Z) : Z :=
  Z.lor (Z.shiftr x n) (w32 (Z.shiftl x (32 - n))).

Definition Ch (x y z : Z) : Z :=
  Z.lxor (Z.land x y) (Z.land (not32 x) z).

Definition Maj (x y z : Z) : Z :=
  Z.lxor (Z.lxor (Z.land x y) (Z.land x z)) (Z.land y z).

Definition Sigma0 (x : Z) : Z :=
  Z.lxor (Z.lxor (rotr 2 x) (rotr 13 x)) (rotr 22 x).

Definition Sigma1 (x : Z) : Z :=
  Z.lxor (Z.lxor (rotr 6 x) (rotr 11 x)) (rotr 25 x).

Definition sigma0 (x : Z) : Z :=
  Z.lxor (Z.lxor (rotr 7 x) (rotr 18 x)) (Z.shiftr x 3).

Definition sigma1 (x : Z) : Z :=
  Z.lxor (Z.lxor (rotr 17 x) (rotr 19 x)) (Z.shiftr x 10).

(** The constants are the first 32 bits of the fractional parts of the
    cube roots ([K]) and of the square roots ([H0]) of the first primes. *)
Definition primes : list Z :=
  [ 2; 3; 5; 7; 11; 13; 17; 19; 23; 29; 31; 37; 41; 43; 47; 53;
    59; 61; 67; 71; 73; 79; 83; 89; 97; 101; 103; 107; 109; 113; 127; 131;
    137; 139; 149; 151; 157; 163; 167; 173; 179; 181; 191; 193; 197; 199;
    211; 223; 227; 229; 233; 239; 241; 251; 257; 263; 269; 271; 277; 281;
    283; 293; 307; 311 ].

(** [root e n bits r]: the integer root of order [e] of [n], found bit by
    bit below [2 ^ bits], starting from [r]. *)
Fixpoint root (e n : Z) (bits : nat) (r : Z) : Z :=
  match bits with
  | O => r
  | S bits' =>
      let r' := r + 2 ^ Z.of_nat bits' in
      root e n bits' (if r' ^ e <=? n then r' else r)
  end.

Definition frac32 (e prime : Z) : Z :=
  w32 (root e (prime * 2 ^ (32 * e)) 40 0).

Definition K : list Z := Eval vm_compute in frac32 3 <$> primes.

Definition H0 : list Z := Eval vm_compute in frac32 2 <$> take 8 primes.

(** Big-endian bytes of a word of [n] bytes. *)
Fixpoint be_bytes (n : nat) (x : Z) : list Z :=
  match n with
  | O => []
  | S n' => be_bytes n' (Z.shiftr x 8) ++ [Z.land x 0xff]
  end.

(** Padding: a one bit, zeros up to 56 modulo 64, the bit length on 64 bits. *)
Definition pad (msg : list Z) : list Z :=
  let len := Z.of_nat (length msg) in
  let zeros := Z.to_nat ((55 - len) mod 64) in
  msg ++ [0x80] ++ replicate zeros 0 ++ be_bytes 8 (8 * len).

Fixpoint words (bs : list Z) : list Z :=
  match bs with
  | a :: b :: c :: d :: rest =>
      Z.lor (Z.lor (Z.shiftl a 24) (Z.shiftl b 16)) (Z.lor (Z.shiftl c 8) d)
      :: words rest
  | _ => []
  end.

Fixpoint blocks (n : nat) (ws : list Z) : list (list Z) :=
  match n with
  | O => []
  | S n' => take 16 ws :: blocks n' (drop 16 ws)
  end.

(** Message schedule: [count] further words after the first sixteen. *)
Fixpoint schedule (count : nat) (w : list Z) : list Z :=
  match count with
  | O => w
  | S count' =>
      let t := length w in
      let at_ (k : nat) := nth (t - k) w 0 in
      schedule count'
        (w ++ [add32 (add32 (sigma1 (at_ 2%nat)) (at_ 7%nat))
                     (add32 (sigma0 (at_ 15%nat)) (at_ 16%nat))])
  end.

Record regs := Regs { ra : Z; rb : Z; rc : Z; rd : Z; re : Z; rf : Z; rg : Z; rh : Z }.

Definition round (r : regs) (kw : Z * Z) : regs :=
  let t1 := add32 (add32 (add32 (rh r) (Sigma1 (re r)))
                         (add32 (Ch (re r) (rf r) (rg r)) (fst kw))) (snd kw) in
  let t2 := add32 (Sigma0 (ra r)) (Maj (ra r) (rb r) (rc r)) in
  Regs (add32 t1 t2) (ra r) (rb r) (rc r) (add32 (rd r) t1) (re r) (rf r) (rg r).

Definition regs_of (h : list Z) : regs :=
  Regs (nth 0 h 0) (nth 1 h 0) (nth 2 h 0) (nth 3 h 0)
       (nth 4 h 0) (nth 5 h 0) (nth 6 h 0) (nth 7 h 0).

Definition list_of (r : regs) : list Z :=
  [ra r; rb r; rc r; rd r; re r; rf r; rg r; rh r].

Definition compress (h : list Z) (block : list Z) : list Z :=
  let w := schedule 48 block in
  let r := foldl round (regs_of h) (zip K w) in
  zip_with add32 h (list_of r).

Definition byte_to_Z (b : Byte.byte) : Z := Z.of_N (Byte.to_N b).

Definition byte_of_Z (z : Z) : Byte.byte :=
  default Byte.x00 (Byte.of_N (Z.to_N (z mod 256))).

Definition digest (msg : list Byte.byte) : list Byte.byte :=
  let ws := words (pad (byte_to_Z <$> msg)) in
  let h := foldl compress H0 (blocks (length ws / 16) ws) in
  byte_of_Z <$> (h ≫= be_bytes 4).

End Sha256.

(** ** Platform: [btoa] (RFC 4648 base64 with padding) *)

Module Base64.

Definition alphabet : list Byte.byte :=
  String.list_byte_of_string
    "ABCDEFGHIJKLMNOPQRSTUVWXYZabcdefghijklmnopqrstuvwxyz0123456789+/".

Definition pad_char : Byte.byte := Byte.x3d.

Definition sextet (n : Z) : Byte.byte :=
  nth (Z.to_nat (Z.land n 63)) alphabet pad_char.

Fixpoint encode (bs : list Z) : list Byte.byte :=
  match bs with
  | [] => []
  | [a] =>
      let n := Z.shiftl a 16 in
      [sextet (Z.shiftr n 18); sextet (Z.shiftr n 12); pad_char; pad_char]
  | [a; b] =>
      let n := Z.lor (Z.shiftl a 16) (Z.shiftl b 8) in
      [sextet (Z.shiftr n 18); sextet (Z.shiftr n 12); sextet (Z.shiftr n 6); pad_char]
  | a :: b :: c :: rest =>
      let n := Z.lor (Z.lor (Z.shiftl a 16) (Z.shiftl b 8)) c in
      sextet (Z.shiftr n 18) :: sextet (Z.shiftr n 12)
        :: sextet (Z.shiftr n 6) :: sextet n :: encode rest
  end.

(** [btoa] takes a binary string: one character per byte. *)
Definition btoa (binary : list Byte.byte) : string :=
  String.string_of_list_byte (encode (Sha256.byte_to_Z <$> binary)).

End Base64.

(** ** Data of the component *)

(** [price: number].  A price is carried, stored and replayed, never
    computed on; it is represented by an integer amount. *)
Definition price : Type := Z.

(** Client to server frames, the argument of [JSON.stringify] in [ws.send]. *)
Inductive auth_data :=
  | request_challenge (api_key : string)
  | challenge_response (challenge_id signature api_key : string).

Inductive frame :=
  | authenticate_frame (auth : auth_data)
  | subscribe_frame (symbols : list string)
  | unsubscribe_frame (symbols : list string).

(** Server to client frames, [event.data] after [JSON.parse] and the
    dispatch on [data.type].  [malformed] is a frame on which [JSON.parse]
    or the access to [data.type] throws; [unknown_type] is any other type. *)
Inductive inbound :=
  | malformed
  | auth_required
  | challenge (challenge_nonce challenge_id : string)
  | authenticated (session_token : string)
  | auth_error (message : string)
  | price_update (symbol : string) (value : price)
  | error_message (message : string)
  | unknown_type.

Inductive ReadyState := CONNECTING | OPEN | CLOSING | CLOSED.

(** The promise returned by [authenticate(ws)]. *)
Inductive promise := not_created | pending | resolved (success : bool).

(** A [WebSocket] object.  [listener] is the [messageHandler] closure that
    [authenticate] registers with [addEventListener]: it captures its
    [authTimeout] timer and the [apiKey] it was created with. *)
Record socket := Socket {
  readyState : ReadyState;
  listener : option (nat * string);
  authPromise : promise
}.

Inductive timer_action := authTimeout (ws : nat) | reconnectTimer.

Record timer := Timer { timer_id : nat; due : Z; action : timer_action }.

(** The item of [localStorage] under [PRICE_CACHE_KEY], as the initializer
    of [prices] sees it: absent ([getItem] returns a falsy value), failing
    to load ([JSON.parse] throws or the value is not a [{data, timestamp}]
    record), or a snapshot. *)
Inductive stored :=
  | no_item
  | load_fails
  | snapshot (data : gmap string price) (timestamp : Z).

Record Props := {
  url : string;
  apiKey : option string;
  enabled : bool;
  reconnectInterval : Z
}.

(** The state of one mounted provider: its [useState] cells, its [useRef]
    cells, and the browser around it.  [wire] is the log of the frames that
    left through [ws.send], oldest first, each with its socket. *)
Record State := {
  isConnected : bool;
  error : option string;
  isAuthenticated : bool;
  sessionToken : option string;
  prices : gmap string price;
  wsRef : option nat;
  reconnectTimeoutRef : option nat;
  subscribedSymbolsRef : list string;
  authenticationInProgressRef : bool;
  connectionInProgressRef : bool;
  sockets : list socket;
  wire : list (nat * frame);
  timers : list timer;
  nextTimer : nat;
  now : Z;
  localStorage : stored;
  hasWindow : bool;
  wsCtorThrows : bool;
  setItemThrows : bool
}.

Definition setIsConnected (v : bool) (s : State) : State :=
  {| isConnected := v; error := error s; isAuthenticated := isAuthenticated s;
     sessionToken := sessionToken s; prices := prices s; wsRef := wsRef s;
     reconnectTimeoutRef := reconnectTimeoutRef s;
     subscribedSymbolsRef := subscribedSymbolsRef s;
     authenticationInProgressRef := authenticationInProgressRef s;
     connectionInProgressRef := connectionInProgressRef s; sockets := sockets s;
     wire := wire s; timers := timers s; nextTimer := nextTimer s; now := now s;
     localStorage := localStorage s; hasWindow := hasWindow s;
     wsCtorThrows := wsCtorThrows s; setItemThrows := setItemThrows s |}.

Definition setError (v : option string) (s : State) : State :=
  {| isConnected := isConnected s; error := v; isAuthenticated := isAuthenticated s;
     sessionToken := sessionToken s; prices := prices s; wsRef := wsRef s;
     reconnectTimeoutRef := reconnectTimeoutRef s;
     subscribedSymbolsRef := subscribedSymbolsRef s;
     authenticationInProgressRef := authenticationInProgressRef s;
     connectionInProgressRef := connectionInProgressRef s; sockets := sockets s;
     wire := wire s; timers := timers s; nextTimer := nextTimer s; now := now s;
     localStorage := localStorage s; hasWindow := hasWindow s;
     wsCtorThrows := wsCtorThrows s; setItemThrows := setItemThrows s |}.

Definition setIsAuthenticated (v : bool) (s : State) : State :=
  {| isConnected := isConnected s; error := error s; isAuthenticated := v;
     sessionToken := sessionToken s; prices := prices s; wsRef := wsRef s;
     reconnectTimeoutRef := reconnectTimeoutRef s;
     subscribedSymbolsRef := subscribedSymbolsRef s;
     authenticationInProgressRef := authenticationInProgressRef s;
     connectionInProgressRef := connectionInProgressRef s; sockets := sockets s;
     wire := wire s; timers := timers s; nextTimer := nextTimer s; now := now s;
     localStorage := localStorage s; hasWindow := hasWindow s;
     wsCtorThrows := wsCtorThrows s; setItemThrows := setItemThrows s |}.

Definition setSessionToken (v : option string) (s : State) : State :=
  {| isConnected := isConnected s; error := error s;
     isAuthenticated := isAuthenticated s; sessionToken := v; prices := prices s;
     wsRef := wsRef s; reconnectTimeoutRef := reconnectTimeoutRef s;
     subscribedSymbolsRef := subscribedSymbolsRef s;
     authenticationInProgressRef := authenticationInProgressRef s;
     connectionInProgressRef := connectionInProgressRef s; sockets := sockets s;
     wire := wire s; timers := timers s; nextTimer := nextTimer s; now := now s;
     localStorage := localStorage s; hasWindow := hasWindow s;
     wsCtorThrows := wsCtorThrows s; setItemThrows := setItemThrows s |}.

Definition setPrices (v : gmap string price) (s : State) : State :=
  {| isConnected := isConnected s; error := error s;
     isAuthenticated := isAuthenticated s; sessionToken := sessionToken s; prices := v;
     wsRef := wsRef s; reconnectTimeoutRef := reconnectTimeoutRef s;
     subscribedSymbolsRef := subscribedSymbolsRef s;
     authenticationInProgressRef := authenticationInProgressRef s;
     connectionInProgressRef := connectionInProgressRef s; sockets := sockets s;
     wire := wire s; timers := timers s; nextTimer := nextTimer s; now := now s;
     localStorage := localStorage s; hasWindow := hasWindow s;
     wsCtorThrows := wsCtorThrows s; setItemThrows := setItemThrows s |}.

Definition set_wsRef (v : option nat) (s : State) : State :=
  {| isConnected := isConnected s; error := error s;
     isAuthenticated := isAuthenticated s; sessionToken := sessionToken s;
     prices := prices s; wsRef := v; reconnectTimeoutRef := reconnectTimeoutRef s;
     subscribedSymbolsRef := subscribedSymbolsRef s;
     authenticationInProgressRef := authenticationInProgressRef s;
     connectionInProgressRef := connectionInProgressRef s; sockets := sockets s;
     wire := wire s; timers := timers s; nextTimer := nextTimer s; now := now s;
     localStorage := localStorage s; hasWindow := hasWindow s;
     wsCtorThrows := wsCtorThrows s; setItemThrows := setItemThrows s |}.

Definition set_reconnectTimeoutRef (v : option nat) (s : State) : State :=
  {| isConnected := isConnected s; error := error s;
     isAuthenticated := isAuthenticated s; sessionToken := sessionToken s;
     prices := prices s; wsRef := wsRef s; reconnectTimeoutRef := v;
     subscribedSymbolsRef := subscribedSymbolsRef s;
     authenticationInProgressRef := authenticationInProgressRef s;
     connectionInProgressRef := connectionInProgressRef s; sockets := sockets s;
     wire := wire s; timers := timers s; nextTimer := nextTimer s; now := now s;
     localStorage := localStorage s; hasWindow := hasWindow s;
     wsCtorThrows := wsCtorThrows s; setItemThrows := setItemThrows s |}.

Definition set_subscribedSymbolsRef (v : list string) (s : State) : State :=
  {| isConnected := isConnected s; error := error s;
     isAuthenticated := isAuthenticated s; sessionToken := sessionToken s;
     prices := prices s; wsRef := wsRef s;
     reconnectTimeoutRef := reconnectTimeoutRef s; subscribedSymbolsRef := v;
     authenticationInProgressRef := authenticationInProgressRef s;
     connectionInProgressRef := connectionInProgressRef s; sockets := sockets s;
     wire := wire s; timers := timers s; nextTimer := nextTimer s; now := now s;
     localStorage := localStorage s; hasWindow := hasWindow s;
     wsCtorThrows := wsCtorThrows s; setItemThrows := setItemThrows s |}.

Definition set_authenticationInProgressRef (v : bool) (s : State) : State :=
  {| isConnected := isConnected s; error := error s;
     isAuthenticated := isAuthenticated s; sessionToken := sessionToken s;
     prices := prices s; wsRef := wsRef s;
     reconnectTimeoutRef := reconnectTimeoutRef s;
     subscribedSymbolsRef := subscribedSymbolsRef s; authenticationInProgressRef := v;
     connectionInProgressRef := connectionInProgressRef s; sockets := sockets s;
     wire := wire s; timers := timers s; nextTimer := nextTimer s; now := now s;
     localStorage := localStorage s; hasWindow := hasWindow s;
     wsCtorThrows := wsCtorThrows s; setItemThrows := setItemThrows s |}.

Definition set_connectionInProgressRef (v : bool) (s : State) : State :=
  {| isConnected := isConnected s; error := error s;
     isAuthenticated := isAuthenticated s; sessionToken := sessionToken s;
     prices := prices s; wsRef := wsRef s;
     reconnectTimeoutRef := reconnectTimeoutRef s;
     subscribedSymbolsRef := subscribedSymbolsRef s;
     authenticationInProgressRef := authenticationInProgressRef s;
     connectionInProgressRef := v; sockets := sockets s; wire := wire s;
     timers := timers s; nextTimer := nextTimer s; now := now s;
     localStorage := localStorage s; hasWindow := hasWindow s;
     wsCtorThrows := wsCtorThrows s; setItemThrows := setItemThrows s |}.

Definition set_sockets (v : list socket) (s : State) : State :=
  {| isConnected := isConnected s; error := error s;
     isAuthenticated := isAuthenticated s; sessionToken := sessionToken s;
     prices := prices s; wsRef := wsRef s;
     reconnectTimeoutRef := reconnectTimeoutRef s;
     subscribedSymbolsRef := subscribedSymbolsRef s;
     authenticationInProgressRef := authenticationInProgressRef s;
     connectionInProgressRef := connectionInProgressRef s; sockets := v;
     wire := wire s; timers := timers s; nextTimer := nextTimer s; now := now s;
     localStorage := localStorage s; hasWindow := hasWindow s;
     wsCtorThrows := wsCtorThrows s; setItemThrows := setItemThrows s |}.

Definition set_wire (v : list (nat * frame)) (s : State) : State :=
  {| isConnected := isConnected s; error := error s;
     isAuthenticated := isAuthenticated s; sessionToken := sessionToken s;
     prices := prices s; wsRef := wsRef s;
     reconnectTimeoutRef := reconnectTimeoutRef s;
     subscribedSymbolsRef := subscribedSymbolsRef s;
     authenticationInProgressRef := authenticationInProgressRef s;
     connectionInProgressRef := connectionInProgressRef s; sockets := sockets s;
     wire := v; timers := timers s; nextTimer := nextTimer s; now := now s;
     localStorage := localStorage s; hasWindow := hasWindow s;
     wsCtorThrows := wsCtorThrows s; setItemThrows := setItemThrows s |}.

Definition set_timers (v : list timer) (s : State) : State :=
  {| isConnected := isConnected s; error := error s;
     isAuthenticated := isAuthenticated s; sessionToken := sessionToken s;
     prices := prices s; wsRef := wsRef s;
     reconnectTimeoutRef := reconnectTimeoutRef s;
     subscribedSymbolsRef := subscribedSymbolsRef s;
     authenticationInProgressRef := authenticationInProgressRef s;
     connectionInProgressRef := connectionInProgressRef s; sockets := sockets s;
     wire := wire s; timers := v; nextTimer := nextTimer s; now := now s;
     localStorage := localStorage s; hasWindow := hasWindow s;
     wsCtorThrows := wsCtorThrows s; setItemThrows := setItemThrows s |}.

Definition set_nextTimer (v : nat) (s : State) : State :=
  {| isConnected := isConnected s; error := error s;
     isAuthenticated := isAuthenticated s; sessionToken := sessionToken s;
     prices := prices s; wsRef := wsRef s;
     reconnectTimeoutRef := reconnectTimeoutRef s;
     subscribedSymbolsRef := subscribedSymbolsRef s;
     authenticationInProgressRef := authenticationInProgressRef s;
     connectionInProgressRef := connectionInProgressRef s; sockets := sockets s;
     wire := wire s; timers := timers s; nextTimer := v; now := now s;
     localStorage := localStorage s; hasWindow := hasWindow s;
     wsCtorThrows := wsCtorThrows s; setItemThrows := setItemThrows s |}.

Definition set_now (v : Z) (s : State) : State :=
  {| isConnected := isConnected s; error := error s;
     isAuthenticated := isAuthenticated s; sessionToken := sessionToken s;
     prices := prices s; wsRef := wsRef s;
     reconnectTimeoutRef := reconnectTimeoutRef s;
     subscribedSymbolsRef := subscribedSymbolsRef s;
     authenticationInProgressRef := authenticationInProgressRef s;
     connectionInProgressRef := connectionInProgressRef s; sockets := sockets s;
     wire := wire s; timers := timers s; nextTimer := nextTimer s; now := v;
     localStorage := localStorage s; hasWindow := hasWindow s;
     wsCtorThrows := wsCtorThrows s; setItemThrows := setItemThrows s |}.

Definition set_localStorage (v : stored) (s : State) : State :=
  {| isConnected := isConnected s; error := error s;
     isAuthenticated := isAuthenticated s; sessionToken := sessionToken s;
     prices := prices s; wsRef := wsRef s;
     reconnectTimeoutRef := reconnectTimeoutRef s;
     subscribedSymbolsRef := subscribedSymbolsRef s;
     authenticationInProgressRef := authenticationInProgressRef s;
     connectionInProgressRef := connectionInProgressRef s; sockets := sockets s;
     wire := wire s; timers := timers s; nextTimer := nextTimer s; now := now s;
     localStorage := v; hasWindow := hasWindow s; wsCtorThrows := wsCtorThrows s;
     setItemThrows := setItemThrows s |}.

Notation "s |> f" := (f s) (at level 45, left associativity, only parsing).

(** ** [Set<string>]: insertion-ordered, without duplicates *)

Module JsSet.

Definition has (x : string) (set : list string) : bool :=
  bool_decide (x ∈ set).

Definition add (x : string) (set : list string) : list string :=
  if has x set then set else set ++ [x].

Definition delete (x : string) (set : list string) : list string :=
  filter (λ y, y ≠ x) set.

Definition size (set : list string) : nat := length set.

(** [Array.from(set)] lists the elements in insertion order. *)
Definition to_array (set : list string) : list string := set.

End JsSet.

(** ** Browser primitives *)

Definition with_readyState (r : ReadyState) (k : socket) : socket :=
  Socket r (listener k) (authPromise k).

Definition with_listener (l : option (nat * string)) (k : socket) : socket :=
  Socket (readyState k) l (authPromise k).

Definition with_authPromise (q : promise) (k : socket) : socket :=
  Socket (readyState k) (listener k) q.

Definition update_socket (w : nat) (f : socket → socket) (s : State) : State :=
  set_sockets (alter f w (sockets s)) s.

Definition readyState_of (w : nat) (s : State) : option ReadyState :=
  readyState <$> sockets s !! w.

Definition listener_of (w : nat) (s : State) : option (nat * string) :=
  sockets s !! w ≫= listener.

Definition authPromise_of (w : nat) (s : State) : option promise :=
  authPromise <$> sockets s !! w.

(** [ws.send(frame)]: the frame leaves on an open socket and is silently
    discarded on a closing or closed one.  (On a connecting socket [send]
    throws; every call site runs in a handler of an opened socket.) *)
Definition ws_send (w : nat) (f : frame) (s : State) : State :=
  match readyState_of w s with
  | Some OPEN => set_wire (wire s ++ [(w, f)]) s
  | _ => s
  end.

(** [ws.close()]: starts the closing handshake of a live socket; the close
    event comes later, with a code chosen by the browser. *)
Definition closing (k : socket) : socket :=
  match readyState k with
  | CONNECTING | OPEN => with_readyState CLOSING k
  | CLOSING | CLOSED => k
  end.

Definition ws_close (w : nat) (s : State) : State := update_socket w closing s.

(** [setTimeout(action, delay)] returns the identifier [nextTimer s]. *)
Definition setTimeout (a : timer_action) (delay : Z) (s : State) : State :=
  s |> set_timers (timers s ++ [Timer (nextTimer s) (now s + Z.max 0 delay) a])
    |> set_nextTimer (S (nextTimer s)).

Definition clearTimeout (id : nat) (s : State) : State :=
  set_timers (filter (λ t, timer_id t ≠ id) (timers s)) s.

(** ** The price cache *)

Definition CACHE_EXPIRY_MS : Z := 24 * 60 * 60 * 1000.

(** The initializer of the [prices] state. *)
Definition loadCachedPrices (window : bool) (cached : stored) (date_now : Z)
  : gmap string price :=
  if window then
    match cached with
    | snapshot data timestamp =>
        if date_now - timestamp <? CACHE_EXPIRY_MS then data else ∅
    | no_item | load_fails => ∅
    end
  else ∅.

(** The effect on [[prices]]: runs after every render in which [prices]
    changed.  [setItem] may throw; the error is logged and dropped. *)
Definition cachePrices (s : State) : State :=
  if hasWindow s && bool_decide (0 < size (prices s))%nat then
    if setItemThrows s then s
    else set_localStorage (snapshot (prices s) (now s)) s
  else s.

(** ** Authentication *)

(** The helper [sha256] of the component: digest, then base64. *)
Definition sha256 (message : string) : string :=
  let msgBuffer := String.list_byte_of_string message in
  let hashArray := Sha256.digest msgBuffer in
  Base64.btoa hashArray.

(** [!apiKey] holds of [undefined] and of the empty string. *)
Definition credential (p : Props) : option string :=
  match apiKey p with
  | Some k => if bool_decide (k = "") then None else Some k
  | None => None
  end.

(** The rest of [ws.onopen] after [await authenticate(ws)]. *)
Definition onopen_continue (w : nat) (authSuccess : bool) (s : State) : State :=
  if authSuccess then
    if bool_decide (0 < JsSet.size (subscribedSymbolsRef s))%nat then
      ws_send w (subscribe_frame (JsSet.to_array (subscribedSymbolsRef s))) s
    else s
  else ws_close w s.

(** [resolve(b)] of the promise of [authenticate(ws)]: settles a pending
    promise and resumes [ws.onopen]; a settled promise stays as it is. *)
Definition resolve (w : nat) (b : bool) (s : State) : State :=
  match authPromise_of w s with
  | Some pending =>
      s |> update_socket w (with_authPromise (resolved b)) |> onopen_continue w b
  | _ => s
  end.

Definition AUTH_TIMEOUT_MS : Z := 10000.

Definition authenticate (p : Props) (w : nat) (s : State) : State :=
  match credential p with
  | None =>
      s |> setIsAuthenticated true
        |> update_socket w (with_authPromise (resolved true))
  | Some k =>
      if authenticationInProgressRef s then
        s |> update_socket w (with_authPromise (resolved false))
      else
        s |> set_authenticationInProgressRef true
          |> update_socket w (with_authPromise pending)
          |> setTimeout (authTimeout w) AUTH_TIMEOUT_MS
          |> update_socket w (with_listener (Some (nextTimer s, k)))
  end.

(** The body of the [authTimeout] timer. *)
Definition onAuthTimeout (w : nat) (s : State) : State :=
  s |> setError (Some "Authentication timeout"%string)
    |> set_authenticationInProgressRef false
    |> resolve w false.

(** [messageHandler], the listener of the handshake on socket [w], with the
    timer and the key it captured.  Signing and sending the response are
    one step. *)
Definition messageHandler (w authTimeoutId : nat) (k : string) (m : inbound)
  (s : State) : State :=
  match m with
  | auth_required =>
      ws_send w (authenticate_frame (request_challenge k)) s
  | challenge c challenge_id =>
      let signature := sha256 (c ++ ":" ++ k) in
      ws_send w (authenticate_frame (challenge_response challenge_id signature k)) s
  | authenticated session_token =>
      s |> clearTimeout authTimeoutId
        |> update_socket w (with_listener None)
        |> setIsAuthenticated true
        |> setSessionToken (Some session_token)
        |> setError None
        |> set_authenticationInProgressRef false
        |> resolve w true
  | auth_error message =>
      s |> clearTimeout authTimeoutId
        |> update_socket w (with_listener None)
        |> setError (Some ("Authentication failed: " ++ message)%string)
        |> setIsAuthenticated false
        |> set_authenticationInProgressRef false
        |> resolve w false
  | malformed =>
      s |> clearTimeout authTimeoutId
        |> update_socket w (with_listener None)
        |> setError (Some "Authentication error"%string)
        |> set_authenticationInProgressRef false
        |> resolve w false
  | price_update _ _ | error_message _ | unknown_type => s
  end.

(** ** Connection handlers *)

Definition onopen (p : Props) (w : nat) (s : State) : State :=
  let s1 := s |> setIsConnected true
              |> setError None
              |> set_connectionInProgressRef false
              |> authenticate p w in
  match authPromise_of w s1 with
  | Some (resolved authSuccess) => onopen_continue w authSuccess s1
  | _ => s1
  end.

Definition onmessage (m : inbound) (s : State) : State :=
  match m with
  | price_update symbol value =>
      s |> setPrices (<[symbol := value]> (prices s)) |> cachePrices
  | error_message message => setError (Some message) s
  | malformed | auth_required | challenge _ _ | authenticated _
  | auth_error _ | unknown_type => s
  end.

Definition onerror (s : State) : State :=
  s |> setError (Some "WebSocket connection error"%string)
    |> set_connectionInProgressRef false.

Definition onclose (p : Props) (code : Z) (s : State) : State :=
  let s1 := s |> setIsConnected false
              |> setIsAuthenticated false
              |> setSessionToken None
              |> set_authenticationInProgressRef false
              |> set_connectionInProgressRef false
              |> set_wsRef None in
  if enabled p && negb (code =? 1000) then
    s1 |> setTimeout reconnectTimer (reconnectInterval p)
       |> set_reconnectTimeoutRef (Some (nextTimer s1))
  else s1.

(** [wsRef.current && (readyState === CONNECTING || readyState === OPEN)] *)
Definition ws_live (s : State) : bool :=
  match wsRef s with
  | Some w =>
      match readyState_of w s with
      | Some CONNECTING | Some OPEN => true
      | _ => false
      end
  | None => false
  end.

Definition connect (p : Props) (s : State) : State :=
  if negb (enabled p) || bool_decide (url p = ""%string) then s
  else if connectionInProgressRef s || ws_live s then s
  else
    let s1 := set_connectionInProgressRef true s in
    let s2 := match wsRef s1 with Some w => ws_close w s1 | None => s1 end in
    if wsCtorThrows s2 then
      s2 |> setError (Some "Failed to create WebSocket connection"%string)
         |> set_connectionInProgressRef false
    else
      s2 |> set_sockets (sockets s2 ++ [Socket CONNECTING None not_created])
         |> set_wsRef (Some (length (sockets s2))).

(** ** Subscriptions *)

(** [wsRef.current && wsRef.current.readyState === OPEN && isAuthenticated] *)
Definition ready_to_send (s : State) : option nat :=
  match wsRef s with
  | Some w =>
      match readyState_of w s with
      | Some OPEN => if isAuthenticated s then Some w else None
      | _ => None
      end
  | None => None
  end.

Definition subscribe (symbols : list string) (s : State) : State :=
  if bool_decide (length symbols = 0%nat) then s
  else
    let newSymbols :=
      filter (λ symbol, ¬ JsSet.has symbol (subscribedSymbolsRef s)) symbols in
    if bool_decide (length newSymbols = 0%nat) then s
    else
      let s1 := set_subscribedSymbolsRef
                  (foldl (λ set symbol, JsSet.add symbol set)
                         (subscribedSymbolsRef s) newSymbols) s in
      match ready_to_send s1 with
      | Some w => ws_send w (subscribe_frame newSymbols) s1
      | None => s1
      end.

Definition unsubscribe (symbols : list string) (s : State) : State :=
  if bool_decide (length symbols = 0%nat) then s
  else
    let subscribedToRemove :=
      filter (λ symbol, JsSet.has symbol (subscribedSymbolsRef s)) symbols in
    if bool_decide (length subscribedToRemove = 0%nat) then s
    else
      let s1 := set_subscribedSymbolsRef
                  (foldl (λ set symbol, JsSet.delete symbol set)
                         (subscribedSymbolsRef s) subscribedToRemove) s in
      match ready_to_send s1 with
      | Some w => ws_send w (unsubscribe_frame subscribedToRemove) s1
      | None => s1
      end.

(** ** Mounting and unmounting *)

(** The first render in a browser whose storage holds [cached]. *)
Definition initial (window ctorThrows itemThrows : bool) (cached : stored)
  (date_now : Z) : State :=
  {| isConnected := false; error := None; isAuthenticated := false;
     sessionToken := None;
     prices := loadCachedPrices window cached date_now;
     wsRef := None; reconnectTimeoutRef := None; subscribedSymbolsRef := [];
     authenticationInProgressRef := false; connectionInProgressRef := false;
     sockets := []; wire := []; timers := []; nextTimer := 1;
     now := date_now; localStorage := cached; hasWindow := window;
     wsCtorThrows := ctorThrows; setItemThrows := itemThrows |}.

(** The effects run after the first render, in the order of their
    declaration: the persistence of [prices], then [connect]. *)
Definition mount (p : Props) (s : State) : State :=
  s |> cachePrices |> connect p.

(** The cleanup of the connect effect: the explicit, normal closure. *)
Definition cleanup (s : State) : State :=
  let s1 := match reconnectTimeoutRef s with
            | Some id => clearTimeout id s
            | None => s
            end in
  match wsRef s1 with
  | Some w => ws_close w s1
  | None => s1
  end.

(** ** The event loop *)

Inductive event :=
  | call_connect
  | call_subscribe (symbols : list string)
  | call_unsubscribe (symbols : list string)
  | unmount
  | ws_open (w : nat)
  | ws_message (w : nat) (m : inbound)
  | ws_error (w : nat)
  | ws_closed (w : nat) (code : Z)
  | timer_fires (id : nat)
  | clock (t : Z)
  | mounted.

(** A message event runs [ws.onmessage], registered first, and then the
    handshake listener if one is registered on the socket. *)
Definition dispatch_message (w : nat) (m : inbound) (s : State) : State :=
  let s1 := onmessage m s in
  match listener_of w s with
  | Some (authTimeoutId, k) => messageHandler w authTimeoutId k m s1
  | None => s1
  end.

Definition run_timer (p : Props) (a : timer_action) (s : State) : State :=
  match a with
  | authTimeout w => onAuthTimeout w s
  | reconnectTimer => connect p s
  end.

Definition find_timer (id : nat) (s : State) : option timer :=
  head (filter (λ t, timer_id t = id) (timers s)).

(** One turn of the event loop.  The browser opens only a connecting
    socket, delivers messages only to an open one, closes a socket once, and
    fires a timer that is still set, once, not before it is due. *)
Definition step (p : Props) (e : event) (s : State) : State :=
  match e with
  | call_connect => connect p s
  | call_subscribe symbols => subscribe symbols s
  | call_unsubscribe symbols => unsubscribe symbols s
  | unmount => cleanup s
  | ws_open w =>
      match readyState_of w s with
      | Some CONNECTING =>
          s |> update_socket w (with_readyState OPEN) |> onopen p w
      | _ => s
      end
  | ws_message w m =>
      match readyState_of w s with
      | Some OPEN => dispatch_message w m s
      | _ => s
      end
  | ws_error w =>
      match readyState_of w s with
      | Some _ => onerror s
      | None => s
      end
  | ws_closed w code =>
      match readyState_of w s with
      | Some (CONNECTING | OPEN | CLOSING) =>
          s |> update_socket w (with_readyState CLOSED) |> onclose p code
      | _ => s
      end
  | timer_fires id =>
      match find_timer id s with
      | Some t =>
          if due t <=? now s then s |> clearTimeout id |> run_timer p (action t)
          else s
      | None => s
      end
  | clock t => set_now (Z.max (now s) t) s
  | mounted => mount p s
  end.

Definition run (p : Props) (events : list event) (s : State) : State :=
  foldl (λ s e, step p e s) s events.

(** The transports that are connecting or open. *)
Definition is_live (k : socket) : bool :=
  match readyState k with
  | CONNECTING | OPEN => true
  | CLOSING | CLOSED => false
  end.

Definition live_transports (s : State) : list socket :=
  filter (λ k, is_live k = true) (sockets s).

Definition hex_of (bs : list Byte.byte) : list Z := Sha256.byte_to_Z <$> bs.

(** The new symbols of a call, as [subscribe] computes them. *)
Definition new_symbols (symbols : list string) (s : State) : list string :=
  filter (λ symbol, ¬ JsSet.has symbol (subscribedSymbolsRef s)) symbols.

(** The frames that left between a state and a later one. *)
Definition sent_since (s s' : State) : list (nat * frame) :=
  drop (length (wire s)) (wire s').

(** ** Sample configurations *)

Module Sample.

Definition keyed : Props :=
  {| url := "ws://localhost:3001"; apiKey := Some "your-secret-api-key-1"%string;
     enabled := true; reconnectInterval := 5000 |}.

Definition keyless : Props :=
  {| url := "ws://localhost:3001"; apiKey := None;
     enabled := true; reconnectInterval := 5000 |}.

(** A first render in a browser with an empty storage. *)
Definition fresh : State := initial true false false no_item 0.

(** The same, in a browser whose storage rejects every write. *)
Definition storage_full : State := initial true false true no_item 0.

End Sample.

(** The symbols a call removes, as [unsubscribe] computes them. *)
Definition subscribed_to_remove (symbols : list string) (s : State) : list string :=
  filter (λ symbol, JsSet.has symbol (subscribedSymbolsRef s)) symbols.

(** The frame of the full resync on socket [w]: none for an empty set. *)
Definition resync (w : nat) (s : State) : list (nat * frame) :=
  match subscribedSymbolsRef s with
  | [] => []
  | _ :: _ => [(w, subscribe_frame (subscribedSymbolsRef s))]
  end.

(** ** Predicates on states *)

(** The listeners of a socket carry the configured credential. *)
Definition keyed_socket (p : Props) (k : socket) : Prop :=
  ∀ tid key, listener k = Some (tid, key) → credential p = Some key.

Definition is_authenticate_frame (f : frame) : bool :=
  match f with
  | authenticate_frame _ => true
  | subscribe_frame _ | unsubscribe_frame _ => false
  end.

(** The effect of an event on the subscription set. *)
Definition registry (set : list string) (e : event) : list string :=
  match e with
  | call_subscribe symbols =>
      foldl (λ set symbol, JsSet.add symbol set) set
            (filter (λ symbol, ¬ JsSet.has symbol set) symbols)
  | call_unsubscribe symbols =>
      foldl (λ set symbol, JsSet.delete symbol set) set
            (filter (λ symbol, JsSet.has symbol set) symbols)
  | _ => set
  end.

(** The handshake of socket [w] is in flight: its promise is pending, its
    listener is registered with timer [tid], and this timer is set, due at
    [d], and is the only timer of the handshake. *)
Record handshake_pending (w tid : nat) (d : Z) (s : State) : Prop := {
  hp_timer :
    filter (λ t, timer_id t = tid) (timers s) = [Timer tid d (authTimeout w)];
  hp_only : ∀ t, t ∈ timers s → action t = authTimeout w → timer_id t = tid;
  hp_fresh : (tid < nextTimer s)%nat;
  hp_socket :
    ∃ k key, sockets s !! w = Some k ∧ authPromise k = pending
             ∧ listener k = Some (tid, key) ∧ readyState k ≠ CONNECTING;
  hp_others :
    ∀ w' k t key, w' ≠ w → sockets s !! w' = Some k →
                  listener k = Some (t, key) → t ≠ tid;
  hp_reconnect : reconnectTimeoutRef s ≠ Some tid
}.

(** The events that end the handshake of socket [w] under timer [tid]: a
    verdict of the server, a frame that fails to parse, or the timer. *)
Definition ends_handshake (w tid : nat) (e : event) : bool :=
  match e with
  | ws_message w' (authenticated _ | auth_error _ | malformed) => bool_decide (w' = w)
  | timer_fires id => bool_decide (id = tid)
  | _ => false
  end.

(** Timer identifiers in use are below [nextTimer], and a timer of a
    handshake belongs to a socket that has been opened. *)
Record timers_fresh (s : State) : Prop := {
  tf_timers : ∀ t, t ∈ timers s → (timer_id t < nextTimer s)%nat;
  tf_auth : ∀ t w, t ∈ timers s → action t = authTimeout w →
              ∃ k, sockets s !! w = Some k ∧ readyState k ≠ CONNECTING;
  tf_listeners : ∀ w k t key, sockets s !! w = Some k →
                   listener k = Some (t, key) → (t < nextTimer s)%nat;
  tf_reconnect : ∀ r, reconnectTimeoutRef s = Some r → (r < nextTimer s)%nat
}.

Definition no_authenticate_frames (s : State) : Prop :=
  Forall (λ entry : nat * frame, is_authenticate_frame entry.2 = false) (wire s).

Definition no_listeners (s : State) : Prop :=
  Forall (λ k, listener k = None) (sockets s).

(** ** Sample runs *)

Module Scenario.

Import Sample.

(** A keyless client, connected and authenticated on socket 0. *)
Definition connected : State :=
  run keyless [mounted; ws_open 0%nat] fresh.

(** A keyed client goes through a whole session on socket 0, loses the
    transport, reconnects on socket 1 after the reconnect interval and is in
    the middle of the handshake there. *)
Definition session : list event :=
  [ call_connect; ws_open 0%nat;
    ws_message 0 auth_required; ws_message 0 (challenge "abc" "1");
    ws_message 0 (authenticated "token-1");
    call_subscribe ["AAPL"; "MSFT"]%string; call_unsubscribe ["AAPL"%string];
    call_subscribe ["GOOG"%string];
    ws_closed 0 1006; clock 5000; timer_fires 2%nat; ws_open 1%nat;
    ws_message 1 auth_required; ws_message 1 (challenge "def" "2") ].

Definition reconnecting : State := run keyed session fresh.

(** A keyed client whose first transport is about to open. *)
Definition connecting : State := run keyed [mounted] fresh.

(** The handshake traffic that does not end the handshake, then ten
    seconds without a verdict. *)
Definition silence : list event :=
  [ ws_message 0 auth_required; ws_message 0 (challenge "abc" "1");
    call_subscribe ["AAPL"%string]; clock 10000 ].

(** The server rejects the credential on socket 0, which the client starts
    to close; the application calls [reconnect], which creates socket 1; then
    the close event of socket 0 arrives. *)
Definition rejected : list event :=
  [ mounted; ws_open 0%nat; ws_message 0 (auth_error "denied"); call_connect;
    ws_closed 0 1005 ].

Definition orphaned : State := run keyed rejected fresh.

End Scenario.

(** A connecting socket has no listener, and an open socket with a listener
    has its handshake pending. *)
Definition listening_socket (k : socket) : Prop :=
  (readyState k = CONNECTING → listener k = None)
  ∧ (readyState k = OPEN → listener k ≠ None → authPromise k = pending).



(** * Further definitions *)

(** The frames the general handler [ws.onmessage] acts on. *)
Definition is_data_frame (m : inbound) : bool :=
  match m with
  | price_update _ _ | error_message _ => true
  | malformed | auth_required | challenge _ _ | authenticated _
  | auth_error _ | unknown_type => false
  end.

(** The frames of the subscription protocol. *)
Definition is_subscription_frame (f : frame) : bool :=
  match f with
  | subscribe_frame _ | unsubscribe_frame _ => true
  | authenticate_frame _ => false
  end.

(** The events that send subscription frames on transport [w]: a call of
    [subscribe] or [unsubscribe] on a ready client, the opening of a
    transport without credential, and the verdict [authenticated] of a
    pending handshake. *)
Definition subscription_source (p : Props) (s : State) (e : event) (w : nat) : Prop :=
  match e with
  | call_subscribe _ | call_unsubscribe _ => ready_to_send s = Some w
  | ws_open w' =>
      w' = w ∧ credential p = None ∧ readyState_of w s = Some CONNECTING
  | ws_message w' (authenticated _) =>
      w' = w ∧ readyState_of w s = Some OPEN
      ∧ is_Some (listener_of w s) ∧ authPromise_of w s = Some pending
  | _ => False
  end.

(** ** Transports in use *)

(** A transport that the browser has not closed yet. *)
Definition is_unclosed (k : socket) : bool :=
  match readyState k with
  | CONNECTING | OPEN | CLOSING => true
  | CLOSED => false
  end.

Definition is_reconnect (t : timer) : bool :=
  match action t with
  | reconnectTimer => true
  | authTimeout _ => false
  end.

Definition unclosed (ks : list socket) : nat :=
  length (filter (λ k, is_unclosed k = true) ks).

Definition reconnects (ts : list timer) : nat :=
  length (filter (λ t, is_reconnect t = true) ts).

(** The transports in use and the reconnections to come. *)
Definition transports_in_use (s : State) : nat :=
  (unclosed (sockets s) + reconnects (timers s))%nat.

(** The events that are not a call of [connect] by the application. *)
Definition automatic (e : event) : bool :=
  match e with
  | call_connect | mounted => false
  | _ => true
  end.

(** A step that closes no transport and sets no reconnect timer. *)
Definition settles (s s' : State) : Prop :=
  unclosed (sockets s') = unclosed (sockets s)
  ∧ (reconnects (timers s') ≤ reconnects (timers s))%nat.

(** ** The connection guard *)

(** A transport that has been created and has not opened, or is being
    closed: the browser still owes it a close event. *)
Definition is_unsettled (k : socket) : bool :=
  match readyState k with
  | CONNECTING | CLOSING => true
  | OPEN | CLOSED => false
  end.

(** The current transport is unsettled. *)
Definition current_unsettled (s : State) : Prop :=
  ∃ w k, wsRef s = Some w ∧ sockets s !! w = Some k ∧ is_unsettled k = true.

(** The connection guard is set only while the current transport is
    unsettled. *)
Definition guard_held (s : State) : Prop :=
  connectionInProgressRef s = true → current_unsettled s.

(** A step that leaves the guard, the current transport and the unsettled
    transports as they are. *)
Definition keeps_guard (s s' : State) : Prop :=
  wsRef s' = wsRef s
  ∧ connectionInProgressRef s' = connectionInProgressRef s
  ∧ ∀ w k, sockets s !! w = Some k → is_unsettled k = true →
           ∃ k', sockets s' !! w = Some k' ∧ is_unsettled k' = true.

(** ** Further sample runs *)

Module Cases.

Import Sample.

(** The provider is unmounted and mounted again while the first handshake is
    in flight: the second transport is created before the close event of the
    first one. *)
Definition remounted : State :=
  run keyed [mounted; ws_open 0%nat; unmount; mounted] fresh.

(** The constructor throws (a malformed URL, a blocked scheme) and the
    reconnect timer of an earlier close is due. *)
Definition offline : State :=
  {| isConnected := false; error := None; isAuthenticated := false;
     sessionToken := None; prices := ∅;
     wsRef := None; reconnectTimeoutRef := Some 1%nat; subscribedSymbolsRef := [];
     authenticationInProgressRef := false; connectionInProgressRef := false;
     sockets := [Socket CLOSED None (resolved true)]; wire := [];
     timers := [Timer 1 5000 reconnectTimer]; nextTimer := 2;
     now := 5000; localStorage := no_item; hasWindow := true;
     wsCtorThrows := true; setItemThrows := false |}.

(** A transport was lost and the reconnect timer is set. *)
Definition waiting : State :=
  run keyless [mounted; ws_open 0%nat; ws_closed 0%nat 1006] fresh.

End Cases.

(** A price update frame for the pair [(symbol, value)]. *)
Definition price_frame (w : nat) (u : string * price) : event :=
  ws_message w (price_update u.1 u.2).

(** The price last announced for [symbol] in a list of updates. *)
Definition last_price (symbol : string) (updates : list (string * price))
  : option price :=
  snd <$> last (filter (λ u : string * price, u.1 = symbol) updates).

(** ** The component [OpenPositions] *)

Module OpenPositions.

(** A row of the table [OpenPositions]; the prices are floating-point
    numbers and are left out. *)
Record Position := {
  orderid : Z;
  tradingsymbol : string;
  side : string
}.

(** [positions.map(p => p.tradingsymbol).join(',')], the dependency of the
    memo [symbols]. *)
Definition symbol_key (positions : list Position) : string :=
  String.concat "," (tradingsymbol <$> positions).

(** [Array.from(new Set(positions.map(pos => pos.tradingsymbol)))], the
    function of the memo. *)
Definition unique_symbols (positions : list Position) : list string :=
  let symbolList := tradingsymbol <$> positions in
  JsSet.to_array (foldl (λ set symbol, JsSet.add symbol set) [] symbolList).

(** What [useMemo] keeps between renders: the dependency and the value of
    the render that computed it last. *)
Record Memo := { deps : string; value : list string }.

Definition compute (positions : list Position) : Memo :=
  {| deps := symbol_key positions; value := unique_symbols positions |}.

(** [useMemo]: the value is computed on the first render and whenever the
    dependency is another string than at the render before. *)
Definition deps_changed (prev : option Memo) (positions : list Position) : bool :=
  match prev with
  | Some m => negb (bool_decide (deps m = symbol_key positions))
  | None => true
  end.

Definition useMemo (prev : option Memo) (positions : list Position) : Memo :=
  match prev with
  | Some m => if deps_changed prev positions then compute positions else m
  | None => compute positions
  end.

(** The body of the effect on [[symbols, subscribe]]; it has no cleanup. *)
Definition subscribe_effect (symbols : list string) (s : State) : State :=
  if bool_decide (0 < length symbols)%nat then subscribe symbols s else s.

(** A render of the component with the memo [prev] of the render before
    ([None] on the first render), and its effects.  The effect runs on the
    first render, when the memo returns a new array, and when [subscribe]
    is another function than at the render before. *)
Definition render (prev : option Memo) (subscribe_changed : bool)
  (positions : list Position) (s : State) : Memo * State :=
  let symbols := useMemo prev positions in
  if deps_changed prev positions || subscribe_changed
  then (symbols, subscribe_effect (value symbols) s)
  else (symbols, s).

Import Stdlib.Strings.Ascii.







End OpenPositions.

(** ** The component [PnLSymbol] *)

Module PnLSymbol.

(** A row of the table [Pnl], as far as the counters read it: the symbol
    and whether the comment, in upper case, includes [TP] or [SL].  The sums
    of [delta] and of the days in trade are floating-point numbers and are
    left out. *)
Record Row := {
  underlier_symbol : string;
  comment_includes_TP : bool;
  comment_includes_SL : bool
}.

(** The counters of an entry of [symbolMap]. *)
Record Counters := { wins : Z; losses : Z; totalTrades : Z }.

Definition no_trades : Counters := {| wins := 0; losses := 0; totalTrades := 0 |}.

(** The updates of [symbolData] in the body of [forEach]. *)
Definition count_trade (item : Row) (symbolData : Counters) : Counters :=
  {| totalTrades := totalTrades symbolData + 1;
     wins := if comment_includes_TP item then wins symbolData + 1
             else wins symbolData;
     losses := if comment_includes_TP item then losses symbolData
               else if comment_includes_SL item then losses symbolData + 1
               else losses symbolData |}.

(** [Map<string, ...>], in insertion order. *)
Definition SymbolMap : Type := list (string * Counters).

Definition map_has (symbol : string) (m : SymbolMap) : bool :=
  bool_decide (symbol ∈ m.*1).

(** [map.set(symbol, v)] for a key that is not in the map. *)
Definition map_set_new (symbol : string) (v : Counters) (m : SymbolMap) : SymbolMap :=
  m ++ [(symbol, v)].

(** The mutation of the object returned by [map.get(symbol)]. *)
Definition map_update (symbol : string) (f : Counters → Counters) (m : SymbolMap)
  : SymbolMap :=
  (λ entry : string * Counters,
     if bool_decide (entry.1 = symbol) then (entry.1, f entry.2) else entry) <$> m.

(** The body of [forEach]. *)
Definition add_item (symbolMap : SymbolMap) (item : Row) : SymbolMap :=
  let symbol := underlier_symbol item in
  let m1 := if map_has symbol symbolMap then symbolMap
            else map_set_new symbol no_trades symbolMap in
  map_update symbol (count_trade item) m1.

Definition group (fetchedData : list Row) : SymbolMap :=
  foldl add_item [] fetchedData.

(** [data.reduce((sum, item) => sum + item.totalTrades, 0)] and the like. *)
Definition total (field : Counters → Z) (data : SymbolMap) : Z :=
  foldl (λ sum item, sum + field item.2) 0 data.

(** The rows of a symbol that satisfy [P], counted. *)
Definition rows_of (symbol : string) (P : Row → bool) (rows : list Row) : Z :=
  Z.of_nat (length (filter (λ item, underlier_symbol item = symbol ∧ P item = true) rows)).

Definition is_win (item : Row) : bool := comment_includes_TP item.

Definition is_loss (item : Row) : bool :=
  negb (comment_includes_TP item) && comment_includes_SL item.

End PnLSymbol.

(** ** The component [TableViewer] *)

Module TableViewer.

Inductive Direction := asc | desc.

(** The state of the component that the query depends on.  Row counts and
    page numbers are integers far below 2^53, on which the arithmetic of
    JavaScript numbers is exact. *)
Record View := {
  currentPage : Z;
  totalCount : Z;
  sortColumn : string;
  sortDirection : Direction
}.

Definition pageSize : Z := 50.

(** The arguments [from] and [to] of [query.range], inclusive row indices
    counted from 0. *)
Definition range (v : View) : Z * Z :=
  let from := (currentPage v - 1) * pageSize in
  let to := from + pageSize - 1 in
  (from, to).

(** [Math.ceil(totalCount / pageSize)] *)
Definition totalPages (v : View) : Z := - ((- totalCount v) / pageSize).

(** The arguments of [query.order]: [sortColumn || idColumn] and
    [sortColumn ? sortDirection === 'asc' : false]. *)
Definition order (idColumn : string) (v : View) : string * bool :=
  if bool_decide (sortColumn v = EmptyString) then (idColumn, false)
  else (sortColumn v,
        match sortDirection v with asc => true | desc => false end).

Definition setCurrentPage (f : Z → Z) (v : View) : View :=
  {| currentPage := f (currentPage v); totalCount := totalCount v;
     sortColumn := sortColumn v; sortDirection := sortDirection v |}.

(** The buttons Previous and Next. *)
Definition previous (v : View) : View :=
  setCurrentPage (λ prev, Z.max 1 (prev - 1)) v.

Definition next (v : View) : View :=
  setCurrentPage (λ prev, Z.min (totalPages v) (prev + 1)) v.

(** The text "Showing [first] to [last] of [totalCount] entries". *)
Definition showing (v : View) : Z * Z :=
  ((currentPage v - 1) * pageSize + 1,
   Z.min (currentPage v * pageSize) (totalCount v)).

Definition handleSort (column : string) (v : View) : View :=
  if bool_decide (sortColumn v = column) then
    {| currentPage := 1; totalCount := totalCount v;
       sortColumn := sortColumn v;
       sortDirection := match sortDirection v with asc => desc | desc => asc end |}
  else
    {| currentPage := 1; totalCount := totalCount v;
       sortColumn := column; sortDirection := asc |}.

(** The view of page [n], everything else as in [v]. *)
Definition at_page (n : Z) (v : View) : View := setCurrentPage (λ _, n) v.

End TableViewer.

(** ** The hook [useWebSocket] *)

Module UseWebSocket.

(** The options of the hook; [onPriceUpdate] is a callback of the caller
    and is left out. *)
Record Options := {
  url : string;
  reconnectInterval : Z;
  enabled : bool
}.

(** The state of a component that uses the hook: React state, refs, the
    option [symbols] of the last render, and the environment (transports by
    creation index, frames sent, reconnect timers, clock). *)
Record Hook := {
  isConnected : bool;
  error : option string;
  prices : gmap string price;
  wsRef : option nat;
  reconnectTimeoutRef : option nat;
  symbolsRef : list string;
  symbols : list string;
  sockets : list ReadyState;
  wire : list (nat * frame);
  timers : list (nat * Z);
  nextTimer : nat;
  now : Z;
  wsCtorThrows : bool
}.

Definition setIsConnected (v : bool) (h : Hook) : Hook :=
  {| isConnected := v; error := error h; prices := prices h; wsRef := wsRef h;
     reconnectTimeoutRef := reconnectTimeoutRef h; symbolsRef := symbolsRef h;
     symbols := symbols h; sockets := sockets h; wire := wire h;
     timers := timers h; nextTimer := nextTimer h; now := now h;
     wsCtorThrows := wsCtorThrows h |}.

Definition setError (v : option string) (h : Hook) : Hook :=
  {| isConnected := isConnected h; error := v; prices := prices h; wsRef := wsRef h;
     reconnectTimeoutRef := reconnectTimeoutRef h; symbolsRef := symbolsRef h;
     symbols := symbols h; sockets := sockets h; wire := wire h;
     timers := timers h; nextTimer := nextTimer h; now := now h;
     wsCtorThrows := wsCtorThrows h |}.

Definition setPrices (v : gmap string price) (h : Hook) : Hook :=
  {| isConnected := isConnected h; error := error h; prices := v; wsRef := wsRef h;
     reconnectTimeoutRef := reconnectTimeoutRef h; symbolsRef := symbolsRef h;
     symbols := symbols h; sockets := sockets h; wire := wire h;
     timers := timers h; nextTimer := nextTimer h; now := now h;
     wsCtorThrows := wsCtorThrows h |}.

Definition set_wsRef (v : option nat) (h : Hook) : Hook :=
  {| isConnected := isConnected h; error := error h; prices := prices h; wsRef := v;
     reconnectTimeoutRef := reconnectTimeoutRef h; symbolsRef := symbolsRef h;
     symbols := symbols h; sockets := sockets h; wire := wire h;
     timers := timers h; nextTimer := nextTimer h; now := now h;
     wsCtorThrows := wsCtorThrows h |}.

Definition set_reconnectTimeoutRef (v : option nat) (h : Hook) : Hook :=
  {| isConnected := isConnected h; error := error h; prices := prices h;
     wsRef := wsRef h; reconnectTimeoutRef := v; symbolsRef := symbolsRef h;
     symbols := symbols h; sockets := sockets h; wire := wire h;
     timers := timers h; nextTimer := nextTimer h; now := now h;
     wsCtorThrows := wsCtorThrows h |}.

Definition set_symbolsRef (v : list string) (h : Hook) : Hook :=
  {| isConnected := isConnected h; error := error h; prices := prices h;
     wsRef := wsRef h; reconnectTimeoutRef := reconnectTimeoutRef h;
     symbolsRef := v; symbols := symbols h; sockets := sockets h; wire := wire h;
     timers := timers h; nextTimer := nextTimer h; now := now h;
     wsCtorThrows := wsCtorThrows h |}.

Definition set_symbols (v : list string) (h : Hook) : Hook :=
  {| isConnected := isConnected h; error := error h; prices := prices h;
     wsRef := wsRef h; reconnectTimeoutRef := reconnectTimeoutRef h;
     symbolsRef := symbolsRef h; symbols := v; sockets := sockets h;
     wire := wire h; timers := timers h; nextTimer := nextTimer h; now := now h;
     wsCtorThrows := wsCtorThrows h |}.

Definition set_sockets (v : list ReadyState) (h : Hook) : Hook :=
  {| isConnected := isConnected h; error := error h; prices := prices h;
     wsRef := wsRef h; reconnectTimeoutRef := reconnectTimeoutRef h;
     symbolsRef := symbolsRef h; symbols := symbols h; sockets := v;
     wire := wire h; timers := timers h; nextTimer := nextTimer h; now := now h;
     wsCtorThrows := wsCtorThrows h |}.

Definition set_wire (v : list (nat * frame)) (h : Hook) : Hook :=
  {| isConnected := isConnected h; error := error h; prices := prices h;
     wsRef := wsRef h; reconnectTimeoutRef := reconnectTimeoutRef h;
     symbolsRef := symbolsRef h; symbols := symbols h; sockets := sockets h;
     wire := v; timers := timers h; nextTimer := nextTimer h; now := now h;
     wsCtorThrows := wsCtorThrows h |}.

Definition set_timers (v : list (nat * Z)) (next : nat) (h : Hook) : Hook :=
  {| isConnected := isConnected h; error := error h; prices := prices h;
     wsRef := wsRef h; reconnectTimeoutRef := reconnectTimeoutRef h;
     symbolsRef := symbolsRef h; symbols := symbols h; sockets := sockets h;
     wire := wire h; timers := v; nextTimer := next; now := now h;
     wsCtorThrows := wsCtorThrows h |}.

Definition set_now (v : Z) (h : Hook) : Hook :=
  {| isConnected := isConnected h; error := error h; prices := prices h;
     wsRef := wsRef h; reconnectTimeoutRef := reconnectTimeoutRef h;
     symbolsRef := symbolsRef h; symbols := symbols h; sockets := sockets h;
     wire := wire h; timers := timers h; nextTimer := nextTimer h; now := v;
     wsCtorThrows := wsCtorThrows h |}.

(** [ws.send]: the frame leaves on an open transport and is dropped on a
    closing or closed one. *)
Definition ws_send (w : nat) (f : frame) (h : Hook) : Hook :=
  match sockets h !! w with
  | Some OPEN => set_wire (wire h ++ [(w, f)]) h
  | _ => h
  end.

Definition ws_close (w : nat) (h : Hook) : Hook :=
  set_sockets
    (alter (λ r, match r with CONNECTING | OPEN => CLOSING | _ => r end) w
       (sockets h)) h.

(** [wsRef.current && wsRef.current.readyState === WebSocket.OPEN] *)
Definition current_open (h : Hook) : option nat :=
  match wsRef h with
  | Some w => match sockets h !! w with Some OPEN => Some w | _ => None end
  | None => None
  end.

(** The effect on [[symbols]]. *)
Definition sync_symbols (h : Hook) : Hook := set_symbolsRef (symbols h) h.

(** The effect on [[symbols, isConnected]]. *)
Definition update_subscriptions (h : Hook) : Hook :=
  match current_open h with
  | Some w =>
      if isConnected h && bool_decide (0 < length (symbols h))%nat then
        ws_send w (subscribe_frame (symbols h)) h
      else h
  | None => h
  end.

(** The render after a handler, which runs the effect on
    [[symbols, isConnected]] when [isConnected] is not what it was in the
    state [before] the handler. *)
Definition rerender (before : Hook) (h : Hook) : Hook :=
  if bool_decide (isConnected h = isConnected before) then h
  else update_subscriptions h.

Definition connect (o : Options) (h : Hook) : Hook :=
  if negb (enabled o) || bool_decide (url o = ""%string) then h
  else
    let h1 := match wsRef h with Some w => ws_close w h | None => h end in
    if wsCtorThrows h1 then
      setError (Some "Failed to create WebSocket connection"%string) h1
    else
      h1 |> set_sockets (sockets h1 ++ [CONNECTING])
         |> set_wsRef (Some (length (sockets h1))).

Definition onopen (w : nat) (h : Hook) : Hook :=
  let h1 := h |> setIsConnected true |> setError None in
  if bool_decide (0 < length (symbolsRef h1))%nat then
    ws_send w (subscribe_frame (symbolsRef h1)) h1
  else h1.

Definition onmessage (m : inbound) (h : Hook) : Hook :=
  match m with
  | price_update symbol value => setPrices (<[symbol := value]> (prices h)) h
  | error_message message => setError (Some message) h
  | _ => h
  end.

Definition onerror (h : Hook) : Hook :=
  setError (Some "WebSocket connection error"%string) h.

Definition onclose (o : Options) (code : Z) (h : Hook) : Hook :=
  let h1 := h |> setIsConnected false |> set_wsRef None in
  if enabled o && negb (code =? 1000) then
    h1 |> set_timers
            (timers h1 ++ [(nextTimer h1, now h1 + Z.max 0 (reconnectInterval o))])
            (S (nextTimer h1))
       |> set_reconnectTimeoutRef (Some (nextTimer h1))
  else h1.

Definition subscribe (newSymbols : list string) (h : Hook) : Hook :=
  match current_open h with
  | Some w => ws_send w (subscribe_frame newSymbols) h
  | None => h
  end.

Definition unsubscribe (symbolsToRemove : list string) (h : Hook) : Hook :=
  match current_open h with
  | Some w => ws_send w (unsubscribe_frame symbolsToRemove) h
  | None => h
  end.

Definition cleanup (h : Hook) : Hook :=
  let h1 := match reconnectTimeoutRef h with
            | Some id =>
                set_timers (filter (λ t, t.1 ≠ id) (timers h)) (nextTimer h) h
            | None => h
            end in
  match wsRef h1 with
  | Some w => ws_close w h1
  | None => h1
  end.

(** The first render with the option [symbols]. *)
Definition initial (symbols : list string) (ctorThrows : bool) (date_now : Z) : Hook :=
  {| isConnected := false; error := None; prices := ∅; wsRef := None;
     reconnectTimeoutRef := None; symbolsRef := symbols; symbols := symbols;
     sockets := []; wire := []; timers := []; nextTimer := 1; now := date_now;
     wsCtorThrows := ctorThrows |}.

Inductive event :=
  | mounted
  | render (symbols : list string)
  | call_connect
  | call_subscribe (newSymbols : list string)
  | call_unsubscribe (symbolsToRemove : list string)
  | unmount
  | ws_open (w : nat)
  | ws_message (w : nat) (m : inbound)
  | ws_error (w : nat)
  | ws_closed (w : nat) (code : Z)
  | timer_fires (id : nat)
  | clock (t : Z).

(** One turn of the event loop, with the render that follows it.  The
    effects of a render run in the order of their declaration.  The caller
    passes the same [symbols] array, and the same other options, until an
    event [render]. *)
Definition step (o : Options) (e : event) (h : Hook) : Hook :=
  match e with
  | mounted => h |> sync_symbols |> connect o |> update_subscriptions
  | render symbols =>
      h |> set_symbols symbols |> sync_symbols |> update_subscriptions
  | call_connect => connect o h
  | call_subscribe newSymbols => subscribe newSymbols h
  | call_unsubscribe symbolsToRemove => unsubscribe symbolsToRemove h
  | unmount => cleanup h
  | ws_open w =>
      match sockets h !! w with
      | Some CONNECTING =>
          h |> set_sockets (<[w := OPEN]> (sockets h)) |> onopen w |> rerender h
      | _ => h
      end
  | ws_message w m =>
      match sockets h !! w with
      | Some OPEN => onmessage m h
      | _ => h
      end
  | ws_error w =>
      match sockets h !! w with
      | Some _ => onerror h
      | None => h
      end
  | ws_closed w code =>
      match sockets h !! w with
      | Some (CONNECTING | OPEN | CLOSING) =>
          h |> set_sockets (<[w := CLOSED]> (sockets h)) |> onclose o code
            |> rerender h
      | _ => h
      end
  | timer_fires id =>
      match head (filter (λ t, t.1 = id) (timers h)) with
      | Some t =>
          if t.2 <=? now h then
            h |> set_timers (filter (λ t, t.1 ≠ id) (timers h)) (nextTimer h)
              |> connect o
          else h
      | None => h
      end
  | clock t => set_now (Z.max (now h) t) h
  end.

Definition run (o : Options) (events : list event) (h : Hook) : Hook :=
  foldl (λ h e, step o e h) h events.

Definition sent_since (h h' : Hook) : list (nat * frame) :=
  drop (length (wire h)) (wire h').

(** A sample configuration. *)
Definition feed : Options :=
  {| url := "wss://feed"; reconnectInterval := 5000; enabled := true |}.

End UseWebSocket.
(** * Properties *)

Example sha256_abc :
  hex_of (Sha256.digest (String.list_byte_of_string "abc")) =
  [0xba; 0x78; 0x16; 0xbf; 0x8f; 0x01; 0xcf; 0xea; 0x41; 0x41; 0x40; 0xde;
   0x5d; 0xae; 0x22; 0x23; 0xb0; 0x03; 0x61; 0xa3; 0x96; 0x17; 0x7a; 0x9c;
   0xb4; 0x10; 0xff; 0x61; 0xf2; 0x00; 0x15; 0xad].
Proof. vm_compute. reflexivity. Qed.

Example sha256_constants :
  take 2 Sha256.K = [0x428a2f98; 0x71374491]
  ∧ Sha256.H0 !! 7%nat = Some 0x5be0cd19 ∧ length Sha256.K = 64%nat.
Proof. vm_compute. done. Qed.

Example sha256_abc_secret :
  sha256 "abc:secret" = "CHruTtFKjGFWnCiE+SkH58AIGzSu2/zoC6Xk/akATYQ="%string.
Proof. vm_compute. reflexivity. Qed.

(** Unfolds the field updates, to compare two states field by field. *)
Ltac unfold_setters :=
  unfold setIsConnected, setError, setIsAuthenticated, setSessionToken, setPrices,
    set_wsRef, set_reconnectTimeoutRef, set_subscribedSymbolsRef,
    set_authenticationInProgressRef, set_connectionInProgressRef, set_sockets,
    set_wire, set_timers, set_nextTimer, set_now, set_localStorage in *.

Ltac state_eq s := destruct s; unfold_setters; simpl in *; subst; try done.

(** ** Connection guard *)

Section Connect.

Variable p : Props.

Lemma connect_disabled s : enabled p = false → connect p s = s.
Proof. intros H. unfold connect. by rewrite H. Qed.

Lemma connect_no_url s : url p = ""%string → connect p s = s.
Proof.
  intros H. unfold connect. rewrite H.
  by destruct (enabled p).
Qed.

Lemma connect_in_progress s : connectionInProgressRef s = true → connect p s = s.
Proof.
  intros H. unfold connect. rewrite H.
  by destruct (negb (enabled p) || bool_decide (url p = ""%string)).
Qed.

Lemma connect_live s : ws_live s = true → connect p s = s.
Proof.
  intros H. unfold connect. rewrite H, orb_true_r.
  by destruct (negb (enabled p) || bool_decide (url p = ""%string)).
Qed.

End Connect.

Lemma alter_fixed {A} (f : A → A) (i : nat) (l : list A) :
  (∀ x, l !! i = Some x → f x = x) → alter f i l = l.
Proof.
  intros Hf. apply list_eq. intros j.
  destruct (decide (i = j)) as [<-|Hne].
  - rewrite list_lookup_alter_eq.
    destruct (l !! i) as [x|] eqn:Hx; simpl; [|done].
    by rewrite (Hf x).
  - by rewrite list_lookup_alter_ne.
Qed.

Lemma closing_dead k : is_live k = false → closing k = k.
Proof. unfold closing, is_live. by destruct k as [[] ? ?]. Qed.

(** Closing the socket of [wsRef] changes nothing when it is not live. *)
Lemma close_current_dead (s : State) (w : nat) :
  ws_live s = false → wsRef s = Some w →
  alter closing w (sockets s) = sockets s.
Proof.
  unfold ws_live, readyState_of. intros Hlive Hw. rewrite Hw in Hlive.
  apply alter_fixed. intros k Hk. rewrite Hk in Hlive. simpl in Hlive.
  apply closing_dead. unfold is_live. by destruct (readyState k).
Qed.

Lemma live_transports_app (l1 l2 : list socket) :
  filter (λ k, is_live k = true) (l1 ++ l2)
  = filter (λ k, is_live k = true) l1 ++ filter (λ k, is_live k = true) l2.
Proof. apply filter_app. Qed.

(** What [connect] does when no guard stops it. *)
Lemma connect_proceeds (p : Props) (s : State) :
  enabled p = true → url p ≠ ""%string →
  connectionInProgressRef s = false → ws_live s = false →
  connect p s =
    if wsCtorThrows s then
      s |> setError (Some "Failed to create WebSocket connection"%string)
    else
      s |> set_connectionInProgressRef true
        |> set_sockets (sockets s ++ [Socket CONNECTING None not_created])
        |> set_wsRef (Some (length (sockets s))).
Proof.
  intros He Hu Hc Hl. unfold connect.
  rewrite He, Hc, Hl. rewrite bool_decide_eq_false_2 by done. simpl.
  destruct (wsRef s) as [w|] eqn:Hw; simpl.
  - unfold ws_close, update_socket. simpl.
    rewrite (close_current_dead s w Hl Hw).
    destruct (wsCtorThrows s); by state_eq s.
  - destruct (wsCtorThrows s); by state_eq s.
Qed.

(** The guards of [connect] as they are written: the call changes nothing
    when the client is disabled, the URL is empty, the connection guard is
    set or the transport held in [wsRef] is connecting or open; a second
    call right after a first one changes nothing, and two calls from a state
    without live transport leave exactly one live transport. *)
Lemma connect_guards (p : Props) (s : State) :
  (enabled p = false ∨ url p = ""%string ∨ connectionInProgressRef s = true
     ∨ ws_live s = true → connect p s = s)
  ∧ connect p (connect p s) = connect p s
  ∧ (enabled p = true → url p ≠ ""%string → connectionInProgressRef s = false →
     wsCtorThrows s = false → live_transports s = [] →
     connectionInProgressRef (connect p s) = true
     ∧ live_transports (connect p (connect p s))
       = [Socket CONNECTING None not_created]).
Proof.
  split; [|split].
  - intros [H|[H|[H|H]]];
      eauto using connect_disabled, connect_no_url, connect_in_progress, connect_live.
  - destruct (enabled p) eqn:He; [|by rewrite !connect_disabled].
    destruct (decide (url p = ""%string)) as [Hu|Hu]; [by rewrite !connect_no_url|].
    destruct (connectionInProgressRef s) eqn:Hc; [by rewrite !(connect_in_progress p s Hc)|].
    destruct (ws_live s) eqn:Hl; [by rewrite !(connect_live p s Hl)|].
    rewrite (connect_proceeds p s) by done.
    destruct (wsCtorThrows s) eqn:Ht.
    + rewrite connect_proceeds; [|done|done|by simpl|by unfold ws_live in *].
      simpl. rewrite Ht. by state_eq s.
    + by rewrite connect_in_progress.
  - intros He Hu Hc Ht Hnone.
    assert (ws_live s = false) as Hl.
    { unfold ws_live, readyState_of.
      destruct (wsRef s) as [w|]; [|done].
      destruct (sockets s !! w) as [k|] eqn:Hk; [|done]. simpl.
      assert (k ∈ live_transports s → False) as Hnot by (rewrite Hnone; set_solver).
      destruct (readyState k) eqn:Hr; try done; exfalso; apply Hnot;
        apply list_elem_of_filter; (split; [unfold is_live; by rewrite Hr|]);
        by eapply list_elem_of_lookup_2. }
    rewrite (connect_proceeds p s) by done. rewrite Ht.
    split; [done|].
    rewrite connect_in_progress by done.
    unfold live_transports in *. simpl.
    rewrite live_transports_app, Hnone. done.
Qed.

(** C3. The guards of [connect] do not prevent a second connection.  They
    look at the transport held in [wsRef] only, and the close
    handler of every transport, current or not, empties [wsRef] and clears
    the connection guard.  After a rejected authentication, a call of
    [reconnect] and the late close event of the rejected transport, one
    transport is connecting while [wsRef] is empty and the guard is clear:
    there [connect] creates a transport, two calls in a row leave two
    connecting transports, and so does the reconnect timer set by that close
    event.  From a fresh mount two calls leave one transport. *)
Theorem connect_duplicates_transport :
  let s := Scenario.orphaned in
  live_transports s = [Socket CONNECTING None not_created]
  ∧ wsRef s = None ∧ connectionInProgressRef s = false ∧ ws_live s = false
  ∧ length (sockets (connect Sample.keyed s)) = S (length (sockets s))
  ∧ live_transports (connect Sample.keyed (connect Sample.keyed s))
    = [Socket CONNECTING None not_created; Socket CONNECTING None not_created]
  ∧ live_transports (run Sample.keyed [clock 5000; timer_fires 2%nat] s)
    = [Socket CONNECTING None not_created; Socket CONNECTING None not_created]
  ∧ live_transports (connect Sample.keyed (connect Sample.keyed Sample.fresh))
    = [Socket CONNECTING None not_created].
Proof. cbv zeta. split_and!; vm_compute; reflexivity. Qed.

(** ** Transport close *)

(** C7. When a transport closes, the connected and authenticated flags are
    cleared and the session token is dropped; a close with code 1000
    schedules nothing, nor does any close of a disabled client; any other
    code, while the client is enabled, schedules exactly one timer, due after
    the reconnect interval, whose body is [connect]. *)
Theorem close_clears_and_reconnects (p : Props) (w : nat) (code : Z)
    (r : ReadyState) (s : State) :
  readyState_of w s = Some r → r ≠ CLOSED →
  let s' := step p (ws_closed w code) s in
  isConnected s' = false ∧ isAuthenticated s' = false ∧ sessionToken s' = None
  ∧ (code = 1000 ∨ enabled p = false → timers s' = timers s)
  ∧ (code ≠ 1000 → enabled p = true →
       timers s' = timers s ++
         [Timer (nextTimer s) (now s + Z.max 0 (reconnectInterval p)) reconnectTimer]
       ∧ reconnectTimeoutRef s' = Some (nextTimer s)
       ∧ ∀ s0, run_timer p reconnectTimer s0 = connect p s0).
Proof.
  intros Hr Hne. simpl. rewrite Hr.
  assert (∀ s0 : State,
    (match r with
     | CLOSED => s0
     | _ => s0 |> update_socket w (with_readyState CLOSED) |> onclose p code
     end) = s0 |> update_socket w (with_readyState CLOSED) |> onclose p code) as ->
    by (by destruct r).
  unfold onclose.
  split_and!; try by destruct (enabled p && negb (code =? 1000)).
  - intros [-> | ->]; [by rewrite andb_false_r|done].
  - intros Hcode ->. by destruct (Z.eqb_spec code 1000).
Qed.

(** ** The price cache *)

(** C8. In a browser, the first render adopts the whole persisted map when
    the snapshot is younger than 24 hours, and starts from the empty map
    when the snapshot is 24 hours old or older, absent, or fails to load. *)
Theorem cache_load_expiry (ctorThrows itemThrows : bool) (cached : stored) (t : Z) :
  let s := initial true ctorThrows itemThrows cached t in
  (∀ data ts, cached = snapshot data ts → t - ts < 86400000 → prices s = data)
  ∧ (∀ data ts, cached = snapshot data ts → 86400000 ≤ t - ts → prices s = ∅)
  ∧ (cached = no_item ∨ cached = load_fails → prices s = ∅).
Proof.
  simpl. repeat split.
  - intros data ts -> Hage. unfold CACHE_EXPIRY_MS.
    by destruct (Z.ltb_spec (t - ts) (24 * 60 * 60 * 1000)); [|lia].
  - intros data ts -> Hage. unfold CACHE_EXPIRY_MS.
    by destruct (Z.ltb_spec (t - ts) (24 * 60 * 60 * 1000)); [lia|].
  - by intros [-> | ->].
Qed.

(** ** The subscription set *)

Module JsSetFacts.

Import JsSet.

Lemma has_spec x set : has x set ↔ x ∈ set.
Proof. unfold has. apply bool_decide_spec. Qed.

Lemma elem_of_add x y set : y ∈ add x set ↔ y = x ∨ y ∈ set.
Proof.
  unfold add, has. case_bool_decide as Hx.
  - split; [auto|]. intros [->|]; done.
  - rewrite elem_of_app, list_elem_of_singleton. tauto.
Qed.

Lemma NoDup_add x set : NoDup set → NoDup (add x set).
Proof.
  unfold add, has. intros Hnd. case_bool_decide as Hx; [done|].
  apply NoDup_app. split_and!; [done| |apply NoDup_singleton].
  intros y Hy ->%list_elem_of_singleton. done.
Qed.

Lemma elem_of_delete x y set : y ∈ delete x set ↔ y ≠ x ∧ y ∈ set.
Proof. unfold delete. by rewrite list_elem_of_filter. Qed.

Lemma NoDup_delete x set : NoDup set → NoDup (delete x set).
Proof. apply NoDup_filter. Qed.

Lemma elem_of_add_all y (l set : list string) :
  y ∈ foldl (λ set x, add x set) set l ↔ y ∈ set ∨ y ∈ l.
Proof.
  revert set. induction l as [|x l IH]; intros set; simpl.
  - rewrite elem_of_nil. tauto.
  - rewrite IH, elem_of_add, elem_of_cons. tauto.
Qed.

Lemma NoDup_add_all (l set : list string) :
  NoDup set → NoDup (foldl (λ set x, add x set) set l).
Proof.
  revert set. induction l as [|x l IH]; intros set Hnd; simpl; [done|].
  by apply IH, NoDup_add.
Qed.

Lemma elem_of_delete_all y (l set : list string) :
  y ∈ foldl (λ set x, delete x set) set l ↔ y ∈ set ∧ y ∉ l.
Proof.
  revert set. induction l as [|x l IH]; intros set; simpl.
  - rewrite elem_of_nil. tauto.
  - rewrite IH, elem_of_delete, not_elem_of_cons. tauto.
Qed.

Lemma NoDup_delete_all (l set : list string) :
  NoDup set → NoDup (foldl (λ set x, delete x set) set l).
Proof.
  revert set. induction l as [|x l IH]; intros set Hnd; simpl; [done|].
  by apply IH, NoDup_delete.
Qed.

End JsSetFacts.

(** The frames sent between a state and a later one. *)
Lemma sent_since_app (s s' : State) (fs : list (nat * frame)) :
  wire s' = wire s ++ fs → sent_since s s' = fs.
Proof. unfold sent_since. intros ->. by rewrite drop_app_length. Qed.

Lemma length_zero_nil {A} (l : list A) : length l = 0%nat ↔ l = [].
Proof. destruct l; naive_solver. Qed.

Lemma ws_send_ready (w : nat) (f : frame) (s : State) :
  readyState_of w s = Some OPEN → wire (ws_send w f s) = wire s ++ [(w, f)].
Proof. intros H. unfold ws_send. by rewrite H. Qed.

Lemma ready_to_send_open (w : nat) (s : State) :
  ready_to_send s = Some w → readyState_of w s = Some OPEN.
Proof.
  unfold ready_to_send. intros H. repeat case_match; naive_solver.
Qed.

Lemma subscribe_wire (symbols : list string) (s : State) :
  wire (subscribe symbols s)
  = wire s ++
      match ready_to_send s, new_symbols symbols s with
      | Some w, _ :: _ => [(w, subscribe_frame (new_symbols symbols s))]
      | _, _ => []
      end.
Proof.
  unfold subscribe. fold (new_symbols symbols s).
  case_bool_decide as H0.
  { apply length_zero_nil in H0 as ->. unfold new_symbols.
    destruct (ready_to_send s); cbn; by rewrite app_nil_r. }
  case_bool_decide as Hn.
  { apply length_zero_nil in Hn as ->.
    destruct (ready_to_send s); cbn; by rewrite app_nil_r. }
  destruct (new_symbols symbols s) as [|x l] eqn:Hnew; [done|].
  change (ready_to_send (set_subscribedSymbolsRef _ s)) with (ready_to_send s).
  destruct (ready_to_send s) as [w|] eqn:Hr; simpl.
  - apply ready_to_send_open in Hr. by rewrite ws_send_ready.
  - by rewrite app_nil_r.
Qed.

Lemma subscribe_set (symbols : list string) (s : State) (x : string) :
  x ∈ subscribedSymbolsRef (subscribe symbols s)
  ↔ x ∈ subscribedSymbolsRef s ∨ x ∈ symbols.
Proof.
  assert (x ∈ new_symbols symbols s ↔ x ∈ symbols ∧ x ∉ subscribedSymbolsRef s) as Hnew.
  { unfold new_symbols. rewrite list_elem_of_filter.
    rewrite JsSetFacts.has_spec. tauto. }
  destruct (decide (x ∈ subscribedSymbolsRef s)) as [Hin|Hout].
  - assert (x ∈ subscribedSymbolsRef (subscribe symbols s)); [|tauto].
    unfold subscribe. fold (new_symbols symbols s).
    repeat case_bool_decide; try done.
    destruct (ready_to_send _); unfold ws_send; repeat case_match; simpl;
      apply JsSetFacts.elem_of_add_all; auto.
  - unfold subscribe. fold (new_symbols symbols s).
    case_bool_decide as H0.
    { apply length_zero_nil in H0 as ->. rewrite elem_of_nil. tauto. }
    case_bool_decide as Hn.
    { apply length_zero_nil in Hn. rewrite Hn, elem_of_nil in Hnew. tauto. }
    assert (x ∈ foldl (λ set symbol, JsSet.add symbol set)
                    (subscribedSymbolsRef s) (new_symbols symbols s)
            ↔ x ∈ subscribedSymbolsRef s ∨ x ∈ symbols) as Hgoal.
    { rewrite JsSetFacts.elem_of_add_all. tauto. }
    destruct (ready_to_send _); unfold ws_send; repeat case_match; simpl; done.
Qed.

Lemma new_symbols_after_subscribe (symbols : list string) (s : State) :
  new_symbols symbols (subscribe symbols s) = [].
Proof.
  unfold new_symbols. apply elem_of_nil_inv.
  intros x [Hnot Hx]%list_elem_of_filter.
  apply Hnot, JsSetFacts.has_spec, subscribe_set. auto.
Qed.

(** C1, as the code has it.  [subscribe] sends at most one frame: a
    subscribe frame with exactly the symbols of the call that are not yet in
    the set, and only when the transport is open and authenticated; it sends
    nothing when no symbol is new.  The symbols of the call are in the set
    afterwards, and a second call with the same symbols sends nothing. *)
Theorem subscribe_sends_new_symbols_once (symbols : list string) (s : State) :
  let s1 := subscribe symbols s in
  let s2 := subscribe symbols s1 in
  sent_since s s1
    = match ready_to_send s, new_symbols symbols s with
      | Some w, _ :: _ => [(w, subscribe_frame (new_symbols symbols s))]
      | _, _ => []
      end
  ∧ (∀ x, x ∈ new_symbols symbols s ↔ x ∈ symbols ∧ x ∉ subscribedSymbolsRef s)
  ∧ (∀ x, x ∈ subscribedSymbolsRef s1 ↔ x ∈ subscribedSymbolsRef s ∨ x ∈ symbols)
  ∧ wire s2 = wire s1
  ∧ subscribedSymbolsRef s2 = subscribedSymbolsRef s1.
Proof.
  simpl. split_and!.
  - apply sent_since_app, subscribe_wire.
  - intros x. unfold new_symbols. rewrite list_elem_of_filter, JsSetFacts.has_spec. tauto.
  - intros x. apply subscribe_set.
  - rewrite (subscribe_wire symbols (subscribe symbols s)).
    rewrite new_symbols_after_subscribe.
    destruct (ready_to_send _); by rewrite app_nil_r.
  - pose proof (new_symbols_after_subscribe symbols s) as Hnil.
    unfold subscribe at 1. fold (new_symbols symbols (subscribe symbols s)).
    rewrite Hnil. simpl. by case_bool_decide.
Qed.

(** ** Frame properties of the handlers *)

Arguments credential : simpl never.

Ltac unfold_handlers :=
  unfold step, dispatch_message, run_timer, onmessage, messageHandler,
    onAuthTimeout, onopen, onclose, onerror, mount, connect, cleanup, subscribe,
    unsubscribe, authenticate, resolve, onopen_continue, cachePrices,
    ws_send, ws_close, setTimeout, clearTimeout, update_socket in *.

Ltac by_cases := unfold_handlers; repeat (simpl in *; case_match); simpl in *; try done.

Lemma step_prices (p : Props) (e : event) (s : State) :
  (∀ w symbol value, e ≠ ws_message w (price_update symbol value)) →
  prices (step p e s) = prices s.
Proof.
  intros Hne. destruct e as [| | | | |w m| | | | |]; try by by_cases.
  destruct m; try by by_cases.
  by destruct (Hne w symbol value).
Qed.

(** C1, as stated, fails before authentication: two calls of
    [subscribe(["AAPL"])] on a client that is not yet connected send no
    frame at all, not one. *)
Lemma subscribe_twice_before_auth_sends_nothing :
  let s1 := subscribe ["AAPL"%string] Sample.fresh in
  let s2 := subscribe ["AAPL"%string] s1 in
  sent_since Sample.fresh s2 = []
  ∧ length (sent_since Sample.fresh s2) ≠ 1%nat
  ∧ subscribedSymbolsRef s2 = ["AAPL"%string].
Proof. vm_compute. split_and!; [done|lia|done]. Qed.

(** ** Mirroring the price map *)

Lemma price_update_step (p : Props) (w : nat) (symbol : string) (value : price)
    (s : State) :
  readyState_of w s = Some OPEN →
  step p (ws_message w (price_update symbol value)) s
  = s |> setPrices (<[symbol := value]> (prices s)) |> cachePrices.
Proof.
  intros Hr. simpl. rewrite Hr. unfold dispatch_message. simpl.
  by destruct (listener_of w s) as [[??]|].
Qed.

Lemma insert_size_pos (symbol : string) (value : price) (m : gmap string price) :
  (0 < size (<[symbol := value]> m))%nat.
Proof.
  assert (size (<[symbol := value]> m) ≠ 0%nat); [|lia].
  apply map_size_non_empty_iff, insert_non_empty.
Qed.

(** C9, as stated, fails when the storage rejects the write: the price map
    changes and the persisted item stays what it was. *)
Lemma price_update_not_mirrored_when_write_fails :
  let s := run Sample.keyless [mounted; ws_open 0%nat] Sample.storage_full in
  let s' := step Sample.keyless (ws_message 0 (price_update "AAPL" 187)) s in
  prices s' = {[ "AAPL"%string := 187 ]}
  ∧ localStorage s' = no_item
  ∧ localStorage s' ≠ snapshot (prices s') (now s').
Proof.
  vm_compute. split_and!; [reflexivity|reflexivity|discriminate].
Qed.

(** C9, as the code has it.  Only a price update changes the price map.  In
    a browser, a price update delivered on an open transport puts the price in
    the map and writes the snapshot made of the new map and the time of the
    write, unless the storage rejects the write, in which case the persisted
    item is left as it was. *)
Theorem price_change_mirrored (p : Props) (s : State) :
  hasWindow s = true →
  (∀ e, prices (step p e s) ≠ prices s →
        ∃ w symbol value, e = ws_message w (price_update symbol value))
  ∧ (∀ w symbol value,
       readyState_of w s = Some OPEN →
       let s' := step p (ws_message w (price_update symbol value)) s in
       prices s' = <[symbol := value]> (prices s)
       ∧ (setItemThrows s = false → localStorage s' = snapshot (prices s') (now s'))
       ∧ (setItemThrows s = true → localStorage s' = localStorage s)).
Proof.
  intros Hwin. split.
  - intros e Hchg.
    destruct e as [| | | | |w m| | | | |];
      try (exfalso; apply Hchg, step_prices; intros; discriminate).
    destruct m; try (exfalso; apply Hchg, step_prices; intros; discriminate).
    eauto.
  - intros w symbol value Hr. cbv zeta.
    rewrite price_update_step by done.
    unfold cachePrices. simpl. rewrite Hwin.
    rewrite bool_decide_eq_true_2 by apply insert_size_pos. simpl.
    by destruct (setItemThrows s) eqn:Ht.
Qed.

(** ** Unsubscribing *)

Lemma unsubscribe_wire (symbols : list string) (s : State) :
  wire (unsubscribe symbols s)
  = wire s ++
      match ready_to_send s, subscribed_to_remove symbols s with
      | Some w, _ :: _ => [(w, unsubscribe_frame (subscribed_to_remove symbols s))]
      | _, _ => []
      end.
Proof.
  unfold unsubscribe. fold (subscribed_to_remove symbols s).
  case_bool_decide as H0.
  { apply length_zero_nil in H0 as ->. unfold subscribed_to_remove.
    destruct (ready_to_send s); cbn; by rewrite app_nil_r. }
  case_bool_decide as Hn.
  { apply length_zero_nil in Hn as ->.
    destruct (ready_to_send s); cbn; by rewrite app_nil_r. }
  destruct (subscribed_to_remove symbols s) as [|x l] eqn:Hrm; [done|].
  change (ready_to_send (set_subscribedSymbolsRef _ s)) with (ready_to_send s).
  destruct (ready_to_send s) as [w|] eqn:Hr; simpl.
  - apply ready_to_send_open in Hr. by rewrite ws_send_ready.
  - by rewrite app_nil_r.
Qed.

Lemma unsubscribe_set (symbols : list string) (s : State) (x : string) :
  x ∈ subscribedSymbolsRef (unsubscribe symbols s)
  ↔ x ∈ subscribedSymbolsRef s ∧ x ∉ symbols.
Proof.
  assert (x ∈ subscribed_to_remove symbols s
          ↔ x ∈ subscribedSymbolsRef s ∧ x ∈ symbols) as Hrm.
  { unfold subscribed_to_remove.
    rewrite list_elem_of_filter, JsSetFacts.has_spec. tauto. }
  unfold unsubscribe. fold (subscribed_to_remove symbols s).
  case_bool_decide as H0.
  { apply length_zero_nil in H0 as ->. rewrite elem_of_nil. tauto. }
  case_bool_decide as Hn.
  { apply length_zero_nil in Hn. rewrite Hn, elem_of_nil in Hrm. tauto. }
  assert (x ∈ foldl (λ set symbol, JsSet.delete symbol set)
                  (subscribedSymbolsRef s) (subscribed_to_remove symbols s)
          ↔ x ∈ subscribedSymbolsRef s ∧ x ∉ symbols) as Hgoal.
  { rewrite JsSetFacts.elem_of_delete_all. tauto. }
  destruct (ready_to_send _); unfold ws_send; repeat case_match; simpl; done.
Qed.

Lemma unsubscribe_prices (symbols : list string) (s : State) :
  prices (unsubscribe symbols s) = prices s.
Proof. by by_cases. Qed.

(** What the continuation of [ws.onopen] sends after a successful
    authentication. *)
Lemma onopen_continue_wire (w : nat) (s : State) :
  wire (onopen_continue w true s)
  = wire s ++ match readyState_of w s with
              | Some OPEN => resync w s
              | _ => []
              end.
Proof.
  unfold onopen_continue, resync, ws_send, JsSet.size, JsSet.to_array.
  destruct (subscribedSymbolsRef s) as [|x l] eqn:Hset; simpl.
  - by destruct (readyState_of w s) as [[]|]; rewrite app_nil_r.
  - by destruct (readyState_of w s) as [[]|]; rewrite ?app_nil_r.
Qed.

(** C10. An [unsubscribe] called while the transport is not open or the
    client is not authenticated removes from the set the symbols of the call,
    sends no frame and leaves the price map as it is; a full resync performed
    from the resulting state carries the set without any of these symbols. *)
Theorem unsubscribe_before_ready (symbols : list string) (s : State) :
  ready_to_send s = None →
  let s' := unsubscribe symbols s in
  (∀ x, x ∈ subscribedSymbolsRef s' ↔ x ∈ subscribedSymbolsRef s ∧ x ∉ symbols)
  ∧ wire s' = wire s
  ∧ prices s' = prices s
  ∧ (∀ w entry, entry ∈ sent_since s' (onopen_continue w true s') →
       entry = (w, subscribe_frame (subscribedSymbolsRef s'))
       ∧ ∀ x, x ∈ symbols → x ∉ subscribedSymbolsRef s').
Proof.
  intros Hoff s'. split_and!.
  - intros x. apply unsubscribe_set.
  - subst s'. rewrite unsubscribe_wire, Hoff. apply app_nil_r.
  - apply unsubscribe_prices.
  - intros w entry Hin.
    rewrite (sent_since_app _ _ _ (onopen_continue_wire w s')) in Hin.
    split.
    + unfold resync in Hin.
      destruct (readyState_of w s') as [[]|]; try by apply elem_of_nil in Hin.
      destruct (subscribedSymbolsRef s'); [by apply elem_of_nil in Hin|].
      by apply list_elem_of_singleton in Hin.
    + intros x Hx Hin'. apply unsubscribe_set in Hin'. tauto.
Qed.

(** ** Socket invariants *)

Section SocketInvariant.

Variable p : Props.
Variable P : socket → Prop.

Hypothesis P_readyState : ∀ k r, P k → P (with_readyState r k).
Hypothesis P_authPromise : ∀ k q, P k → P (with_authPromise q k).
Hypothesis P_unlisten : ∀ k, P k → P (with_listener None k).
Hypothesis P_listen :
  ∀ k tid key, credential p = Some key → P k → P (with_listener (Some (tid, key)) k).
Hypothesis P_new : P (Socket CONNECTING None not_created).

Lemma P_closing k : P k → P (closing k).
Proof. unfold closing. destruct (readyState k); auto. Qed.

Local Hint Resolve P_closing : core.

Ltac socket_goal :=
  repeat match goal with
    | |- _ => assumption
    | |- Forall _ (alter _ _ _) => apply Forall_alter; [|intros ? _ ?]
    | |- Forall _ (_ ++ _) => apply Forall_app_2
    | |- Forall _ [_] => apply Forall_singleton
    | |- P (closing _) => apply P_closing
    | |- P (with_readyState _ _) => apply P_readyState
    | |- P (with_authPromise _ _) => apply P_authPromise
    | |- P (with_listener None _) => apply P_unlisten
    | |- P (with_listener (Some _) _) => eapply P_listen; [first [eassumption|reflexivity]|]
    | |- P (Socket CONNECTING None not_created) => apply P_new
    end.

Lemma step_sockets_Forall e s :
  Forall P (sockets s) → Forall P (sockets (step p e s)).
Proof.
  intros Hs. destruct e; by_cases; socket_goal.
Qed.

Lemma run_sockets_Forall events s :
  Forall P (sockets s) → Forall P (sockets (run p events s)).
Proof.
  revert s. induction events as [|e events IH]; intros s Hs; simpl; [done|].
  apply IH, step_sockets_Forall, Hs.
Qed.

End SocketInvariant.

(** ** The challenge response *)

Lemma run_keyed_sockets (p : Props) (events : list event) (s : State) :
  Forall (keyed_socket p) (sockets s) →
  Forall (keyed_socket p) (sockets (run p events s)).
Proof.
  apply run_sockets_Forall; unfold keyed_socket; simpl; try done.
  intros k tid key Hkey _ tid' key' [= _ <-]. done.
Qed.

Lemma credential_Some (p : Props) (key : string) :
  credential p = Some key ↔ apiKey p = Some key ∧ key ≠ ""%string.
Proof.
  unfold credential. destruct (apiKey p) as [k|].
  - case_bool_decide as Hk.
    + split; [done|]. intros [[= ->] Hne]. done.
    + split; [intros [= ->]; done|]. by intros [? _].
  - split; [done|]. by intros [? _].
Qed.

Lemma listener_keyed (p : Props) (w tid : nat) (key : string) (s : State) :
  Forall (keyed_socket p) (sockets s) →
  listener_of w s = Some (tid, key) → credential p = Some key.
Proof.
  unfold listener_of. intros Hall Hl.
  destruct (sockets s !! w) as [k|] eqn:Hk; [|done].
  eapply (Forall_lookup_1 _ _ _ _ Hall Hk), Hl.
Qed.

Lemma challenge_step (p : Props) (w tid : nat) (key c i : string) (s : State) :
  readyState_of w s = Some OPEN → listener_of w s = Some (tid, key) →
  step p (ws_message w (challenge c i)) s
  = set_wire (wire s ++ [(w, authenticate_frame
                               (challenge_response i (sha256 (c ++ ":" ++ key)) key))]) s.
Proof.
  intros Hr Hl. simpl. rewrite Hr. unfold dispatch_message. rewrite Hl. simpl.
  unfold ws_send. by rewrite Hr.
Qed.

(** C4. In every state the client reaches, a listener of a handshake holds
    the configured credential [key], and a challenge [(c, i)] received on its
    open socket is answered by exactly one frame: a [challenge_response]
    with identifier [i], the key, and as signature the base64 encoding of the
    SHA-256 digest of [c ++ ":" ++ key]. *)
Theorem challenge_response_signature (p : Props) (events : list event)
    (window ctorThrows itemThrows : bool) (cached : stored) (t : Z)
    (w tid : nat) (key c i : string) :
  let s := run p events (initial window ctorThrows itemThrows cached t) in
  readyState_of w s = Some OPEN → listener_of w s = Some (tid, key) →
  apiKey p = Some key
  ∧ sent_since s (step p (ws_message w (challenge c i)) s)
    = [(w, authenticate_frame
             (challenge_response i
                (Base64.btoa
                   (Sha256.digest (String.list_byte_of_string (c ++ ":" ++ key))))
                key))].
Proof.
  intros s Hr Hl. split.
  - eapply credential_Some, listener_keyed; [|exact Hl].
    subst s. apply run_keyed_sockets. simpl. constructor.
  - apply sent_since_app. by rewrite (challenge_step p w tid key c i s Hr Hl).
Qed.

Example challenge_response_abc :
  sha256 "abc:your-secret-api-key-1"
  = "6zC6HRz1+eIzuUqO9iS1lTQYQmTkZdJWyV42up4w5FE="%string.
Proof. vm_compute. reflexivity. Qed.

(** The scenario of the handshake: the server asks for authentication, then
    sends the challenge ["abc"] with identifier ["1"]. *)
Lemma challenge_response_signature_scenario :
  let s := run Sample.keyed [mounted; ws_open 0%nat; ws_message 0 auth_required]
               Sample.fresh in
  apiKey Sample.keyed = Some "your-secret-api-key-1"%string
  ∧ sent_since s (step Sample.keyed (ws_message 0 (challenge "abc" "1")) s)
    = [(0%nat, authenticate_frame
             (challenge_response "1"
                (Base64.btoa
                   (Sha256.digest
                      (String.list_byte_of_string "abc:your-secret-api-key-1")))
                "your-secret-api-key-1"))].
Proof.
  apply (challenge_response_signature Sample.keyed
           [mounted; ws_open 0%nat; ws_message 0 auth_required]
           true false false no_item 0 0%nat 1%nat
           "your-secret-api-key-1" "abc" "1"); reflexivity.
Defined.

(** ** Authentication without a credential *)

Section Keyless.

Variable p : Props.
Hypothesis no_key : credential p = None.

Lemma keyless_no_listeners (e : event) (s : State) :
  no_listeners s → no_listeners (step p e s).
Proof.
  apply step_sockets_Forall; try done.
  intros k tid key Hkey. rewrite no_key in Hkey. done.
Qed.

Lemma no_listener_dispatch (w : nat) (m : inbound) (s : State) :
  no_listeners s → dispatch_message w m s = onmessage m s.
Proof.
  intros Hall. unfold dispatch_message, listener_of.
  destruct (sockets s !! w) as [k|] eqn:Hk; [|done]. simpl.
  by rewrite (Forall_lookup_1 _ _ _ _ Hall Hk).
Qed.

Lemma keyless_no_authenticate_frames (e : event) (s : State) :
  no_listeners s → no_authenticate_frames s → no_authenticate_frames (step p e s).
Proof.
  unfold no_authenticate_frames. intros Hl Hw.
  destruct e as [| | | | |w m| | | | |];
    try by (by_cases; try (apply Forall_app_2; [done|by constructor])).
  simpl. destruct (readyState_of w s) as [[]|]; try done.
  rewrite (no_listener_dispatch w m s Hl).
  by destruct m; by_cases.
Qed.

Lemma keyless_run (events : list event) (s : State) :
  no_listeners s → no_authenticate_frames s →
  no_listeners (run p events s) ∧ no_authenticate_frames (run p events s).
Proof.
  revert s. induction events as [|e events IH]; intros s Hl Hw; simpl; [done|].
  apply IH; auto using keyless_no_listeners, keyless_no_authenticate_frames.
Qed.

Lemma keyless_authenticate (w : nat) (k : socket) (s : State) :
  sockets s !! w = Some k →
  authPromise_of w (authenticate p w s) = Some (resolved true)
  ∧ isAuthenticated (authenticate p w s) = true
  ∧ wire (authenticate p w s) = wire s
  ∧ timers (authenticate p w s) = timers s.
Proof.
  intros Hk. unfold authenticate. rewrite no_key.
  unfold authPromise_of. simpl.
  by rewrite list_lookup_alter_eq, Hk.
Qed.

End Keyless.

Lemma credential_None (p : Props) :
  credential p = None ↔ apiKey p = None ∨ apiKey p = Some ""%string.
Proof.
  unfold credential. destruct (apiKey p) as [k|].
  - case_bool_decide as Hk.
    + subst. split; auto.
    + split; [done|]. intros [?|[= ->]]; done.
  - split; auto.
Qed.

(** C5. Without a credential ([apiKey] undefined or empty), [authenticate]
    resolves to success at once, sets the authenticated flag, sends nothing
    and sets no timer; the opening of a transport leaves the client
    authenticated; and no run of the client ever sends an [authenticate]
    frame. *)
Theorem keyless_authentication_is_immediate (p : Props) :
  apiKey p = None ∨ apiKey p = Some ""%string →
  (∀ w k s, sockets s !! w = Some k →
     authPromise_of w (authenticate p w s) = Some (resolved true)
     ∧ isAuthenticated (authenticate p w s) = true
     ∧ wire (authenticate p w s) = wire s
     ∧ timers (authenticate p w s) = timers s)
  ∧ (∀ w s, readyState_of w s = Some CONNECTING →
       isAuthenticated (step p (ws_open w) s) = true
       ∧ authPromise_of w (step p (ws_open w) s) = Some (resolved true))
  ∧ (∀ events window ctorThrows itemThrows cached t entry,
       entry ∈ wire (run p events (initial window ctorThrows itemThrows cached t)) →
       is_authenticate_frame entry.2 = false).
Proof.
  intros Hkey%credential_None. split_and!.
  - intros w k s. by apply keyless_authenticate.
  - intros w s Hr. simpl. rewrite Hr.
    unfold readyState_of in Hr.
    destruct (sockets s !! w) as [k|] eqn:Hk; [|done].
    unfold onopen, authenticate, authPromise_of. rewrite Hkey. simpl.
    rewrite !list_lookup_alter_eq, Hk. simpl.
    unfold onopen_continue, ws_send, authPromise_of.
    repeat case_match; simpl; by rewrite ?list_lookup_alter_eq, ?Hk.
  - intros events window ctorThrows itemThrows cached t entry Hin.
    destruct (keyless_run p Hkey events
                (initial window ctorThrows itemThrows cached t)) as [_ Hw];
      [constructor|constructor|].
    unfold no_authenticate_frames in Hw.
    by apply (proj1 (Forall_forall _ _) Hw).
Qed.

(** ** Listeners and pending handshakes *)

Ltac socket_facts :=
  unfold readyState_of, authPromise_of, listener_of in *; simpl in *;
  repeat match goal with
    | H : context [alter _ ?w _ !! ?w] |- _ => rewrite list_lookup_alter_eq in H
    | H : context [(_ ++ [_]) !! _] |- _ => apply lookup_app_Some in H as [H|[_ H]]
    | H : [_] !! _ = Some _ |- _ => apply list_lookup_singleton_Some in H as [_ <-]
    end.

Lemma step_listening (p : Props) (e : event) (s : State) :
  Forall listening_socket (sockets s) → Forall listening_socket (sockets (step p e s)).
Proof.
  intros Hs. rewrite Forall_lookup in *.
  destruct e; by_cases; intros i x Hx; socket_facts.
  all: try (by eapply Hs).
  all: try (by unfold listening_socket).
  all: repeat match goal with
    | H : alter _ ?w _ !! ?i = Some _ |- _ =>
        destruct (decide (w = i)) as [<-|?];
        [rewrite ?list_lookup_alter_eq in *|rewrite !list_lookup_alter_ne in H by done]
    end.
  all: try (by eapply Hs).
  all: match goal with
    | H : context [sockets ?s0 !! ?w] |- _ =>
        destruct (sockets s0 !! w) as [[rs ls qs]|] eqn:Hk; simpl in *; try done;
        pose proof (Hs w _ Hk) as [Hc Ho]
    end; simpl in *.
  all: simplify_eq; unfold listening_socket, closing; simpl.
  all: try (split; intros; simplify_eq; auto; done).
  all: try (destruct rs; simpl; split; intros; simplify_eq; auto; done).
  all: split; intros; [done|]; specialize (Hc eq_refl); by simplify_eq.
Qed.

Lemma run_listening (p : Props) (events : list event) (s : State) :
  Forall listening_socket (sockets s) →
  Forall listening_socket (sockets (run p events s)).
Proof.
  revert s. induction events as [|e events IH]; intros s Hs; simpl; [done|].
  apply IH, step_listening, Hs.
Qed.

(** In a state the client reaches, an open socket with a listener has its
    handshake pending. *)
Lemma listener_promise_pending (p : Props) (history : list event)
    (window ctorThrows itemThrows : bool) (cached : stored) (t : Z)
    (w tid : nat) (key : string) :
  let s := run p history (initial window ctorThrows itemThrows cached t) in
  readyState_of w s = Some OPEN → listener_of w s = Some (tid, key) →
  authPromise_of w s = Some pending.
Proof.
  intros s Hr Hl.
  assert (Forall listening_socket (sockets s)) as Hall
    by (apply run_listening; constructor).
  unfold readyState_of, listener_of, authPromise_of in *.
  destruct (sockets s !! w) as [k|] eqn:Hk; [|done]. simpl in *.
  destruct (Forall_lookup_1 _ _ _ _ Hall Hk) as [_ Ho].
  rewrite Ho; [done|congruence|congruence].
Qed.

(** ** Fidelity of the resync *)

Lemma subscribe_registry (symbols : list string) (s : State) :
  subscribedSymbolsRef (subscribe symbols s)
  = registry (subscribedSymbolsRef s) (call_subscribe symbols).
Proof.
  unfold subscribe, registry.
  case_bool_decide as H0; [by apply length_zero_nil in H0 as ->|].
  case_bool_decide as Hn; [by apply length_zero_nil in Hn as ->|].
  destruct (ready_to_send _); unfold ws_send; by repeat case_match.
Qed.

Lemma unsubscribe_registry (symbols : list string) (s : State) :
  subscribedSymbolsRef (unsubscribe symbols s)
  = registry (subscribedSymbolsRef s) (call_unsubscribe symbols).
Proof.
  unfold unsubscribe, registry.
  case_bool_decide as H0; [by apply length_zero_nil in H0 as ->|].
  case_bool_decide as Hn; [by apply length_zero_nil in Hn as ->|].
  destruct (ready_to_send _); unfold ws_send; by repeat case_match.
Qed.

Lemma step_registry (p : Props) (e : event) (s : State) :
  subscribedSymbolsRef (step p e s) = registry (subscribedSymbolsRef s) e.
Proof.
  destruct e;
    [ | apply subscribe_registry | apply unsubscribe_registry | .. ];
    by by_cases.
Qed.

Lemma run_registry (p : Props) (events : list event) (s : State) :
  subscribedSymbolsRef (run p events s)
  = foldl registry (subscribedSymbolsRef s) events.
Proof.
  revert s. induction events as [|e events IH]; intros s; simpl; [done|].
  by rewrite IH, step_registry.
Qed.

Lemma registry_NoDup (set : list string) (e : event) :
  NoDup set → NoDup (registry set e).
Proof.
  destruct e; simpl; auto using JsSetFacts.NoDup_add_all, JsSetFacts.NoDup_delete_all.
Qed.

Lemma resync_open_wire (w : nat) (s s' : State) :
  readyState_of w s' = Some OPEN →
  subscribedSymbolsRef s' = subscribedSymbolsRef s → wire s' = wire s →
  sent_since s (onopen_continue w true s') = resync w s.
Proof.
  intros Hr Hset Hwire. apply sent_since_app.
  rewrite onopen_continue_wire, Hr, Hwire. unfold resync. by rewrite Hset.
Qed.

Lemma keyless_open_step (p : Props) (w : nat) (s : State) :
  credential p = None → readyState_of w s = Some CONNECTING →
  step p (ws_open w) s
  = s |> update_socket w (with_readyState OPEN)
      |> setIsConnected true |> setError None |> set_connectionInProgressRef false
      |> setIsAuthenticated true
      |> update_socket w (with_authPromise (resolved true))
      |> onopen_continue w true.
Proof.
  intros Hkey Hr. simpl. rewrite Hr.
  unfold readyState_of in Hr.
  destruct (sockets s !! w) as [k|] eqn:Hk; [|done].
  unfold onopen, authenticate, authPromise_of. rewrite Hkey. simpl.
  by rewrite !list_lookup_alter_eq, Hk.
Qed.

Lemma authenticated_step (p : Props) (w tid : nat) (key token : string) (s : State) :
  readyState_of w s = Some OPEN → listener_of w s = Some (tid, key) →
  authPromise_of w s = Some pending →
  step p (ws_message w (authenticated token)) s
  = s |> clearTimeout tid
      |> update_socket w (with_listener None)
      |> setIsAuthenticated true |> setSessionToken (Some token) |> setError None
      |> set_authenticationInProgressRef false
      |> update_socket w (with_authPromise (resolved true))
      |> onopen_continue w true.
Proof.
  intros Hr Hl Hp. simpl. rewrite Hr.
  unfold dispatch_message. rewrite Hl. simpl.
  unfold resolve, authPromise_of in *. simpl.
  destruct (sockets s !! w) as [k|] eqn:Hk; [|done].
  rewrite list_lookup_alter_eq, Hk. simpl in *.
  by injection Hp as ->.
Qed.

(** C2. In every state the client reaches, the subscription set is the one
    the [subscribe] and [unsubscribe] calls of the history make, whatever
    else happened in between, a transport close in particular leaves it as it
    is, and it has no duplicates.  A successful authentication, without
    credential at the opening of the transport or with one at the
    [authenticated] verdict, sends exactly the resync of the set of that
    moment: one subscribe frame listing the set, none for the empty set. *)
Theorem resync_sends_current_set (p : Props) (history : list event)
    (window ctorThrows itemThrows : bool) (cached : stored) (t : Z) :
  let s := run p history (initial window ctorThrows itemThrows cached t) in
  (∀ w code,
     subscribedSymbolsRef (step p (ws_closed w code) s) = subscribedSymbolsRef s)
  ∧ subscribedSymbolsRef s = foldl registry [] history
  ∧ NoDup (subscribedSymbolsRef s)
  ∧ (∀ w, credential p = None → readyState_of w s = Some CONNECTING →
       let s' := step p (ws_open w) s in
       isAuthenticated s' = true
       ∧ sent_since s s' = resync w s
       ∧ subscribedSymbolsRef s' = subscribedSymbolsRef s)
  ∧ (∀ w tid key token,
       readyState_of w s = Some OPEN → listener_of w s = Some (tid, key) →
       let s' := step p (ws_message w (authenticated token)) s in
       isAuthenticated s' = true
       ∧ sent_since s s' = resync w s
       ∧ subscribedSymbolsRef s' = subscribedSymbolsRef s).
Proof.
  intros s. split_and!.
  - intros w code. by rewrite step_registry.
  - subst s. by rewrite run_registry.
  - subst s. rewrite run_registry. simpl.
    generalize (NoDup_nil_2 (A:=string)). generalize (@nil string).
    induction history as [|e history IH]; intros set Hset; simpl; [done|].
    by apply IH, registry_NoDup.
  - intros w Hkey Hr s'. subst s'.
    split_and!; [| |by rewrite step_registry].
    + rewrite keyless_open_step by done.
      unfold onopen_continue, ws_send. by repeat case_match.
    + rewrite keyless_open_step by done.
      apply resync_open_wire; [|done..].
      unfold readyState_of in *. simpl.
      rewrite !list_lookup_alter_eq.
      by destruct (sockets s !! w).
  - intros w tid key token Hr Hl s'. subst s'.
    assert (authPromise_of w s = Some pending) as Hp
      by (by eapply listener_promise_pending).
    split_and!; [| |by rewrite step_registry].
    + rewrite (authenticated_step p w tid key token s) by done.
      unfold onopen_continue, ws_send. by repeat case_match.
    + rewrite (authenticated_step p w tid key token s) by done.
      apply resync_open_wire; [|done..].
      unfold readyState_of in *. simpl.
      rewrite !list_lookup_alter_eq.
      by destruct (sockets s !! w).
Qed.

(** ** The handshake in flight *)

Section Handshake.

Variables (p : Props) (w tid : nat) (d : Z).

Local Abbreviation InFlight := (handshake_pending w tid d).

(** [InFlight] reads the timers, the timer counter, the sockets and the reconnect
    cell only. *)
Lemma inflight_ext (s s' : State) :
  timers s' = timers s → nextTimer s' = nextTimer s →
  sockets s' = sockets s → reconnectTimeoutRef s' = reconnectTimeoutRef s →
  InFlight s → InFlight s'.
Proof.
  intros Ht Hn Hs Hr [H1 H2 H3 H4 H5 H6].
  constructor; rewrite ?Ht, ?Hn, ?Hs, ?Hr; done.
Qed.

Lemma inflight_update (w' : nat) (f : socket → socket) (s : State) :
  (w' = w → ∀ k, authPromise (f k) = authPromise k ∧ listener (f k) = listener k
                 ∧ (readyState k ≠ CONNECTING → readyState (f k) ≠ CONNECTING)) →
  (w' ≠ w → ∀ k t key, listener (f k) = Some (t, key) →
                       t ≠ tid ∨ listener k = Some (t, key)) →
  InFlight s → InFlight (update_socket w' f s).
Proof.
  intros Hself Hother [H1 H2 H3 H4 H5 H6].
  constructor; simpl; try done.
  - destruct H4 as (k & key & Hk & Hp & Hl & Hr).
    destruct (decide (w' = w)) as [->|Hne].
    + destruct (Hself eq_refl k) as (Hp' & Hl' & Hr').
      exists (f k), key. rewrite list_lookup_alter_eq, Hk. simpl.
      split_and!; [done|congruence|congruence|auto].
    + exists k, key. by rewrite list_lookup_alter_ne.
  - intros w'' k t key Hne Hk Hl.
    destruct (decide (w' = w'')) as [->|Hne'].
    + rewrite list_lookup_alter_eq in Hk.
      destruct (sockets s !! w'') as [k0|] eqn:Hk0; [|done].
      injection Hk as <-.
      destruct (Hother Hne k0 t key Hl) as [?|Hl0]; [done|].
      by eapply H5.
    + rewrite list_lookup_alter_ne in Hk by done. by eapply H5.
Qed.

Lemma inflight_setTimeout (a : timer_action) (delay : Z) (s : State) :
  a ≠ authTimeout w → InFlight s → InFlight (setTimeout a delay s).
Proof.
  intros Ha [H1 H2 H3 H4 H5 H6].
  constructor; simpl; try done.
  - rewrite filter_app, H1. simpl.
    rewrite filter_cons_False, filter_nil by (simpl; lia). done.
  - intros t [Ht| ->%list_elem_of_singleton]%elem_of_app; [by apply H2|done].
  - lia.
Qed.

Lemma inflight_clearTimeout (id : nat) (s : State) :
  id ≠ tid → InFlight s → InFlight (clearTimeout id s).
Proof.
  intros Hid [H1 H2 H3 H4 H5 H6].
  constructor; simpl; try done.
  - rewrite <- H1. rewrite list_filter_filter.
    apply list_filter_iff. intros t. split; [tauto|]. intros ->. done.
  - intros t [_ Ht]%list_elem_of_filter. by apply H2.
Qed.

Lemma inflight_reconnectRef (r : option nat) (s : State) :
  r ≠ Some tid → InFlight s → InFlight (set_reconnectTimeoutRef r s).
Proof. intros Hr [H1 H2 H3 H4 H5 H6]. by constructor. Qed.

Lemma inflight_push (k : socket) (s : State) :
  listener k = None → InFlight s → InFlight (set_sockets (sockets s ++ [k]) s).
Proof.
  intros Hk [H1 H2 H3 H4 H5 H6].
  constructor; simpl; try done.
  - destruct H4 as (k0 & key & Hk0 & ?). exists k0, key.
    split; [|done]. by apply lookup_app_l_Some.
  - intros w' k' t key Hne Hk' Hl.
    apply lookup_app_Some in Hk' as [Hk'|[_ Hk']]; [by eapply H5|].
    apply list_lookup_singleton_Some in Hk' as [_ <-]. congruence.
Qed.

(** The field updates that [InFlight] does not read. *)
Ltac inflight_frame :=
  match goal with
  | |- handshake_pending _ _ _ (_ ?s) =>
      apply (inflight_ext s); [reflexivity|reflexivity|reflexivity|reflexivity|]
  end.

Lemma inflight_ws_send (w' : nat) (f : frame) (s : State) : InFlight s → InFlight (ws_send w' f s).
Proof. intros H. unfold ws_send. repeat case_match; try done. by inflight_frame. Qed.

Lemma inflight_ws_close (w' : nat) (s : State) : InFlight s → InFlight (ws_close w' s).
Proof.
  apply inflight_update.
  - intros _ k. unfold closing. by destruct k as [[] ? ?].
  - intros _ k t key Hl. right. unfold closing in Hl. by destruct k as [[] ? ?].
Qed.

Lemma inflight_onopen_continue (w' : nat) (b : bool) (s : State) :
  InFlight s → InFlight (onopen_continue w' b s).
Proof.
  intros H. unfold onopen_continue.
  repeat case_match; auto using inflight_ws_send, inflight_ws_close.
Qed.

Lemma inflight_resolve (w' : nat) (b : bool) (s : State) :
  w' ≠ w → InFlight s → InFlight (resolve w' b s).
Proof.
  intros Hne H. unfold resolve. repeat case_match; try done.
  apply inflight_onopen_continue, inflight_update; [done| |done].
  intros _ k t key Hl. by right.
Qed.

Lemma inflight_connect (s : State) : InFlight s → InFlight (connect p s).
Proof.
  intros H. unfold connect. repeat case_match; try done.
  - do 2 inflight_frame. by apply inflight_ws_close; inflight_frame.
  - do 2 inflight_frame. by inflight_frame.
  - inflight_frame. apply inflight_push; [done|]. by apply inflight_ws_close; inflight_frame.
  - inflight_frame. apply inflight_push; [done|]. by inflight_frame.
Qed.

Lemma inflight_mount (s : State) : InFlight s → InFlight (mount p s).
Proof.
  intros H. unfold mount. apply inflight_connect.
  unfold cachePrices. repeat case_match; try done. by inflight_frame.
Qed.

Lemma inflight_cleanup (s : State) : InFlight s → InFlight (cleanup s).
Proof.
  intros H. pose proof (hp_reconnect _ _ _ _ H) as Hr.
  unfold cleanup. destruct (reconnectTimeoutRef s) as [r|] eqn:Hr'.
  - assert (InFlight (clearTimeout r s)) by (apply inflight_clearTimeout; congruence).
    simpl. destruct (wsRef s); [by apply inflight_ws_close|done].
  - destruct (wsRef s); [by apply inflight_ws_close|done].
Qed.

Lemma inflight_onclose (code : Z) (s : State) : InFlight s → InFlight (onclose p code s).
Proof.
  intros H. pose proof (hp_fresh _ _ _ _ H) as Hf.
  unfold onclose. case_match.
  - apply inflight_reconnectRef; [simpl; intros [= ?]; lia|].
    apply inflight_setTimeout; [done|]. by do 6 inflight_frame.
  - by do 6 inflight_frame.
Qed.

Lemma inflight_onmessage (m : inbound) (s : State) : InFlight s → InFlight (onmessage m s).
Proof.
  intros H. unfold onmessage, cachePrices.
  repeat case_match; try done; by repeat inflight_frame.
Qed.

Lemma inflight_subscribe (symbols : list string) (s : State) : InFlight s → InFlight (subscribe symbols s).
Proof.
  intros H. unfold subscribe. repeat case_match; try done;
    try apply inflight_ws_send; by inflight_frame.
Qed.

Lemma inflight_unsubscribe (symbols : list string) (s : State) :
  InFlight s → InFlight (unsubscribe symbols s).
Proof.
  intros H. unfold unsubscribe. repeat case_match; try done;
    try apply inflight_ws_send; by inflight_frame.
Qed.

Lemma inflight_authenticate (w' : nat) (s : State) :
  w' ≠ w → InFlight s → InFlight (authenticate p w' s).
Proof.
  intros Hne H. pose proof (hp_fresh _ _ _ _ H) as Hf.
  unfold authenticate. repeat case_match;
    try (apply inflight_update; [done|by right|]; try inflight_frame; done).
  apply inflight_update; [done| |].
  { intros _ k t key' [= <- _]. left. lia. }
  apply inflight_setTimeout; [congruence|].
  apply inflight_update; [done|by right|]. by inflight_frame.
Qed.

Lemma inflight_onopen (w' : nat) (s : State) : w' ≠ w → InFlight s → InFlight (onopen p w' s).
Proof.
  intros Hne H. unfold onopen.
  assert (InFlight (authenticate p w'
               (set_connectionInProgressRef false
                  (setError None (setIsConnected true s))))) as Ha.
  { apply inflight_authenticate; [done|]. by do 3 inflight_frame. }
  repeat case_match; auto using inflight_onopen_continue.
Qed.

Lemma inflight_messageHandler (w' t' : nat) (key : string) (m : inbound) (s : State) :
  ends_handshake w tid (ws_message w' m) = false →
  (w' ≠ w → t' ≠ tid) →
  InFlight s → InFlight (messageHandler w' t' key m s).
Proof.
  intros Hend Ht H. unfold messageHandler.
  destruct m; simpl in Hend; try done; try by apply inflight_ws_send.
  all: apply bool_decide_eq_false in Hend.
  all: apply inflight_resolve; [done|]; repeat inflight_frame.
  all: apply inflight_update; [done|by intros _ k t key'|].
  all: by apply inflight_clearTimeout; auto.
Qed.

Lemma listener_of_Some (w' t' : nat) (key : string) (s : State) :
  listener_of w' s = Some (t', key) →
  ∃ k, sockets s !! w' = Some k ∧ listener k = Some (t', key).
Proof.
  unfold listener_of. destruct (sockets s !! w') as [k|]; [|done]. eauto.
Qed.

Lemma inflight_dispatch_message (w' : nat) (m : inbound) (s : State) :
  ends_handshake w tid (ws_message w' m) = false →
  InFlight s → InFlight (dispatch_message w' m s).
Proof.
  intros Hend H. unfold dispatch_message.
  destruct (listener_of w' s) as [[t' key]|] eqn:Hl; [|by apply inflight_onmessage].
  apply inflight_messageHandler; [done| |by apply inflight_onmessage].
  intros Hne. apply listener_of_Some in Hl as (k & Hk & Hl).
  by eapply (hp_others _ _ _ _ H).
Qed.

Lemma find_timer_Some (id : nat) (t : timer) (s : State) :
  find_timer id s = Some t → t ∈ timers s ∧ timer_id t = id.
Proof.
  unfold find_timer. intros Hh%head_Some_elem_of.
  apply list_elem_of_filter in Hh. tauto.
Qed.

Lemma inflight_onAuthTimeout (w' : nat) (s : State) : w' ≠ w → InFlight s → InFlight (onAuthTimeout w' s).
Proof.
  intros Hne H. unfold onAuthTimeout.
  apply inflight_resolve; [done|]. by do 2 inflight_frame.
Qed.

Lemma readyState_of_Some (w' : nat) (r : ReadyState) (s : State) :
  readyState_of w' s = Some r →
  ∃ k, sockets s !! w' = Some k ∧ readyState k = r.
Proof.
  unfold readyState_of. destruct (sockets s !! w') as [k|]; [|done].
  intros [= <-]. eauto.
Qed.

(** An event that does not end the handshake leaves it in flight. *)
Lemma inflight_step (e : event) (s : State) :
  ends_handshake w tid e = false → InFlight s → InFlight (step p e s).
Proof.
  intros Hend H. destruct e as [| | | |w'|w' m|w'|w' code|id|t|]; simpl.
  - by apply inflight_connect.
  - by apply inflight_subscribe.
  - by apply inflight_unsubscribe.
  - by apply inflight_cleanup.
  - destruct (readyState_of w' s) as [[]|] eqn:Hr; try done.
    assert (w' ≠ w) as Hne.
    { intros ->. apply readyState_of_Some in Hr as (k & Hk & Hr).
      destruct (hp_socket _ _ _ _ H) as (k' & key & Hk' & _ & _ & Hr').
      congruence. }
    apply inflight_onopen; [done|]. apply inflight_update; [done|by right|done].
  - destruct (readyState_of w' s) as [[]|]; try done.
    by apply inflight_dispatch_message.
  - destruct (readyState_of w' s); [|done]. unfold onerror. by do 2 inflight_frame.
  - assert (InFlight (update_socket w' (with_readyState CLOSED) s)) as Hc.
    { apply inflight_update; [by intros _ k|by right|done]. }
    destruct (readyState_of w' s) as [[]|]; try done; by apply inflight_onclose.
  - simpl in Hend. apply bool_decide_eq_false in Hend.
    destruct (find_timer id s) as [t|] eqn:Hfind; [|done].
    apply find_timer_Some in Hfind as [Hin Hid].
    destruct (due t <=? now s); [|done].
    assert (InFlight (clearTimeout id s)) as Hc by by apply inflight_clearTimeout.
    destruct (action t) as [w''|] eqn:Ha; simpl.
    + apply inflight_onAuthTimeout; [|done]. intros ->.
      apply Hend. rewrite <- Hid. by apply (hp_only _ _ _ _ H).
    + by apply inflight_connect.
  - by inflight_frame.
  - by apply inflight_mount.
Qed.

Lemma inflight_run (events : list event) (s : State) :
  Forall (λ e, ends_handshake w tid e = false) events →
  InFlight s → InFlight (run p events s).
Proof.
  revert s. induction events as [|e events IH]; intros s Hall H; simpl; [done|].
  apply Forall_cons in Hall as [He Hall].
  by apply IH, inflight_step.
Qed.

End Handshake.

(** ** Timer identifiers *)

Section TimersFresh.

Variable p : Props.

Local Abbreviation Fresh := timers_fresh.

Lemma fresh_ext (s s' : State) :
  timers s' = timers s → nextTimer s' = nextTimer s →
  sockets s' = sockets s → reconnectTimeoutRef s' = reconnectTimeoutRef s →
  Fresh s → Fresh s'.
Proof.
  intros Ht Hn Hs Hr [H1 H2 H3 H4].
  constructor; rewrite ?Ht, ?Hn, ?Hs, ?Hr; done.
Qed.

Ltac fresh_frame :=
  match goal with
  | |- timers_fresh (_ ?s) =>
      apply (fresh_ext s); [reflexivity|reflexivity|reflexivity|reflexivity|]
  end.

Lemma fresh_update (w' : nat) (f : socket → socket) (s : State) :
  (∀ k, readyState k ≠ CONNECTING → readyState (f k) ≠ CONNECTING) →
  (∀ k t key, listener (f k) = Some (t, key) →
              (t < nextTimer s)%nat ∨ listener k = Some (t, key)) →
  Fresh s → Fresh (update_socket w' f s).
Proof.
  intros Hready Hlisten [H1 H2 H3 H4].
  constructor; simpl; try done.
  - intros t w0 Hin Ha. destruct (H2 t w0 Hin Ha) as (k & Hk & Hr).
    destruct (decide (w' = w0)) as [->|Hne].
    + exists (f k). rewrite list_lookup_alter_eq, Hk. auto.
    + exists k. by rewrite list_lookup_alter_ne.
  - intros w0 k t key Hk Hl.
    destruct (decide (w' = w0)) as [->|Hne].
    + rewrite list_lookup_alter_eq in Hk.
      destruct (sockets s !! w0) as [k0|] eqn:Hk0; [|done].
      injection Hk as <-.
      destruct (Hlisten k0 t key Hl) as [?|Hl0]; [done|]. by eapply H3.
    + rewrite list_lookup_alter_ne in Hk by done. by eapply H3.
Qed.

Lemma fresh_setTimeout (a : timer_action) (delay : Z) (s : State) :
  (∀ w0, a = authTimeout w0 →
         ∃ k, sockets s !! w0 = Some k ∧ readyState k ≠ CONNECTING) →
  Fresh s → Fresh (setTimeout a delay s).
Proof.
  intros Ha [H1 H2 H3 H4].
  constructor; simpl.
  - intros t [Ht| ->%list_elem_of_singleton]%elem_of_app; simpl; [|lia].
    specialize (H1 t Ht). lia.
  - intros t w0 [Ht| ->%list_elem_of_singleton]%elem_of_app; simpl; eauto.
  - intros w0 k t key Hk Hl. specialize (H3 w0 k t key Hk Hl). lia.
  - intros r Hr. specialize (H4 r Hr). lia.
Qed.

Lemma fresh_clearTimeout (id : nat) (s : State) : Fresh s → Fresh (clearTimeout id s).
Proof.
  intros [H1 H2 H3 H4].
  constructor; simpl; try done.
  - intros t [_ Ht]%list_elem_of_filter. by apply H1.
  - intros t w0 [_ Ht]%list_elem_of_filter. by apply H2.
Qed.

Lemma fresh_reconnectRef (r : option nat) (s : State) :
  (∀ r0, r = Some r0 → (r0 < nextTimer s)%nat) →
  Fresh s → Fresh (set_reconnectTimeoutRef r s).
Proof. intros Hr [H1 H2 H3 H4]. by constructor. Qed.

Lemma fresh_push (k : socket) (s : State) :
  listener k = None → Fresh s → Fresh (set_sockets (sockets s ++ [k]) s).
Proof.
  intros Hk [H1 H2 H3 H4].
  constructor; simpl; try done.
  - intros t w0 Hin Ha. destruct (H2 t w0 Hin Ha) as (k0 & Hk0 & Hr).
    exists k0. split; [|done]. by apply lookup_app_l_Some.
  - intros w0 k' t key Hk' Hl.
    apply lookup_app_Some in Hk' as [Hk'|[_ Hk']]; [by eapply H3|].
    apply list_lookup_singleton_Some in Hk' as [_ <-]. congruence.
Qed.

Lemma fresh_ws_send (w' : nat) (f : frame) (s : State) : Fresh s → Fresh (ws_send w' f s).
Proof. intros H. unfold ws_send. repeat case_match; try done. by fresh_frame. Qed.

Lemma fresh_ws_close (w' : nat) (s : State) : Fresh s → Fresh (ws_close w' s).
Proof.
  apply fresh_update.
  - intros k. unfold closing. by destruct k as [[] ? ?].
  - intros k t key Hl. right. unfold closing in Hl. by destruct k as [[] ? ?].
Qed.

Lemma fresh_onopen_continue (w' : nat) (b : bool) (s : State) :
  Fresh s → Fresh (onopen_continue w' b s).
Proof.
  intros H. unfold onopen_continue.
  repeat case_match; auto using fresh_ws_send, fresh_ws_close.
Qed.

Lemma fresh_resolve (w' : nat) (b : bool) (s : State) : Fresh s → Fresh (resolve w' b s).
Proof.
  intros H. unfold resolve. repeat case_match; try done.
  apply fresh_onopen_continue, fresh_update; [done|by right|done].
Qed.

Lemma fresh_connect (s : State) : Fresh s → Fresh (connect p s).
Proof.
  intros H. unfold connect. repeat case_match; try done.
  - do 2 fresh_frame. by apply fresh_ws_close; fresh_frame.
  - do 2 fresh_frame. by fresh_frame.
  - fresh_frame. apply fresh_push; [done|]. by apply fresh_ws_close; fresh_frame.
  - fresh_frame. apply fresh_push; [done|]. by fresh_frame.
Qed.

Lemma fresh_mount (s : State) : Fresh s → Fresh (mount p s).
Proof.
  intros H. unfold mount. apply fresh_connect.
  unfold cachePrices. repeat case_match; try done. by fresh_frame.
Qed.

Lemma fresh_cleanup (s : State) : Fresh s → Fresh (cleanup s).
Proof.
  intros H. unfold cleanup.
  repeat case_match; auto using fresh_ws_close, fresh_clearTimeout.
Qed.

Lemma fresh_onclose (code : Z) (s : State) : Fresh s → Fresh (onclose p code s).
Proof.
  intros H. unfold onclose. case_match.
  - apply fresh_reconnectRef; [simpl; intros r0 [= <-]; lia|].
    apply fresh_setTimeout; [done|]. by do 6 fresh_frame.
  - by do 6 fresh_frame.
Qed.

Lemma fresh_onmessage (m : inbound) (s : State) : Fresh s → Fresh (onmessage m s).
Proof.
  intros H. unfold onmessage, cachePrices.
  repeat case_match; try done; by repeat fresh_frame.
Qed.

Lemma fresh_subscribe (symbols : list string) (s : State) : Fresh s → Fresh (subscribe symbols s).
Proof.
  intros H. unfold subscribe. repeat case_match; try done;
    try apply fresh_ws_send; by fresh_frame.
Qed.

Lemma fresh_unsubscribe (symbols : list string) (s : State) :
  Fresh s → Fresh (unsubscribe symbols s).
Proof.
  intros H. unfold unsubscribe. repeat case_match; try done;
    try apply fresh_ws_send; by fresh_frame.
Qed.

Lemma fresh_authenticate (w' : nat) (k : socket) (s : State) :
  sockets s !! w' = Some k → readyState k ≠ CONNECTING →
  Fresh s → Fresh (authenticate p w' s).
Proof.
  intros Hk Hr H.
  unfold authenticate. repeat case_match;
    try (apply fresh_update; [done|by right|]; try fresh_frame; done).
  apply fresh_update; [done| |].
  { intros k0 t key' [= <- _]. left. simpl. lia. }
  apply fresh_setTimeout.
  { intros w0 [= <-]. exists (with_authPromise pending k). simpl.
    by rewrite list_lookup_alter_eq, Hk. }
  apply fresh_update; [done|by right|]. by fresh_frame.
Qed.

Lemma fresh_messageHandler (w' t' : nat) (key : string) (m : inbound) (s : State) :
  Fresh s → Fresh (messageHandler w' t' key m s).
Proof.
  intros H. unfold messageHandler.
  destruct m; try done; try by apply fresh_ws_send.
  all: apply fresh_resolve; repeat fresh_frame.
  all: apply fresh_update; [done|by intros k t key'|].
  all: by apply fresh_clearTimeout.
Qed.

Lemma fresh_step (e : event) (s : State) : Fresh s → Fresh (step p e s).
Proof.
  intros H. destruct e as [| | | |w'|w' m|w'|w' code|id|t|]; simpl.
  - by apply fresh_connect.
  - by apply fresh_subscribe.
  - by apply fresh_unsubscribe.
  - by apply fresh_cleanup.
  - destruct (readyState_of w' s) as [[]|] eqn:Hr; try done.
    apply readyState_of_Some in Hr as (k & Hk & Hr).
    assert (Fresh (authenticate p w'
                 (set_connectionInProgressRef false
                    (setError None
                       (setIsConnected true
                          (update_socket w' (with_readyState OPEN) s)))))) as Ha.
    { apply (fresh_authenticate w' (with_readyState OPEN k)).
      - simpl. by rewrite list_lookup_alter_eq, Hk.
      - done.
      - do 3 fresh_frame. apply fresh_update; [done|by right|done]. }
    unfold onopen. repeat case_match; auto using fresh_onopen_continue.
  - destruct (readyState_of w' s) as [[]|]; try done.
    unfold dispatch_message.
    repeat case_match; auto using fresh_messageHandler, fresh_onmessage.
  - destruct (readyState_of w' s); [|done]. unfold onerror. by do 2 fresh_frame.
  - assert (Fresh (update_socket w' (with_readyState CLOSED) s)) as Hc.
    { apply fresh_update; [by intros k|by right|done]. }
    destruct (readyState_of w' s) as [[]|]; try done; by apply fresh_onclose.
  - destruct (find_timer id s) as [t|] eqn:Hfind; [|done].
    destruct (due t <=? now s); [|done].
    assert (Fresh (clearTimeout id s)) as Hc by by apply fresh_clearTimeout.
    destruct (action t) as [w''|] eqn:Ha; simpl.
    + unfold onAuthTimeout. apply fresh_resolve. by do 2 fresh_frame.
    + by apply fresh_connect.
  - by fresh_frame.
  - by apply fresh_mount.
Qed.

Lemma fresh_run (events : list event) (s : State) : Fresh s → Fresh (run p events s).
Proof.
  revert s. induction events as [|e events IH]; intros s H; simpl; [done|].
  by apply IH, fresh_step.
Qed.

Lemma fresh_initial (window ctorThrows itemThrows : bool) (cached : stored) (t : Z) :
  Fresh (initial window ctorThrows itemThrows cached t).
Proof.
  constructor; simpl; try done.
  - by intros t0 Hin%elem_of_nil.
  - by intros t0 w0 Hin%elem_of_nil.
Qed.

End TimersFresh.

(** ** The authentication timeout *)

Lemma keyed_open_step (p : Props) (w : nat) (key : string) (s : State) :
  credential p = Some key → readyState_of w s = Some CONNECTING →
  authenticationInProgressRef s = false →
  step p (ws_open w) s
  = s |> update_socket w (with_readyState OPEN)
      |> setIsConnected true |> setError None |> set_connectionInProgressRef false
      |> set_authenticationInProgressRef true
      |> update_socket w (with_authPromise pending)
      |> setTimeout (authTimeout w) AUTH_TIMEOUT_MS
      |> update_socket w (with_listener (Some (nextTimer s, key))).
Proof.
  intros Hkey Hr Hguard. simpl. rewrite Hr.
  apply readyState_of_Some in Hr as (k & Hk & Hr).
  unfold onopen, authenticate, authPromise_of. rewrite Hkey. simpl.
  rewrite Hguard. simpl.
  by rewrite !list_lookup_alter_eq, Hk.
Qed.

(** Opening a transport with a credential starts the handshake: its timer
    is due [AUTH_TIMEOUT_MS] after the opening. *)
Lemma handshake_starts (p : Props) (w : nat) (key : string) (s : State) :
  timers_fresh s →
  credential p = Some key → readyState_of w s = Some CONNECTING →
  authenticationInProgressRef s = false →
  handshake_pending w (nextTimer s) (now s + 10000) (step p (ws_open w) s).
Proof.
  intros [H1 H2 H3 H4] Hkey Hr Hguard.
  rewrite (keyed_open_step p w key s) by done.
  apply readyState_of_Some in Hr as (k & Hk & Hr).
  constructor; simpl.
  - rewrite filter_app, filter_cons_True, filter_nil by done.
    assert (filter (λ t, timer_id t = nextTimer s) (timers s) = []) as ->; [|done].
    apply elem_of_nil_inv. intros t [Hid Hin]%list_elem_of_filter.
    specialize (H1 t Hin). lia.
  - intros t [Hin| ->%list_elem_of_singleton]%elem_of_app Ha; [|done].
    destruct (H2 t w Hin Ha) as (k' & Hk' & Hr'). congruence.
  - lia.
  - exists (with_listener (Some (nextTimer s, key))
              (with_authPromise pending (with_readyState OPEN k))), key.
    rewrite !list_lookup_alter_eq, Hk. done.
  - intros w' k' t key' Hne Hk' Hl.
    rewrite !list_lookup_alter_ne in Hk' by done.
    specialize (H3 w' k' t key' Hk' Hl). lia.
  - intros Heq. specialize (H4 _ Heq). lia.
Qed.

Section Timeout.

Variables (p : Props) (w tid : nat) (d : Z) (s : State).
Hypothesis pending_s : handshake_pending w tid d s.

Lemma pending_find_timer : find_timer tid s = Some (Timer tid d (authTimeout w)).
Proof. unfold find_timer. by rewrite (hp_timer _ _ _ _ pending_s). Qed.

Lemma pending_promise : authPromise_of w s = Some pending.
Proof.
  destruct (hp_socket _ _ _ _ pending_s) as (k & key & Hk & Hp & _).
  unfold authPromise_of. by rewrite Hk, <- Hp.
Qed.

Lemma pending_not_early : now s < d → step p (timer_fires tid) s = s.
Proof.
  intros Hnow. simpl. rewrite pending_find_timer. simpl.
  by destruct (Z.leb_spec d (now s)); [lia|].
Qed.

Lemma timeout_step :
  d ≤ now s →
  step p (timer_fires tid) s
  = s |> clearTimeout tid
      |> setError (Some "Authentication timeout"%string)
      |> set_authenticationInProgressRef false
      |> update_socket w (with_authPromise (resolved false))
      |> ws_close w.
Proof.
  intros Hnow. simpl. rewrite pending_find_timer. simpl.
  destruct (Z.leb_spec d (now s)); [|lia].
  unfold onAuthTimeout, resolve.
  change (authPromise_of w _) with (authPromise_of w s).
  by rewrite pending_promise.
Qed.

Lemma timeout_fails :
  d ≤ now s →
  let s' := step p (timer_fires tid) s in
  authPromise_of w s' = Some (resolved false)
  ∧ authenticationInProgressRef s' = false
  ∧ error s' = Some "Authentication timeout"%string
  ∧ (readyState_of w s' = Some CLOSING ∨ readyState_of w s' = Some CLOSED)
  ∧ find_timer tid s' = None.
Proof.
  intros Hnow. cbv zeta. rewrite timeout_step by done.
  destruct (hp_socket _ _ _ _ pending_s) as (k & key & Hk & Hp & Hl & Hr).
  unfold authPromise_of, readyState_of, find_timer, ws_close. simpl.
  rewrite !list_lookup_alter_eq, Hk. simpl.
  split_and!; try done.
  - unfold closing. simpl. by destruct (readyState k).
  - unfold closing. destruct k as [[] ? ?]; simpl in *; auto.
  - apply head_None, elem_of_nil_inv.
    intros t [Hid [Hne _]%list_elem_of_filter]%list_elem_of_filter. done.
Qed.

(** A frame that fails to parse ends the handshake the same way, with its
    own error text. *)
Lemma malformed_fails :
  readyState_of w s = Some OPEN →
  let s' := step p (ws_message w malformed) s in
  authPromise_of w s' = Some (resolved false)
  ∧ authenticationInProgressRef s' = false
  ∧ error s' = Some "Authentication error"%string
  ∧ readyState_of w s' = Some CLOSING.
Proof.
  intros Hopen. cbv zeta.
  destruct (hp_socket _ _ _ _ pending_s) as (k & key & Hk & Hp & Hl & Hr).
  simpl. rewrite Hopen. unfold dispatch_message, listener_of. rewrite Hk. simpl.
  rewrite Hl. simpl. unfold resolve, authPromise_of. simpl.
  rewrite list_lookup_alter_eq, Hk. simpl. rewrite Hp.
  unfold readyState_of in *. rewrite Hk in Hopen. injection Hopen as Hopen.
  unfold onopen_continue, ws_close. simpl.
  rewrite !list_lookup_alter_eq, Hk. simpl.
  unfold closing. simpl. by rewrite Hopen.
Qed.

End Timeout.

(** C6. A handshake starts when a transport opens with a credential
    configured and no other handshake in flight, in any state the client
    reaches.  As long as no event ends it (a verdict of the server or a frame
    that fails to parse on this transport), its promise stays pending and its
    timer stays set, due 10 seconds after the start.  The timer does not fire
    before it is due; when it fires, the promise resolves to failure, the
    authentication guard is cleared, the error "Authentication timeout" is
    set and the transport is closed.  A frame that fails to parse fails the
    handshake in the same way, at once. *)
Theorem authentication_times_out (p : Props) (history events : list event)
    (window ctorThrows itemThrows : bool) (cached : stored) (t0 : Z)
    (w : nat) (key : string) :
  let s := run p history (initial window ctorThrows itemThrows cached t0) in
  credential p = Some key →
  readyState_of w s = Some CONNECTING →
  authenticationInProgressRef s = false →
  let tid := nextTimer s in
  let d := now s + 10000 in
  Forall (λ e, ends_handshake w tid e = false) events →
  let s2 := run p events (step p (ws_open w) s) in
  authPromise_of w s2 = Some pending
  ∧ find_timer tid s2 = Some (Timer tid d (authTimeout w))
  ∧ (now s2 < d → step p (timer_fires tid) s2 = s2)
  ∧ (d ≤ now s2 →
       let s3 := step p (timer_fires tid) s2 in
       authPromise_of w s3 = Some (resolved false)
       ∧ authenticationInProgressRef s3 = false
       ∧ error s3 = Some "Authentication timeout"%string
       ∧ (readyState_of w s3 = Some CLOSING ∨ readyState_of w s3 = Some CLOSED)
       ∧ find_timer tid s3 = None)
  ∧ (readyState_of w s2 = Some OPEN →
       let s3 := step p (ws_message w malformed) s2 in
       authPromise_of w s3 = Some (resolved false)
       ∧ authenticationInProgressRef s3 = false
       ∧ error s3 = Some "Authentication error"%string
       ∧ readyState_of w s3 = Some CLOSING).
Proof.
  intros s Hkey Hr Hguard tid d Hevents s2.
  assert (handshake_pending w tid d s2) as Hp.
  { apply inflight_run; [done|].
    apply (handshake_starts p w key s); try done.
    apply fresh_run, fresh_initial. }
  split_and!.
  - exact (pending_promise w tid d s2 Hp).
  - exact (pending_find_timer w tid d s2 Hp).
  - exact (pending_not_early p w tid d s2 Hp).
  - exact (timeout_fails p w tid d s2 Hp).
  - exact (malformed_fails p w tid d s2 Hp).
Qed.

(** ** The properties on sample runs *)

Example reconnecting_state :
  readyState_of 1 Scenario.reconnecting = Some OPEN
  ∧ listener_of 1 Scenario.reconnecting = Some (3%nat, "your-secret-api-key-1"%string)
  ∧ authPromise_of 1 Scenario.reconnecting = Some pending
  ∧ subscribedSymbolsRef Scenario.reconnecting = ["MSFT"; "GOOG"]%string
  ∧ wire Scenario.reconnecting
    = [ (0%nat, authenticate_frame (request_challenge "your-secret-api-key-1"));
        (0%nat, authenticate_frame
                  (challenge_response "1"
                     "6zC6HRz1+eIzuUqO9iS1lTQYQmTkZdJWyV42up4w5FE="
                     "your-secret-api-key-1"));
        (0%nat, subscribe_frame ["AAPL"; "MSFT"]%string);
        (0%nat, unsubscribe_frame ["AAPL"%string]);
        (0%nat, subscribe_frame ["GOOG"%string]);
        (1%nat, authenticate_frame (request_challenge "your-secret-api-key-1"));
        (1%nat, authenticate_frame
                  (challenge_response "2"
                     (sha256 "def:your-secret-api-key-1")
                     "your-secret-api-key-1")) ].
Proof. vm_compute. done. Qed.

Example resync_frame_after_reconnect :
  resync 1 Scenario.reconnecting = [(1%nat, subscribe_frame ["MSFT"; "GOOG"]%string)].
Proof. vm_compute. done. Qed.

Lemma resync_after_reconnect :
  let s := Scenario.reconnecting in
  let s' := step Sample.keyed (ws_message 1 (authenticated "token-2")) s in
  isAuthenticated s' = true
  ∧ sent_since s s' = resync 1 s
  ∧ subscribedSymbolsRef s' = subscribedSymbolsRef s.
Proof.
  apply (proj2 (proj2 (proj2 (proj2
           (resync_sends_current_set Sample.keyed Scenario.session
              true false false no_item 0))))
           1%nat 3%nat "your-secret-api-key-1"%string "token-2"%string);
    reflexivity.
Defined.

Lemma keyless_open_authenticates :
  isAuthenticated (step Sample.keyless (ws_open 0%nat)
                     (connect Sample.keyless Sample.fresh)) = true
  ∧ authPromise_of 0 (step Sample.keyless (ws_open 0%nat)
                        (connect Sample.keyless Sample.fresh))
    = Some (resolved true).
Proof.
  apply (proj1 (proj2 (keyless_authentication_is_immediate Sample.keyless
                         (or_introl eq_refl)))).
  reflexivity.
Defined.

Lemma timeout_after_silence :
  let s2 := run Sample.keyed Scenario.silence
              (step Sample.keyed (ws_open 0%nat) Scenario.connecting) in
  let s3 := step Sample.keyed (timer_fires 1%nat) s2 in
  authPromise_of 0 s3 = Some (resolved false)
  ∧ authenticationInProgressRef s3 = false
  ∧ error s3 = Some "Authentication timeout"%string
  ∧ (readyState_of 0 s3 = Some CLOSING ∨ readyState_of 0 s3 = Some CLOSED)
  ∧ find_timer 1 s3 = None.
Proof.
  refine (proj1 (proj2 (proj2 (proj2
            (authentication_times_out Sample.keyed [mounted] Scenario.silence
               true false false no_item 0 0%nat "your-secret-api-key-1"%string
               eq_refl eq_refl eq_refl _)))) _).
  - repeat constructor.
  - vm_compute. discriminate.
Defined.

Lemma abnormal_close_schedules_reconnect :
  let s' := step Sample.keyless (ws_closed 0 1006) Scenario.connected in
  timers s' = timers Scenario.connected ++
              [Timer (nextTimer Scenario.connected)
                     (now Scenario.connected + Z.max 0 (reconnectInterval Sample.keyless))
                     reconnectTimer]
  ∧ reconnectTimeoutRef s' = Some (nextTimer Scenario.connected)
  ∧ ∀ s0, run_timer Sample.keyless reconnectTimer s0 = connect Sample.keyless s0.
Proof.
  apply (proj2 (proj2 (proj2 (proj2
           (close_clears_and_reconnects Sample.keyless 0%nat 1006 OPEN
              Scenario.connected eq_refl ltac:(discriminate)))))).
  - discriminate.
  - reflexivity.
Defined.

Lemma fresh_snapshot_adopted :
  prices (initial true false false (snapshot {[ "AAPL"%string := 187 ]} 1000) 2000)
  = {[ "AAPL"%string := 187 ]}.
Proof.
  apply (proj1 (cache_load_expiry false false
                  (snapshot {[ "AAPL"%string := 187 ]} 1000) 2000)
           {[ "AAPL"%string := 187 ]} 1000 eq_refl).
  lia.
Defined.

Lemma price_update_is_persisted :
  let s' := step Sample.keyless (ws_message 0 (price_update "AAPL" 187))
              Scenario.connected in
  localStorage s' = snapshot (prices s') (now s').
Proof.
  apply (proj1 (proj2 (proj2 (price_change_mirrored Sample.keyless
                                Scenario.connected eq_refl)
                         0%nat "AAPL"%string 187 eq_refl))).
  reflexivity.
Defined.

Lemma unsubscribe_before_connect :
  let s := subscribe ["AAPL"; "MSFT"]%string Sample.fresh in
  wire (unsubscribe ["AAPL"%string] s) = wire s.
Proof.
  apply (proj1 (proj2 (unsubscribe_before_ready ["AAPL"%string]
                         (subscribe ["AAPL"; "MSFT"]%string Sample.fresh)
                         eq_refl))).
Defined.


(** * Further properties *)

(** ** Subscribing and unsubscribing *)


Lemma subscribed_to_remove_spec (symbols : list string) (s : State) (x : string) :
  x ∈ subscribed_to_remove symbols s ↔ x ∈ symbols ∧ x ∈ subscribedSymbolsRef s.
Proof.
  unfold subscribed_to_remove. rewrite list_elem_of_filter, JsSetFacts.has_spec. tauto.
Qed.

Lemma subscribed_to_remove_after (symbols : list string) (s : State) :
  subscribed_to_remove symbols (unsubscribe symbols s) = [].
Proof.
  apply elem_of_nil_inv. intros x [Hx Hin]%subscribed_to_remove_spec.
  apply unsubscribe_set in Hin. tauto.
Qed.

(** X1. [unsubscribe] sends at most one frame: an unsubscribe frame with
    exactly the symbols of the call that are in the set, and only when the
    transport is open and authenticated.  The set loses the symbols of the
    call, and a second call with the same symbols changes nothing at all. *)
Theorem unsubscribe_sends_present_symbols_once (symbols : list string) (s : State) :
  let s1 := unsubscribe symbols s in
  sent_since s s1
    = match ready_to_send s, subscribed_to_remove symbols s with
      | Some w, _ :: _ => [(w, unsubscribe_frame (subscribed_to_remove symbols s))]
      | _, _ => []
      end
  ∧ (∀ x, x ∈ subscribed_to_remove symbols s
          ↔ x ∈ symbols ∧ x ∈ subscribedSymbolsRef s)
  ∧ (∀ x, x ∈ subscribedSymbolsRef s1 ↔ x ∈ subscribedSymbolsRef s ∧ x ∉ symbols)
  ∧ unsubscribe symbols s1 = s1.
Proof.
  cbv zeta. split_and!.
  - apply sent_since_app, unsubscribe_wire.
  - apply subscribed_to_remove_spec.
  - intros x. apply unsubscribe_set.
  - pose proof (subscribed_to_remove_after symbols s) as Hnil.
    unfold unsubscribe at 1.
    fold (subscribed_to_remove symbols (unsubscribe symbols s)).
    rewrite Hnil. simpl. by case_bool_decide.
Qed.

Lemma delete_all_filter (l set : list string) :
  foldl (λ set x, JsSet.delete x set) set l = filter (λ y, y ∉ l) set.
Proof.
  revert set. induction l as [|x l IH]; intros set; simpl.
  - symmetry. induction set as [|y set IHset]; [done|].
    rewrite filter_cons_True by apply not_elem_of_nil. by f_equal.
  - rewrite IH. unfold JsSet.delete. rewrite list_filter_filter.
    apply list_filter_iff. intros y. rewrite not_elem_of_cons. tauto.
Qed.

Lemma add_all_app (l set : list string) :
  ∃ r, foldl (λ set x, JsSet.add x set) set l = set ++ r ∧ ∀ x, x ∈ r → x ∈ l.
Proof.
  revert set. induction l as [|x l IH]; intros set; simpl.
  - exists []. split; [by rewrite app_nil_r|]. by intros x Hx%elem_of_nil.
  - destruct (IH (JsSet.add x set)) as (r & -> & Hr).
    unfold JsSet.add. destruct (JsSet.has x set).
    + exists r. split; [done|]. intros y Hy. right. auto.
    + exists (x :: r). split; [by rewrite <- app_assoc|].
      intros y [->|Hy]%elem_of_cons; [left|right; auto].
Qed.

Lemma filter_all {A} (P : A → Prop) `{∀ x, Decision (P x)} (l : list A) :
  (∀ x, x ∈ l → P x) → filter P l = l.
Proof.
  induction l as [|y l IH]; intros Hall; [done|].
  rewrite filter_cons_True by (apply Hall; left).
  f_equal. apply IH. intros x Hx. apply Hall. by right.
Qed.

Lemma filter_none {A} (P : A → Prop) `{∀ x, Decision (P x)} (l : list A) :
  (∀ x, x ∈ l → ¬ P x) → filter P l = [].
Proof.
  intros Hnone. apply elem_of_nil_inv.
  intros x [HP Hx]%list_elem_of_filter. by apply (Hnone x).
Qed.

(** X2. Subscribing to a list of symbols and unsubscribing from the same list
    leaves the set it was before, in the same order, without the symbols of
    the list; the set is restored exactly when none of them was subscribed. *)
Theorem subscribe_then_unsubscribe (symbols : list string) (s : State) :
  let s' := unsubscribe symbols (subscribe symbols s) in
  subscribedSymbolsRef s' = filter (λ y, y ∉ symbols) (subscribedSymbolsRef s)
  ∧ ((∀ x, x ∈ symbols → x ∉ subscribedSymbolsRef s) →
     subscribedSymbolsRef s' = subscribedSymbolsRef s).
Proof.
  cbv zeta.
  assert (subscribedSymbolsRef (unsubscribe symbols (subscribe symbols s))
          = filter (λ y, y ∉ symbols) (subscribedSymbolsRef s)) as Heq.
  { rewrite unsubscribe_registry, subscribe_registry. simpl.
    destruct (add_all_app (filter (λ symbol, ¬ JsSet.has symbol (subscribedSymbolsRef s))
                                  symbols) (subscribedSymbolsRef s))
      as (r & Hadd & Hr).
    rewrite Hadd.
    rewrite (filter_all (λ symbol, JsSet.has symbol (subscribedSymbolsRef s ++ r))).
    - rewrite delete_all_filter, filter_app.
      rewrite (filter_none _ r); [by rewrite app_nil_r|].
      intros x Hx Hnot. apply Hnot.
      by apply Hr, list_elem_of_filter in Hx as [_ Hx].
    - intros x Hx. apply JsSetFacts.has_spec. rewrite <- Hadd.
      apply JsSetFacts.elem_of_add_all.
      destruct (decide (x ∈ subscribedSymbolsRef s)); [by left|right].
      apply list_elem_of_filter. by rewrite JsSetFacts.has_spec. }
  split; [done|].
  intros Hdisjoint. rewrite Heq. apply filter_all.
  intros x Hx Hin. by apply (Hdisjoint x).
Qed.

Lemma subscribe_then_unsubscribe_sample :
  subscribedSymbolsRef
    (unsubscribe ["AAPL"; "IBM"]%string
       (subscribe ["AAPL"; "IBM"]%string Scenario.reconnecting))
  = subscribedSymbolsRef Scenario.reconnecting.
Proof.
  apply (proj2 (subscribe_then_unsubscribe ["AAPL"; "IBM"]%string
                  Scenario.reconnecting)).
  intros x Hx.
  change (subscribedSymbolsRef Scenario.reconnecting) with ["MSFT"; "GOOG"]%string.
  rewrite !elem_of_cons, elem_of_nil in Hx.
  rewrite !not_elem_of_cons.
  destruct Hx as [->|[->|[]]]; split_and!; (discriminate || apply not_elem_of_nil).
Defined.

(** ** Outcomes of the handshake *)

(** X3. A transport that opens while the authentication guard is set does
    not start a second handshake: [authenticate] resolves to failure at once,
    nothing is sent, no timer is set, no listener is registered, and the
    client closes the transport.  The guard stays set. *)
Theorem handshake_guard_rejects (p : Props) (w : nat) (key : string) (s : State) :
  credential p = Some key →
  readyState_of w s = Some CONNECTING →
  authenticationInProgressRef s = true →
  let s' := step p (ws_open w) s in
  authPromise_of w s' = Some (resolved false)
  ∧ wire s' = wire s
  ∧ timers s' = timers s
  ∧ listener_of w s' = listener_of w s
  ∧ readyState_of w s' = Some CLOSING
  ∧ authenticationInProgressRef s' = true
  ∧ isAuthenticated s' = isAuthenticated s.
Proof.
  intros Hkey Hr Hguard. simpl. rewrite Hr.
  apply readyState_of_Some in Hr as (k & Hk & Hr).
  unfold onopen, authenticate, authPromise_of. rewrite Hkey. simpl.
  rewrite Hguard. simpl.
  rewrite !list_lookup_alter_eq, Hk. simpl.
  unfold onopen_continue, ws_close, authPromise_of, listener_of, readyState_of.
  simpl. rewrite !list_lookup_alter_eq, Hk. simpl.
  unfold closing. simpl. done.
Qed.

Lemma dropped_frame (p : Props) (w : nat) (m : inbound) (s : State) :
  readyState_of w s = Some OPEN → listener_of w s = None →
  is_data_frame m = false → step p (ws_message w m) s = s.
Proof.
  intros Hr Hl Hm. simpl. rewrite Hr. unfold dispatch_message. rewrite Hl.
  by destruct m.
Qed.

Section Verdict.

Variables (p : Props) (w tid : nat) (key : string) (s : State).
Hypothesis open_s : readyState_of w s = Some OPEN.
Hypothesis listener_s : listener_of w s = Some (tid, key).
Hypothesis pending_s : authPromise_of w s = Some pending.

Lemma verdict_socket :
  ∃ k, sockets s !! w = Some k ∧ readyState k = OPEN
       ∧ listener k = Some (tid, key) ∧ authPromise k = pending.
Proof.
  unfold readyState_of, listener_of, authPromise_of in *.
  destruct (sockets s !! w) as [k|]; [|done]. simpl in *.
  exists k. split_and!; congruence.
Qed.

Lemma cleared_timer_gone (s0 : State) :
  timers s0 = filter (λ t, timer_id t ≠ tid) (timers s) → find_timer tid s0 = None.
Proof.
  intros Ht. unfold find_timer. rewrite Ht.
  apply head_None, elem_of_nil_inv.
  intros t [Hid [Hne _]%list_elem_of_filter]%list_elem_of_filter. done.
Qed.

Lemma timer_gone_no_fire (s0 : State) :
  find_timer tid s0 = None → step p (timer_fires tid) s0 = s0.
Proof. intros Hgone. simpl. by rewrite Hgone. Qed.

Lemma auth_error_step (message : string) :
  step p (ws_message w (auth_error message)) s
  = s |> clearTimeout tid
      |> update_socket w (with_listener None)
      |> setError (Some ("Authentication failed: " ++ message)%string)
      |> setIsAuthenticated false
      |> set_authenticationInProgressRef false
      |> update_socket w (with_authPromise (resolved false))
      |> ws_close w.
Proof.
  destruct verdict_socket as (k & Hk & Hr & Hl & Hp).
  simpl. rewrite open_s. unfold dispatch_message. rewrite listener_s. simpl.
  unfold resolve, authPromise_of. simpl.
  by rewrite list_lookup_alter_eq, Hk; simpl; rewrite Hp.
Qed.

Lemma auth_error_fails (message : string) :
  let s' := step p (ws_message w (auth_error message)) s in
  authPromise_of w s' = Some (resolved false)
  ∧ error s' = Some ("Authentication failed: " ++ message)%string
  ∧ isAuthenticated s' = false
  ∧ authenticationInProgressRef s' = false
  ∧ readyState_of w s' = Some CLOSING
  ∧ listener_of w s' = None
  ∧ find_timer tid s' = None
  ∧ wire s' = wire s
  ∧ step p (timer_fires tid) s' = s'.
Proof.
  cbv zeta. rewrite auth_error_step.
  destruct verdict_socket as (k & Hk & Hr & Hl & Hp).
  split_and!.
  - unfold authPromise_of. simpl. rewrite !list_lookup_alter_eq, Hk.
    unfold closing. simpl. by rewrite Hr.
  - reflexivity.
  - reflexivity.
  - reflexivity.
  - unfold readyState_of. simpl. rewrite !list_lookup_alter_eq, Hk.
    unfold closing. simpl. by rewrite Hr.
  - unfold listener_of. simpl. rewrite !list_lookup_alter_eq, Hk.
    unfold closing. simpl. by rewrite Hr.
  - apply cleared_timer_gone. reflexivity.
  - reflexivity.
  - apply timer_gone_no_fire, cleared_timer_gone. reflexivity.
Qed.

Lemma authenticated_succeeds (token : string) :
  let s' := step p (ws_message w (authenticated token)) s in
  authPromise_of w s' = Some (resolved true)
  ∧ isAuthenticated s' = true
  ∧ sessionToken s' = Some token
  ∧ error s' = None
  ∧ authenticationInProgressRef s' = false
  ∧ readyState_of w s' = Some OPEN
  ∧ listener_of w s' = None
  ∧ find_timer tid s' = None
  ∧ step p (timer_fires tid) s' = s'
  ∧ (∀ m, is_data_frame m = false → step p (ws_message w m) s' = s').
Proof.
  cbv zeta. rewrite (authenticated_step p w tid key token s) by done.
  destruct verdict_socket as (k & Hk & Hr & Hl & Hp).
  set (s1 := s |> clearTimeout tid
               |> update_socket w (with_listener None)
               |> setIsAuthenticated true |> setSessionToken (Some token)
               |> setError None
               |> set_authenticationInProgressRef false
               |> update_socket w (with_authPromise (resolved true))).
  assert (∃ fs, onopen_continue w true s1 = set_wire fs s1 ∨ onopen_continue w true s1 = s1)
    as [fs Hcont].
  { exists (wire s1 ++ [(w, subscribe_frame (JsSet.to_array (subscribedSymbolsRef s1)))]).
    unfold onopen_continue, ws_send. repeat case_match; auto. }
  assert (sockets (onopen_continue w true s1) = sockets s1) as Hsock
    by (by destruct Hcont as [-> | ->]).
  assert (timers (onopen_continue w true s1) = timers s1) as Htim
    by (by destruct Hcont as [-> | ->]).
  assert (sockets s1 !! w = Some (Socket OPEN None (resolved true))) as Hw.
  { subst s1. simpl. rewrite !list_lookup_alter_eq, Hk.
    destruct k; simpl in *. by subst. }
  assert (find_timer tid (onopen_continue w true s1) = None) as Hgone.
  { apply cleared_timer_gone. rewrite Htim. reflexivity. }
  assert (readyState_of w (onopen_continue w true s1) = Some OPEN) as Hopen
    by (unfold readyState_of; by rewrite Hsock, Hw).
  assert (listener_of w (onopen_continue w true s1) = None) as Hnone
    by (unfold listener_of; by rewrite Hsock, Hw).
  split_and!.
  - unfold authPromise_of. by rewrite Hsock, Hw.
  - by destruct Hcont as [-> | ->].
  - by destruct Hcont as [-> | ->].
  - by destruct Hcont as [-> | ->].
  - by destruct Hcont as [-> | ->].
  - exact Hopen.
  - exact Hnone.
  - exact Hgone.
  - by apply timer_gone_no_fire.
  - intros m Hm. by apply dropped_frame.
Qed.

End Verdict.

(** X4. An [auth_error] verdict on a handshake in flight resolves the promise
    to failure, sets the error "Authentication failed: " followed by the
    reason of the server, clears the authenticated flag and the guard,
    removes the listener and the timer, so that the timeout no longer fires,
    sends nothing and closes the transport. *)
Theorem auth_error_closes_transport (p : Props) (w tid : nat) (key message : string)
    (s : State) :
  readyState_of w s = Some OPEN → listener_of w s = Some (tid, key) →
  authPromise_of w s = Some pending →
  let s' := step p (ws_message w (auth_error message)) s in
  authPromise_of w s' = Some (resolved false)
  ∧ error s' = Some ("Authentication failed: " ++ message)%string
  ∧ isAuthenticated s' = false
  ∧ authenticationInProgressRef s' = false
  ∧ readyState_of w s' = Some CLOSING
  ∧ listener_of w s' = None
  ∧ find_timer tid s' = None
  ∧ wire s' = wire s
  ∧ step p (timer_fires tid) s' = s'.
Proof. intros Hr Hl Hp. exact (auth_error_fails p w tid key s Hr Hl Hp message). Qed.

(** X5. An [authenticated] verdict on a handshake in flight resolves the
    promise to success, stores the session token, clears the error and the
    guard and leaves the transport open; the listener and the timer are
    removed, so that the timeout no longer fires and later frames of the
    handshake protocol, unknown frames and frames that fail to parse change
    nothing. *)
Theorem authenticated_ends_handshake (p : Props) (w tid : nat) (key token : string)
    (s : State) :
  readyState_of w s = Some OPEN → listener_of w s = Some (tid, key) →
  authPromise_of w s = Some pending →
  let s' := step p (ws_message w (authenticated token)) s in
  authPromise_of w s' = Some (resolved true)
  ∧ isAuthenticated s' = true
  ∧ sessionToken s' = Some token
  ∧ error s' = None
  ∧ authenticationInProgressRef s' = false
  ∧ readyState_of w s' = Some OPEN
  ∧ listener_of w s' = None
  ∧ find_timer tid s' = None
  ∧ step p (timer_fires tid) s' = s'
  ∧ (∀ m, is_data_frame m = false → step p (ws_message w m) s' = s').
Proof. intros Hr Hl Hp. exact (authenticated_succeeds p w tid key s Hr Hl Hp token). Qed.

(** X6. On an open transport without handshake listener, every frame other
    than a price update or an error is dropped: a frame of the handshake
    protocol, a frame of unknown type and a frame that fails to parse leave
    the state as it is.  An error frame only sets [error], with or without
    listener: the transport stays as it is. *)
Theorem frames_outside_handshake (p : Props) (w : nat) (s : State) :
  readyState_of w s = Some OPEN →
  (listener_of w s = None →
   ∀ m, is_data_frame m = false → step p (ws_message w m) s = s)
  ∧ (∀ message,
       step p (ws_message w (error_message message)) s = setError (Some message) s).
Proof.
  intros Hr. split.
  - intros Hl m Hm. by apply dropped_frame.
  - intros message. simpl. rewrite Hr. unfold dispatch_message. simpl.
    by destruct (listener_of w s) as [[??]|].
Qed.

Lemma handshake_guard_rejects_remount :
  let s' := step Sample.keyed (ws_open 1%nat) Cases.remounted in
  authPromise_of 1 s' = Some (resolved false)
  ∧ wire s' = wire Cases.remounted
  ∧ timers s' = timers Cases.remounted
  ∧ listener_of 1 s' = listener_of 1 Cases.remounted
  ∧ readyState_of 1 s' = Some CLOSING
  ∧ authenticationInProgressRef s' = true
  ∧ isAuthenticated s' = isAuthenticated Cases.remounted.
Proof.
  apply (handshake_guard_rejects Sample.keyed 1%nat "your-secret-api-key-1"%string
           Cases.remounted); reflexivity.
Defined.

Lemma auth_error_on_reconnect :
  let s' := step Sample.keyed (ws_message 1 (auth_error "Invalid signature"))
              Scenario.reconnecting in
  authPromise_of 1 s' = Some (resolved false)
  ∧ error s' = Some "Authentication failed: Invalid signature"%string
  ∧ isAuthenticated s' = false
  ∧ authenticationInProgressRef s' = false
  ∧ readyState_of 1 s' = Some CLOSING
  ∧ listener_of 1 s' = None
  ∧ find_timer 3 s' = None
  ∧ wire s' = wire Scenario.reconnecting
  ∧ step Sample.keyed (timer_fires 3%nat) s' = s'.
Proof.
  apply (auth_error_closes_transport Sample.keyed 1%nat 3%nat
           "your-secret-api-key-1"%string "Invalid signature"%string
           Scenario.reconnecting); reflexivity.
Defined.

Lemma authenticated_on_reconnect :
  let s' := step Sample.keyed (ws_message 1 (authenticated "token-2"))
              Scenario.reconnecting in
  sessionToken s' = Some "token-2"%string
  ∧ step Sample.keyed (timer_fires 3%nat) s' = s'.
Proof.
  destruct (authenticated_ends_handshake Sample.keyed 1%nat 3%nat
              "your-secret-api-key-1"%string "token-2"%string
              Scenario.reconnecting eq_refl eq_refl eq_refl)
    as (_ & _ & Htoken & _ & _ & _ & _ & _ & Hfire & _).
  exact (conj Htoken Hfire).
Defined.

Lemma stray_challenge_is_dropped :
  step Sample.keyless (ws_message 0 (challenge "abc" "1")) Scenario.connected
  = Scenario.connected.
Proof.
  apply (proj1 (frames_outside_handshake Sample.keyless 0%nat Scenario.connected
                  eq_refl)); reflexivity.
Defined.

(** ** The price map and its snapshot *)

Lemma price_frame_step (p : Props) (w : nat) (u : string * price) (s : State) :
  readyState_of w s = Some OPEN →
  step p (price_frame w u) s
  = s |> setPrices (<[u.1 := u.2]> (prices s)) |> cachePrices.
Proof. apply price_update_step. Qed.

Lemma cachePrices_sockets (s : State) : sockets (cachePrices s) = sockets s.
Proof. unfold cachePrices. by repeat case_match. Qed.

Lemma cachePrices_prices (s : State) : prices (cachePrices s) = prices s.
Proof. unfold cachePrices. by repeat case_match. Qed.

Lemma price_updates_prices (p : Props) (w : nat) (updates : list (string * price))
    (s : State) :
  readyState_of w s = Some OPEN →
  prices (run p (price_frame w <$> updates) s)
  = foldl (λ m u, <[u.1 := u.2]> m) (prices s) updates.
Proof.
  revert s. induction updates as [|u updates IH]; intros s Hr; [done|].
  change (prices (run p (price_frame w <$> updates) (step p (price_frame w u) s))
          = foldl (λ m u, <[u.1 := u.2]> m) (<[u.1 := u.2]> (prices s)) updates).
  rewrite price_frame_step by done.
  rewrite IH.
  - by rewrite cachePrices_prices.
  - unfold readyState_of in *. by rewrite cachePrices_sockets.
Qed.

Lemma fold_insert_lookup (updates : list (string * price)) (m : gmap string price)
    (symbol : string) :
  foldl (λ m u, <[u.1 := u.2]> m) m updates !! symbol
  = match last_price symbol updates with
    | Some v => Some v
    | None => m !! symbol
    end.
Proof.
  revert m. unfold last_price.
  induction updates as [|u updates IH]; intros m; simpl; [done|].
  rewrite IH.
  destruct (decide (u.1 = symbol)) as [Hu|Hu].
  - rewrite filter_cons_True by done.
    destruct (filter _ updates) as [|u' l].
    + simpl. by rewrite <- Hu, lookup_insert_eq.
    + rewrite last_cons_cons.
      destruct (last (u' :: l)) eqn:Hl; [done|]. by apply last_None in Hl.
  - rewrite filter_cons_False by done.
    destruct (last (filter _ updates)); simpl; [done|].
    by rewrite lookup_insert_ne.
Qed.

(** X7. Price updates delivered on an open transport are put in the map one
    after the other: afterwards the price of a symbol is the one of its last
    update, and a symbol without update keeps the price it had. *)
Theorem last_price_wins (p : Props) (w : nat) (updates : list (string * price))
    (s : State) :
  readyState_of w s = Some OPEN →
  ∀ symbol,
    prices (run p (price_frame w <$> updates) s) !! symbol
    = match last_price symbol updates with
      | Some v => Some v
      | None => prices s !! symbol
      end.
Proof.
  intros Hr symbol. rewrite price_updates_prices by done.
  apply fold_insert_lookup.
Qed.

Lemma last_price_wins_sample :
  prices (run Sample.keyless
            (price_frame 0 <$> [("AAPL"%string, 187); ("MSFT"%string, 402);
                                ("AAPL"%string, 189)])
            Scenario.connected) !! "AAPL"%string
  = Some 189.
Proof.
  apply (last_price_wins Sample.keyless 0%nat
           [("AAPL"%string, 187); ("MSFT"%string, 402); ("AAPL"%string, 189)]
           Scenario.connected eq_refl "AAPL"%string).
Defined.

Lemma cachePrices_saves (s : State) :
  hasWindow s = true → setItemThrows s = false → prices s ≠ ∅ →
  localStorage (cachePrices s) = snapshot (prices s) (now s).
Proof.
  intros Hw Ht Hne. unfold cachePrices. rewrite Hw, Ht.
  rewrite bool_decide_eq_true_2; [done|].
  apply map_size_non_empty_iff in Hne. simpl. lia.
Qed.

(** X8. The snapshot written after a price update is read back by a restart:
    in a browser whose storage accepts the write, a provider constructed less
    than 24 hours after the write starts with exactly the price map of that
    moment, and one constructed 24 hours after it or later starts with the
    empty map. *)
Theorem snapshot_survives_restart (p : Props) (w : nat) (symbol : string)
    (value : price) (s : State) (ctorThrows itemThrows : bool) (t : Z) :
  hasWindow s = true → setItemThrows s = false →
  readyState_of w s = Some OPEN →
  let s' := step p (ws_message w (price_update symbol value)) s in
  let restarted := initial true ctorThrows itemThrows (localStorage s') t in
  (t - now s < 86400000 → prices restarted = prices s')
  ∧ (86400000 ≤ t - now s → prices restarted = ∅).
Proof.
  intros Hw Ht Hr. cbv zeta.
  rewrite price_update_step by done.
  rewrite cachePrices_saves; [|done|done|apply insert_non_empty].
  rewrite cachePrices_prices.
  simpl. unfold CACHE_EXPIRY_MS.
  split; intros Hage.
  - by destruct (Z.ltb_spec (t - now s) (24 * 60 * 60 * 1000)); [|lia].
  - by destruct (Z.ltb_spec (t - now s) (24 * 60 * 60 * 1000)); [lia|].
Qed.

Lemma snapshot_survives_restart_sample :
  let s' := step Sample.keyless (ws_message 0 (price_update "AAPL" 187))
              Scenario.connected in
  prices (initial true false false (localStorage s') 3600000) = prices s'.
Proof.
  apply (proj1 (snapshot_survives_restart Sample.keyless 0%nat "AAPL"%string 187
                  Scenario.connected false false 3600000 eq_refl eq_refl eq_refl)).
  reflexivity.
Defined.

Lemma connect_localStorage (p : Props) (s : State) :
  localStorage (connect p s) = localStorage s.
Proof. by by_cases. Qed.

(** X9. The effects of the first render write the loaded map back: a
    snapshot younger than 24 hours, with at least one price, is saved again
    under the time of the load, so that its age starts anew; an expired
    snapshot is not used and stays in the storage as it is. *)
Theorem mount_renews_snapshot (p : Props) (ctorThrows : bool)
    (data : gmap string price) (ts t : Z) :
  let s := step p mounted (initial true ctorThrows false (snapshot data ts) t) in
  (t - ts < 86400000 → data ≠ ∅ →
   prices s = data ∧ localStorage s = snapshot data t)
  ∧ (86400000 ≤ t - ts →
     prices s = ∅ ∧ localStorage s = snapshot data ts).
Proof.
  cbv zeta. simpl step. unfold mount.
  split.
  - intros Hage Hdata.
    assert (prices (initial true ctorThrows false (snapshot data ts) t) = data) as Hp.
    { simpl. unfold CACHE_EXPIRY_MS.
      by destruct (Z.ltb_spec (t - ts) (24 * 60 * 60 * 1000)); [|lia]. }
    split.
    + rewrite <- Hp at 2. by by_cases.
    + rewrite connect_localStorage, cachePrices_saves; rewrite ?Hp; done.
  - intros Hage.
    assert (prices (initial true ctorThrows false (snapshot data ts) t) = ∅) as Hp.
    { simpl. unfold CACHE_EXPIRY_MS.
      by destruct (Z.ltb_spec (t - ts) (24 * 60 * 60 * 1000)); [lia|]. }
    split.
    + rewrite <- Hp. by by_cases.
    + rewrite connect_localStorage. unfold cachePrices. rewrite Hp.
      by rewrite map_size_empty.
Qed.

Lemma mount_renews_snapshot_sample :
  localStorage
    (step Sample.keyless mounted
       (initial true false false (snapshot {[ "AAPL"%string := 187 ]} 1000) 2000))
  = snapshot {[ "AAPL"%string := 187 ]} 2000.
Proof.
  apply (proj1 (mount_renews_snapshot Sample.keyless false
                  {[ "AAPL"%string := 187 ]} 1000 2000)).
  - lia.
  - apply insert_non_empty.
Defined.

(** ** Failure of the constructor, and teardown *)

(** X10. When [new WebSocket(url)] throws, [connect] only records the error
    "Failed to create WebSocket connection": the connection guard is clear
    again, no transport exists and no timer is set.  A reconnect timer that
    runs into this failure is therefore the last one: nothing schedules
    another attempt. *)
Theorem failed_construction_is_not_retried (p : Props) (s : State) :
  enabled p = true → url p ≠ ""%string →
  connectionInProgressRef s = false → ws_live s = false →
  wsCtorThrows s = true →
  connect p s = setError (Some "Failed to create WebSocket connection"%string) s
  ∧ ∀ id t, find_timer id s = Some t → action t = reconnectTimer →
            due t ≤ now s →
            let s' := step p (timer_fires id) s in
            timers s' = filter (λ t, timer_id t ≠ id) (timers s)
            ∧ sockets s' = sockets s
            ∧ connectionInProgressRef s' = false
            ∧ error s' = Some "Failed to create WebSocket connection"%string.
Proof.
  intros He Hu Hc Hl Hthrow. split.
  - rewrite connect_proceeds by done. by rewrite Hthrow.
  - intros id t Hfind Hact Hdue. cbv zeta. simpl step.
    rewrite Hfind, Hact.
    destruct (Z.leb_spec (due t) (now s)); [|lia].
    simpl run_timer.
    rewrite (connect_proceeds p (clearTimeout id s) He Hu Hc Hl).
    change (wsCtorThrows (clearTimeout id s)) with (wsCtorThrows s).
    by rewrite Hthrow.
Qed.

Lemma failed_construction_sample :
  timers (step Sample.keyless (timer_fires 1) Cases.offline) = [].
Proof.
  apply (proj2 (failed_construction_is_not_retried Sample.keyless Cases.offline
                  eq_refl ltac:(discriminate) eq_refl eq_refl eq_refl)
           1%nat (Timer 1 5000 reconnectTimer) eq_refl eq_refl ltac:(simpl; lia)).
Defined.

Lemma ws_close_not_live (w : nat) (s : State) :
  wsRef s = Some w → ws_live (ws_close w s) = false.
Proof.
  intros Hw. unfold ws_live, ws_close, update_socket, readyState_of. simpl.
  rewrite Hw. 
  destruct (sockets s !! w) as [k|] eqn:Hk.
  - rewrite list_lookup_alter_eq, Hk. simpl.
    by destruct k as [[] ? ?].
  - rewrite list_lookup_alter_eq, Hk. done.
Qed.

(** X11. The cleanup of the provider cancels the reconnect timer recorded in
    [reconnectTimeoutRef] and starts the closure of the current transport,
    which is then neither connecting nor open; it sends nothing and keeps the
    subscription set and the prices.  The close event of this closure, with
    code 1000, sets no timer: the client stays disconnected. *)
Theorem unmount_cancels_and_closes (p : Props) (s : State) :
  let s' := step p unmount s in
  (∀ id, reconnectTimeoutRef s = Some id → find_timer id s' = None)
  ∧ ws_live s' = false
  ∧ wire s' = wire s
  ∧ subscribedSymbolsRef s' = subscribedSymbolsRef s
  ∧ prices s' = prices s
  ∧ (∀ w, wsRef s = Some w → readyState_of w s' = Some CLOSING →
       let s'' := step p (ws_closed w 1000) s' in
       timers s'' = timers s' ∧ wsRef s'' = None ∧ isConnected s'' = false).
Proof.
  cbv zeta. simpl step. unfold cleanup.
  split; [|split; [|split; [|split; [|split]]]].
  - intros id Hid. rewrite Hid.
    apply (cleared_timer_gone id s).
    by destruct (wsRef (clearTimeout id s)).
  - destruct (reconnectTimeoutRef s) as [id|];
      destruct (wsRef _) as [w|] eqn:Hw; simpl in *.
    + by apply ws_close_not_live.
    + unfold ws_live. simpl. by rewrite Hw.
    + by apply ws_close_not_live.
    + unfold ws_live. by rewrite Hw.
  - by by_cases.
  - by by_cases.
  - by by_cases.
  - intros w Hw Hr. rewrite Hr.
    unfold onclose. rewrite Z.eqb_refl, andb_false_r.
    by destruct (reconnectTimeoutRef s); simpl; rewrite Hw.
Qed.

Lemma unmount_cancels_reconnect_sample :
  find_timer 1 (step Sample.keyless unmount Cases.waiting) = None.
Proof.
  apply (proj1 (unmount_cancels_and_closes Sample.keyless Cases.waiting) 1%nat).
  reflexivity.
Defined.

(** ** Frames on the wire *)

Lemma quiet_events (p : Props) (e : event) (s : State) :
  match e with
  | call_connect | unmount | ws_error _ | ws_closed _ _ | timer_fires _
  | clock _ | mounted => True
  | _ => False
  end →
  wire (step p e s) = wire s.
Proof. destruct e; try done; intros _; by by_cases. Qed.

Lemma subscribe_keeps (symbols : list string) (s : State) :
  isAuthenticated (subscribe symbols s) = isAuthenticated s
  ∧ sockets (subscribe symbols s) = sockets s.
Proof. by by_cases. Qed.

Lemma unsubscribe_keeps (symbols : list string) (s : State) :
  isAuthenticated (unsubscribe symbols s) = isAuthenticated s
  ∧ sockets (unsubscribe symbols s) = sockets s.
Proof. by by_cases. Qed.

Lemma ready_to_send_Some (w : nat) (s : State) :
  ready_to_send s = Some w →
  wsRef s = Some w ∧ readyState_of w s = Some OPEN ∧ isAuthenticated s = true.
Proof.
  unfold ready_to_send. intros H.
  destruct (wsRef s) as [w'|]; [|done].
  destruct (readyState_of w' s) as [[]|] eqn:Hr; try done.
  destruct (isAuthenticated s); [|done]. by simplify_eq.
Qed.

Lemma sent_none (s s' : State) (entry : nat * frame) :
  wire s' = wire s → entry ∈ sent_since s s' → False.
Proof.
  intros Hw. unfold sent_since. rewrite Hw, drop_all. apply elem_of_nil.
Qed.

Lemma sent_one (s s' : State) (entry sent : nat * frame) :
  wire s' = wire s ++ [sent] → entry ∈ sent_since s s' → entry = sent.
Proof.
  intros Hw. unfold sent_since. rewrite Hw, drop_app_length.
  apply list_elem_of_singleton.
Qed.

Lemma onmessage_wire (m : inbound) (s : State) : wire (onmessage m s) = wire s.
Proof. destruct m; try done. simpl. unfold cachePrices. by repeat case_match. Qed.

Lemma resolve_settled (w : nat) (b : bool) (s : State) :
  authPromise_of w s ≠ Some pending → resolve w b s = s.
Proof. intros Hq. unfold resolve. by repeat case_match. Qed.

Lemma ws_send_open (w : nat) (f : frame) (s : State) :
  readyState_of w s = Some OPEN → ws_send w f s = set_wire (wire s ++ [(w, f)]) s.
Proof. intros Hr. unfold ws_send. by rewrite Hr. Qed.

Lemma resolve_false_wire (w : nat) (s : State) : wire (resolve w false s) = wire s.
Proof. unfold resolve, onopen_continue, ws_close. by repeat case_match. Qed.

Lemma message_step (p : Props) (w tid : nat) (key : string) (m : inbound) (s : State) :
  readyState_of w s = Some OPEN → listener_of w s = Some (tid, key) →
  step p (ws_message w m) s = messageHandler w tid key m (onmessage m s).
Proof. intros Hr Hl. simpl. rewrite Hr. unfold dispatch_message. by rewrite Hl. Qed.

Lemma verdict_promise (w tid : nat) (token : string) (s : State) :
  authPromise_of w
    (s |> clearTimeout tid |> update_socket w (with_listener None)
       |> setIsAuthenticated true |> setSessionToken (Some token) |> setError None
       |> set_authenticationInProgressRef false)
  = authPromise_of w s.
Proof.
  unfold authPromise_of. simpl. rewrite list_lookup_alter_eq.
  by destruct (sockets s !! w).
Qed.

Lemma onopen_continue_keeps (w : nat) (s : State) :
  isAuthenticated (onopen_continue w true s) = isAuthenticated s
  ∧ sockets (onopen_continue w true s) = sockets s.
Proof. unfold onopen_continue, ws_send. by repeat case_match. Qed.

Lemma message_frames (p : Props) (w : nat) (m : inbound) (s : State)
    (entry : nat * frame) :
  entry ∈ sent_since s (step p (ws_message w m) s) →
  is_subscription_frame entry.2 = true →
  subscription_source p s (ws_message w m) entry.1
  ∧ isAuthenticated (step p (ws_message w m) s) = true
  ∧ readyState_of entry.1 (step p (ws_message w m) s) = Some OPEN.
Proof.
  intros Hin Hsub.
  destruct (readyState_of w s) as [[]|] eqn:Hr.
  1, 3, 4, 5: simpl in Hin; rewrite Hr in Hin; by destruct (sent_none s s entry).
  destruct (listener_of w s) as [[tid key]|] eqn:Hl.
  2: { simpl in Hin. rewrite Hr in Hin. unfold dispatch_message in Hin.
       rewrite Hl in Hin. by destruct (sent_none _ _ _ (onmessage_wire m s) Hin). }
  rewrite (message_step p w tid key m s Hr Hl) in *.
  destruct m as [| | | token | |symbol value| |]; simpl onmessage in *.
  - apply sent_none in Hin; [done|].
    unfold messageHandler. by rewrite resolve_false_wire.
  - unfold messageHandler in Hin. rewrite ws_send_open in Hin by done.
    apply sent_one with (sent := (w, authenticate_frame (request_challenge key)))
      in Hin; [by subst entry|done].
  - unfold messageHandler in Hin. rewrite ws_send_open in Hin by done.
    eapply sent_one in Hin; [|reflexivity]. by subst entry.
  - destruct (authPromise_of w s) as [q|] eqn:Hq.
    2: { unfold readyState_of, authPromise_of in *.
         by destruct (sockets s !! w). }
    destruct q as [| |b].
    2: {
      pose proof (authenticated_step p w tid key token s Hr Hl Hq) as Hstep.
      rewrite (message_step p w tid key (authenticated token) s Hr Hl) in Hstep.
      simpl onmessage in Hstep. rewrite Hstep in *. clear Hstep.
      set (s1 := s |> clearTimeout tid |> update_socket w (with_listener None)
           |> setIsAuthenticated true |> setSessionToken (Some token)
           |> setError None |> set_authenticationInProgressRef false
           |> update_socket w (with_authPromise (resolved true))) in *.
      assert (wire s1 = wire s) as Hw1 by reflexivity.
      assert (subscribedSymbolsRef s1 = subscribedSymbolsRef s) as Hset1
        by reflexivity.
      assert (isAuthenticated s1 = true) as Ha1 by reflexivity.
      assert (readyState_of w s1 = Some OPEN) as Hr1.
      { unfold readyState_of in *. subst s1. simpl.
        rewrite !list_lookup_alter_eq. by destruct (sockets s !! w). }
      clearbody s1.
      destruct (onopen_continue_keeps w s1) as [Ha Hs].
      unfold sent_since in Hin.
      rewrite onopen_continue_wire, Hw1, drop_app_length, Hr1 in Hin.
      unfold readyState_of at 1. rewrite Hs, Ha.
      unfold resync in Hin. rewrite Hset1 in Hin.
      destruct (subscribedSymbolsRef s); [by apply elem_of_nil in Hin|].
      apply list_elem_of_singleton in Hin. subst entry.
      by split_and!. }
    all: apply sent_none in Hin; [done|].
    all: unfold messageHandler; rewrite resolve_settled; [reflexivity|].
    all: by rewrite verdict_promise, Hq.
  - apply sent_none in Hin; [done|].
    unfold messageHandler. by rewrite resolve_false_wire.
  - apply sent_none in Hin; [done|]. apply (onmessage_wire (price_update symbol value)).
  - by apply sent_none in Hin.
  - by apply sent_none in Hin.
Qed.

Lemma keyed_open_wire (p : Props) (w : nat) (key : string) (s : State) :
  credential p = Some key → readyState_of w s = Some CONNECTING →
  wire (step p (ws_open w) s) = wire s.
Proof.
  intros Hc Hr.
  destruct (authenticationInProgressRef s) eqn:Hg.
  - simpl. rewrite Hr. unfold onopen, authenticate. rewrite Hc. simpl.
    rewrite Hg. unfold authPromise_of, readyState_of in *. simpl.
    rewrite !list_lookup_alter_eq.
    destruct (sockets s !! w) as [k|]; [|done]. simpl.
    unfold ws_close. done.
  - by rewrite (keyed_open_step p w key s Hc Hr Hg).
Qed.

Lemma open_frames (p : Props) (w : nat) (s : State) (entry : nat * frame) :
  entry ∈ sent_since s (step p (ws_open w) s) →
  subscription_source p s (ws_open w) entry.1
  ∧ isAuthenticated (step p (ws_open w) s) = true
  ∧ readyState_of entry.1 (step p (ws_open w) s) = Some OPEN.
Proof.
  intros Hin.
  destruct (readyState_of w s) as [[]|] eqn:Hr.
  2, 3, 4, 5: simpl in Hin; rewrite Hr in Hin; by destruct (sent_none s s entry).
  destruct (credential p) as [key|] eqn:Hc.
  { apply sent_none in Hin; [done|]. by apply keyed_open_wire with key. }
  rewrite (keyless_open_step p w s Hc Hr) in *.
  set (s1 := s |> update_socket w (with_readyState OPEN)
      |> setIsConnected true |> setError None |> set_connectionInProgressRef false
      |> setIsAuthenticated true
      |> update_socket w (with_authPromise (resolved true))) in *.
  assert (wire s1 = wire s) as Hw1 by reflexivity.
  assert (subscribedSymbolsRef s1 = subscribedSymbolsRef s) as Hset1
    by reflexivity.
  assert (isAuthenticated s1 = true) as Ha1 by reflexivity.
  assert (readyState_of w s1 = Some OPEN) as Hr1.
  { unfold readyState_of in *. subst s1. simpl.
    rewrite !list_lookup_alter_eq. by destruct (sockets s !! w). }
  clearbody s1.
  destruct (onopen_continue_keeps w s1) as [Ha Hs].
  unfold sent_since in Hin.
  rewrite onopen_continue_wire, Hw1, drop_app_length, Hr1 in Hin.
  unfold readyState_of at 1. rewrite Hs, Ha.
  unfold resync in Hin. rewrite Hset1 in Hin.
  destruct (subscribedSymbolsRef s); [by apply elem_of_nil in Hin|].
  apply list_elem_of_singleton in Hin. subst entry.
  by split_and!.
Qed.

(** X12. A subscribe or unsubscribe frame leaves only in four kinds of
    step: a call of [subscribe] or [unsubscribe] on a ready client, the
    opening of a transport without credential, and the verdict
    [authenticated] of a pending handshake.  After such a step the client is
    authenticated and the transport of the frame is open: no subscription is
    sent before the handshake has succeeded. *)
Theorem subscription_frames_need_authentication (p : Props) (e : event)
    (s : State) (entry : nat * frame) :
  entry ∈ sent_since s (step p e s) →
  is_subscription_frame entry.2 = true →
  subscription_source p s e entry.1
  ∧ isAuthenticated (step p e s) = true
  ∧ readyState_of entry.1 (step p e s) = Some OPEN.
Proof.
  intros Hin Hsub.
  destruct e as [|symbols|symbols| |w|w m|w|w code|id|t|].
  all: try (apply sent_none in Hin; [done|]; by apply quiet_events).
  - simpl step in *. destruct (subscribe_keeps symbols s) as [-> Hs].
    unfold readyState_of. rewrite Hs.
    rewrite (sent_since_app _ _ _ (subscribe_wire symbols s)) in Hin.
    destruct (ready_to_send s) as [w|] eqn:Hready;
      [|by apply elem_of_nil in Hin].
    destruct (new_symbols symbols s); [by apply elem_of_nil in Hin|].
    apply list_elem_of_singleton in Hin. subst entry.
    by destruct (ready_to_send_Some w s Hready) as (_ & ? & ?).
  - simpl step in *. destruct (unsubscribe_keeps symbols s) as [-> Hs].
    unfold readyState_of. rewrite Hs.
    rewrite (sent_since_app _ _ _ (unsubscribe_wire symbols s)) in Hin.
    destruct (ready_to_send s) as [w|] eqn:Hready;
      [|by apply elem_of_nil in Hin].
    destruct (subscribed_to_remove symbols s); [by apply elem_of_nil in Hin|].
    apply list_elem_of_singleton in Hin. subst entry.
    by destruct (ready_to_send_Some w s Hready) as (_ & ? & ?).
  - by apply open_frames.
  - by apply message_frames.
Qed.

Lemma subscription_frames_sample :
  subscription_source Sample.keyless Scenario.connected
    (call_subscribe ["AAPL"%string]) 0
  ∧ isAuthenticated
      (step Sample.keyless (call_subscribe ["AAPL"%string]) Scenario.connected)
    = true
  ∧ readyState_of 0
      (step Sample.keyless (call_subscribe ["AAPL"%string]) Scenario.connected)
    = Some OPEN.
Proof.
  apply (subscription_frames_need_authentication Sample.keyless
           (call_subscribe ["AAPL"%string]) Scenario.connected
           (0%nat, subscribe_frame ["AAPL"%string])).
  - vm_compute. apply list_elem_of_singleton. reflexivity.
  - reflexivity.
Defined.

(** ** The shape of a signature *)

Lemma compress_length (h block : list Z) :
  length h = 8%nat → length (Sha256.compress h block) = 8%nat.
Proof.
  intros Hh. unfold Sha256.compress. rewrite length_zip_with.
  unfold Sha256.list_of. simpl. lia.
Qed.

Lemma state_length (bs : list (list Z)) (h : list Z) :
  length h = 8%nat → length (foldl Sha256.compress h bs) = 8%nat.
Proof.
  revert h. induction bs as [|b bs IH]; intros h Hh; simpl; [done|].
  by apply IH, compress_length.
Qed.

Lemma digest_length (msg : list Byte.byte) : length (Sha256.digest msg) = 32%nat.
Proof.
  unfold Sha256.digest. rewrite length_fmap.
  set (h := foldl Sha256.compress Sha256.H0 _).
  assert (length h = 8%nat) as Hh by (by apply state_length).
  clearbody h.
  by repeat (destruct h as [|? h]; try done).
Qed.

Lemma sextet_alphabet (n : Z) : Base64.sextet n ∈ Base64.alphabet.
Proof.
  unfold Base64.sextet.
  assert (0 ≤ Z.land n 63 < 64) as Hn.
  { change 63 with (Z.ones 6). rewrite Z.land_ones by lia.
    apply Z.mod_pos_bound. lia. }
  destruct (nth_lookup_or_length Base64.alphabet (Z.to_nat (Z.land n 63))
              Base64.pad_char) as [Hsome|Hlen].
  - by apply list_elem_of_lookup_2 in Hsome.
  - change (length Base64.alphabet) with 64%nat in Hlen. lia.
Qed.

Lemma string_of_list_byte_length (bs : list Byte.byte) :
  String.length (String.string_of_list_byte bs) = length bs.
Proof. induction bs as [|b bs IH]; [done|]. simpl. by f_equal. Qed.

Lemma encode_32 (bs : list Z) :
  length bs = 32%nat →
  length (Base64.encode bs) = 44%nat
  ∧ last (Base64.encode bs) = Some Base64.pad_char
  ∧ Forall (λ c, c ∈ Base64.alphabet) (take 43 (Base64.encode bs)).
Proof.
  intros Hlen.
  do 33 (destruct bs as [|? bs]; try done).
  cbn [Base64.encode]. split; [done|]. split; [done|].
  cbn [take]. repeat (apply Forall_cons; split; [apply sextet_alphabet|]).
  apply Forall_nil_2.
Qed.

(** X13. The signature computed by [sha256] has a fixed shape, whatever
    the message: 44 characters, of which the first 43 are taken from the
    base64 alphabet and the last one is the padding character [=] (a
    digest of 32 bytes leaves two bytes for the last group). *)
Theorem signature_shape (message : string) :
  let signature := String.list_byte_of_string (sha256 message) in
  String.length (sha256 message) = 44%nat
  ∧ last signature = Some Base64.pad_char
  ∧ Forall (λ c, c ∈ Base64.alphabet) (take 43 signature).
Proof.
  cbv zeta. unfold sha256, Base64.btoa.
  rewrite string_of_list_byte_length, String.list_byte_of_string_of_list_byte.
  apply encode_32. rewrite length_fmap. apply digest_length.
Qed.

(** ** Transports in use *)

Section InUse.

Local Open Scope nat_scope.

Lemma unclosed_alter_same (f : socket → socket) (w : nat) (ks : list socket) :
  (∀ k, ks !! w = Some k → is_unclosed (f k) = is_unclosed k) →
  unclosed (alter f w ks) = unclosed ks.
Proof.
  unfold unclosed. revert w.
  induction ks as [|k ks IH]; intros w Hf; [done|].
  destruct w as [|w].
  - change (alter f 0 (k :: ks)) with (f k :: ks).
    rewrite !filter_cons, Hf by done. by destruct (decide _).
  - change (alter f (S w) (k :: ks)) with (k :: alter f w ks).
    rewrite !filter_cons.
    destruct (decide _); rewrite ?length_cons; by rewrite IH.
Qed.

Lemma unclosed_alter_closed (w : nat) (k : socket) (ks : list socket) :
  ks !! w = Some k → is_unclosed k = true →
  S (unclosed (alter (with_readyState CLOSED) w ks)) = unclosed ks.
Proof.
  unfold unclosed. revert w.
  induction ks as [|k' ks IH]; intros w Hk Hu; [done|].
  destruct w as [|w].
  - simpl in Hk. simplify_eq.
    change (alter (with_readyState CLOSED) 0 (k :: ks))
      with (with_readyState CLOSED k :: ks).
    rewrite filter_cons_False by done.
    by rewrite filter_cons_True.
  - change (alter (with_readyState CLOSED) (S w) (k' :: ks))
      with (k' :: alter (with_readyState CLOSED) w ks).
    simpl in Hk. rewrite !filter_cons.
    destruct (decide _); rewrite ?length_cons; by rewrite <- (IH w).
Qed.

Lemma unclosed_app (ks ks' : list socket) :
  unclosed (ks ++ ks') = unclosed ks + unclosed ks'.
Proof. unfold unclosed. by rewrite filter_app, length_app. Qed.

Lemma reconnects_app (ts ts' : list timer) :
  reconnects (ts ++ ts') = reconnects ts + reconnects ts'.
Proof. unfold reconnects. by rewrite filter_app, length_app. Qed.

Lemma reconnects_clear (id : nat) (ts : list timer) :
  reconnects (filter (λ t, timer_id t ≠ id) ts) ≤ reconnects ts.
Proof.
  unfold reconnects. induction ts as [|t ts IH]; [done|].
  rewrite !filter_cons.
  repeat (destruct (decide _); simpl); try rewrite filter_cons; 
    repeat (destruct (decide _); simpl); try done; lia.
Qed.

Lemma reconnects_fired (id : nat) (t : timer) (ts : list timer) :
  t ∈ ts → timer_id t = id → action t = reconnectTimer →
  S (reconnects (filter (λ t, timer_id t ≠ id) ts)) ≤ reconnects ts.
Proof.
  intros Hin Hid Hact. induction Hin as [t ts|t t' ts Hin IH].
  - pose proof (reconnects_clear id ts) as Hle.
    rewrite filter_cons_False by (by intros ?).
    unfold reconnects in *. rewrite filter_cons_True; [simpl; lia|].
    unfold is_reconnect. by rewrite Hact.
  - specialize (IH Hid Hact). unfold reconnects in *.
    rewrite !filter_cons.
    repeat (destruct (decide _); simpl); try rewrite filter_cons; 
    repeat (destruct (decide _); simpl); try done; lia.
Qed.

Lemma settles_refl (s : State) : settles s s.
Proof. by split. Qed.

Lemma settles_trans (s1 s2 s3 : State) :
  settles s1 s2 → settles s2 s3 → settles s1 s3.
Proof. intros [? ?] [? ?]. split; [congruence|lia]. Qed.

Lemma settles_in_use (s s' : State) :
  settles s s' → transports_in_use s' ≤ transports_in_use s.
Proof. intros [? ?]. unfold transports_in_use. lia. Qed.

Lemma settles_update (w : nat) (f : socket → socket) (s : State) :
  (∀ k, sockets s !! w = Some k → is_unclosed (f k) = is_unclosed k) →
  settles s (update_socket w f s).
Proof.
  intros Hf. split; [|done]. by apply unclosed_alter_same.
Qed.

Lemma settles_clearTimeout (id : nat) (s : State) : settles s (clearTimeout id s).
Proof. split; [done|]. apply reconnects_clear. Qed.

Lemma settles_authTimeout (w : nat) (delay : Z) (s : State) :
  settles s (setTimeout (authTimeout w) delay s).
Proof.
  split; [done|]. simpl. rewrite reconnects_app. unfold reconnects. simpl. lia.
Qed.

Ltac settle :=
  repeat match goal with
    | |- settles ?s ?s => apply settles_refl
    | |- settles _ (match ?d with _ => _ end) => destruct d eqn:?
    | |- settles ?s (update_socket ?w ?f ?x) =>
        apply (settles_trans s x);
        [|apply settles_update; by intros [[] ? ?]]
    | |- settles ?s (clearTimeout ?id ?x) =>
        apply (settles_trans s x); [|apply settles_clearTimeout]
    | |- settles ?s (setTimeout (authTimeout ?w) ?d ?x) =>
        apply (settles_trans s x); [|apply settles_authTimeout]
    | |- settles ?s (?f ?x) =>
        apply (settles_trans s x); [|by split]
    end.

Lemma settles_ws_send (w : nat) (f : frame) (s : State) : settles s (ws_send w f s).
Proof. unfold ws_send. settle. Qed.

Lemma settles_ws_close (w : nat) (s : State) : settles s (ws_close w s).
Proof. unfold ws_close. settle. Qed.

Lemma settles_onopen_continue (w : nat) (b : bool) (s : State) :
  settles s (onopen_continue w b s).
Proof.
  unfold onopen_continue. destruct b.
  - case_match; [apply settles_ws_send|apply settles_refl].
  - apply settles_ws_close.
Qed.

Lemma settles_resolve (w : nat) (b : bool) (s : State) : settles s (resolve w b s).
Proof.
  unfold resolve. repeat case_match; try apply settles_refl.
  eapply settles_trans; [|apply settles_onopen_continue]. settle.
Qed.

Lemma settles_authenticate (p : Props) (w : nat) (s : State) :
  settles s (authenticate p w s).
Proof. unfold authenticate. repeat case_match; settle. Qed.

Lemma settles_onopen (p : Props) (w : nat) (s : State) : settles s (onopen p w s).
Proof.
  unfold onopen.
  assert (settles s (authenticate p w
            (s |> setIsConnected true |> setError None
               |> set_connectionInProgressRef false))) as Hs.
  { eapply settles_trans; [|apply settles_authenticate]. settle. }
  repeat case_match; try done.
  eapply settles_trans; [exact Hs|apply settles_onopen_continue].
Qed.

Lemma settles_cachePrices (s : State) : settles s (cachePrices s).
Proof. unfold cachePrices. repeat case_match; settle. Qed.

Lemma settles_onmessage (m : inbound) (s : State) : settles s (onmessage m s).
Proof.
  destruct m; simpl; try apply settles_refl; [|settle].
  eapply settles_trans; [|apply settles_cachePrices]. settle.
Qed.

Lemma settles_messageHandler (w tid : nat) (key : string) (m : inbound) (s : State) :
  settles s (messageHandler w tid key m s).
Proof.
  destruct m; simpl; try apply settles_refl; try apply settles_ws_send.
  all: eapply settles_trans; [|apply settles_resolve]; settle.
Qed.

Lemma settles_dispatch (w : nat) (m : inbound) (s : State) :
  settles s (dispatch_message w m s).
Proof.
  unfold dispatch_message. destruct (listener_of w s) as [[tid key]|].
  - eapply settles_trans; [apply settles_onmessage|apply settles_messageHandler].
  - apply settles_onmessage.
Qed.

Lemma settles_onAuthTimeout (w : nat) (s : State) : settles s (onAuthTimeout w s).
Proof.
  unfold onAuthTimeout. eapply settles_trans; [|apply settles_resolve]. settle.
Qed.

Lemma settles_subscribe (symbols : list string) (s : State) :
  settles s (subscribe symbols s).
Proof.
  unfold subscribe. repeat case_match; try apply settles_refl.
  - eapply settles_trans; [|apply settles_ws_send]. settle.
  - settle.
Qed.

Lemma settles_unsubscribe (symbols : list string) (s : State) :
  settles s (unsubscribe symbols s).
Proof.
  unfold unsubscribe. repeat case_match; try apply settles_refl.
  - eapply settles_trans; [|apply settles_ws_send]. settle.
  - settle.
Qed.

Lemma settles_cleanup (s : State) : settles s (cleanup s).
Proof.
  unfold cleanup.
  assert (settles s match reconnectTimeoutRef s with
                    | Some id => clearTimeout id s
                    | None => s
                    end) as Hs.
  { destruct (reconnectTimeoutRef s); [apply settles_clearTimeout|apply settles_refl]. }
  destruct (wsRef _); [|done].
  eapply settles_trans; [exact Hs|apply settles_ws_close].
Qed.

Lemma connect_in_use (p : Props) (s : State) :
  unclosed (sockets (connect p s)) ≤ S (unclosed (sockets s))
  ∧ timers (connect p s) = timers s.
Proof.
  unfold connect.
  destruct (negb (enabled p) || bool_decide (url p = ""%string)); [by split; [lia|]|].
  destruct (connectionInProgressRef s || ws_live s); [by split; [lia|]|].
  cbv zeta.
  set (s2 := match wsRef (set_connectionInProgressRef true s) with
             | Some w => ws_close w (set_connectionInProgressRef true s)
             | None => set_connectionInProgressRef true s
             end).
  assert (settles s s2) as [Hu Hr].
  { subst s2. destruct (wsRef _).
    - eapply settles_trans; [|apply settles_ws_close]. by split.
    - by split. }
  assert (timers s2 = timers s) as Ht by (subst s2; by destruct (wsRef _)).
  clearbody s2. destruct (wsCtorThrows s2).
  - split; [|exact Ht]. simpl. rewrite Hu. lia.
  - split; [|exact Ht]. simpl. rewrite unclosed_app, Hu. unfold unclosed. simpl. lia.
Qed.

Lemma step_in_use (p : Props) (e : event) (s : State) :
  automatic e = true →
  transports_in_use (step p e s) ≤ transports_in_use s.
Proof.
  intros Ha.
  destruct e as [|symbols|symbols| |w|w m|w|w code|id|t|]; try done; simpl.
  - apply settles_in_use, settles_subscribe.
  - apply settles_in_use, settles_unsubscribe.
  - apply settles_in_use, settles_cleanup.
  - destruct (readyState_of w s) as [[]|] eqn:Hr; try done.
    apply settles_in_use.
    eapply settles_trans; [|apply settles_onopen].
    apply settles_update. intros k Hk.
    unfold readyState_of in Hr. rewrite Hk in Hr. simpl in Hr.
    destruct k as [[] ? ?]; by simplify_eq.
  - destruct (readyState_of w s) as [[]|]; try done.
    apply settles_in_use, settles_dispatch.
  - destruct (readyState_of w s); [|done]. apply settles_in_use. unfold onerror. settle.
  - destruct (sockets s !! w) as [k|] eqn:Hk.
    2: { unfold readyState_of. by rewrite Hk. }
    assert (readyState_of w s = Some (readyState k)) as Hr
      by (unfold readyState_of; by rewrite Hk).
    rewrite Hr.
    destruct (readyState k) eqn:Hk'; try done.
    all: unfold transports_in_use, onclose; case_match; simpl.
    all: rewrite ?reconnects_app.
    all: rewrite <- (unclosed_alter_closed w k (sockets s) Hk)
           by (unfold is_unclosed; by rewrite Hk').
    all: unfold reconnects; simpl; lia.
  - destruct (find_timer id s) as [t|] eqn:Hfind; [|done].
    case_match; [|done].
    destruct (find_timer_Some id t s Hfind) as [Hin Hid].
    destruct (action t) as [w|] eqn:Hact; simpl.
    + apply settles_in_use.
      eapply settles_trans; [apply settles_clearTimeout|apply settles_onAuthTimeout].
    + destruct (connect_in_use p (clearTimeout id s)) as [Hu Ht].
      pose proof (reconnects_fired id t (timers s) Hin Hid Hact) as Hfired.
      unfold transports_in_use. rewrite Ht. simpl in *. lia.
Qed.

Lemma run_in_use (p : Props) (events : list event) (s : State) :
  Forall (λ e, automatic e = true) events →
  transports_in_use (run p events s) ≤ transports_in_use s.
Proof.
  intros Hev. revert s.
  induction Hev as [|e events He _ IH]; intros s; [done|].
  change (run p (e :: events) s) with (run p events (step p e s)).
  etrans; [apply IH|]. by apply step_in_use.
Qed.

Lemma live_unclosed (ks : list socket) :
  length (filter (λ k, is_live k = true) ks) ≤ unclosed ks.
Proof.
  unfold unclosed. induction ks as [|k ks IH]; [done|].
  rewrite !filter_cons.
  destruct k as [[] ? ?]; repeat (destruct (decide _); simpl in *); try done; lia.
Qed.

(** X14. Left to itself (no call of [reconnect] by the application and no
    second mount) the provider never has two transports: after the mount and
    any sequence of other events, the transports not yet closed and the
    reconnect timers still set are at most one in total.  So at most one
    transport is connecting or open, and no reconnection is scheduled while
    a transport exists. *)
Theorem one_transport_at_a_time (p : Props) (events : list event)
    (window ctorThrows itemThrows : bool) (cached : stored) (t : Z) :
  Forall (λ e, automatic e = true) events →
  let s := run p (mounted :: events)
             (initial window ctorThrows itemThrows cached t) in
  transports_in_use s ≤ 1 ∧ length (live_transports s) ≤ 1.
Proof.
  intros Hev. cbv zeta.
  change (run p (mounted :: events) ?s0)
    with (run p events (step p mounted s0)).
  set (s0 := initial window ctorThrows itemThrows cached t).
  assert (transports_in_use (step p mounted s0) ≤ 1) as Hmount.
  { simpl. unfold mount.
    destruct (connect_in_use p (cachePrices s0)) as [Hu Ht].
    destruct (settles_cachePrices s0) as [Hu0 Hr0].
    unfold transports_in_use. rewrite Ht.
    change (unclosed (sockets s0)) with 0 in Hu0.
    change (reconnects (timers s0)) with 0 in Hr0. lia. }
  pose proof (run_in_use p events (step p mounted s0) Hev) as Hrun.
  split; [lia|].
  pose proof (live_unclosed (sockets (run p events (step p mounted s0)))) as Hl.
  unfold live_transports, transports_in_use in *. lia.
Qed.

Lemma one_transport_after_reconnection :
  let s := run Sample.keyless
             [mounted; ws_open 0; ws_closed 0 1006; clock 5000; timer_fires 1]
             Sample.fresh in
  transports_in_use s ≤ 1 ∧ length (live_transports s) ≤ 1.
Proof.
  apply (one_transport_at_a_time Sample.keyless
           [ws_open 0; ws_closed 0 1006; clock 5000; timer_fires 1]
           true false false no_item 0%Z).
  repeat constructor.
Defined.

End InUse.

(** ** The connection guard *)

Section Guard.

Lemma keeps_refl (s : State) : keeps_guard s s.
Proof. split_and!; try done. intros w k Hk Hu. by exists k. Qed.

Lemma keeps_trans (s1 s2 s3 : State) :
  keeps_guard s1 s2 → keeps_guard s2 s3 → keeps_guard s1 s3.
Proof.
  intros (Hw & Hg & Hs) (Hw' & Hg' & Hs'). split_and!; try congruence.
  intros w k Hk Hu. destruct (Hs w k Hk Hu) as (k' & Hk' & Hu'). eauto.
Qed.

Lemma keeps_held (s s' : State) : keeps_guard s s' → guard_held s → guard_held s'.
Proof.
  intros (Hw & Hg & Hs) Hheld Hguard. rewrite Hg in Hguard.
  destruct (Hheld Hguard) as (w & k & Href & Hk & Hu).
  destruct (Hs w k Hk Hu) as (k' & Hk' & Hu').
  exists w, k'. by rewrite Hw.
Qed.

Lemma keeps_update (w : nat) (f : socket → socket) (s : State) :
  (∀ k, is_unsettled k = true → is_unsettled (f k) = true) →
  keeps_guard s (update_socket w f s).
Proof.
  intros Hf. split_and!; try done. intros w' k Hk Hu. simpl.
  destruct (decide (w = w')) as [->|Hne].
  - exists (f k). rewrite list_lookup_alter_eq, Hk. split; [done|]. by apply Hf.
  - exists k. by rewrite list_lookup_alter_ne.
Qed.

Ltac keep :=
  repeat match goal with
    | |- keeps_guard ?s ?s => apply keeps_refl
    | |- keeps_guard _ (match ?d with _ => _ end) => destruct d eqn:?
    | |- keeps_guard ?s (update_socket ?w ?f ?x) =>
        apply (keeps_trans s x);
        [|apply keeps_update; by intros [[] ? ?]]
    | |- keeps_guard ?s (?f ?x) =>
        apply (keeps_trans s x);
        [|split_and!; [reflexivity|reflexivity|intros ? k ? ?; by exists k]]
    end.

Lemma keeps_ws_send (w : nat) (f : frame) (s : State) : keeps_guard s (ws_send w f s).
Proof. unfold ws_send. keep. Qed.

Lemma keeps_ws_close (w : nat) (s : State) : keeps_guard s (ws_close w s).
Proof. unfold ws_close. keep. Qed.

Lemma keeps_onopen_continue (w : nat) (b : bool) (s : State) :
  keeps_guard s (onopen_continue w b s).
Proof.
  unfold onopen_continue. destruct b.
  - case_match; [apply keeps_ws_send|apply keeps_refl].
  - apply keeps_ws_close.
Qed.

Lemma keeps_resolve (w : nat) (b : bool) (s : State) : keeps_guard s (resolve w b s).
Proof.
  unfold resolve. repeat case_match; try apply keeps_refl.
  eapply keeps_trans; [|apply keeps_onopen_continue]. keep.
Qed.

Lemma keeps_cachePrices (s : State) : keeps_guard s (cachePrices s).
Proof. unfold cachePrices. repeat case_match; keep. Qed.

Lemma keeps_onmessage (m : inbound) (s : State) : keeps_guard s (onmessage m s).
Proof.
  destruct m; simpl; try apply keeps_refl; [|keep].
  eapply keeps_trans; [|apply keeps_cachePrices]. keep.
Qed.

Lemma keeps_messageHandler (w tid : nat) (key : string) (m : inbound) (s : State) :
  keeps_guard s (messageHandler w tid key m s).
Proof.
  destruct m; simpl; try apply keeps_refl; try apply keeps_ws_send.
  all: eapply keeps_trans; [|apply keeps_resolve]; unfold clearTimeout; keep.
Qed.

Lemma keeps_dispatch (w : nat) (m : inbound) (s : State) :
  keeps_guard s (dispatch_message w m s).
Proof.
  unfold dispatch_message. destruct (listener_of w s) as [[tid key]|].
  - eapply keeps_trans; [apply keeps_onmessage|apply keeps_messageHandler].
  - apply keeps_onmessage.
Qed.

Lemma keeps_onAuthTimeout (w : nat) (s : State) : keeps_guard s (onAuthTimeout w s).
Proof.
  unfold onAuthTimeout. eapply keeps_trans; [|apply keeps_resolve]. keep.
Qed.

Lemma keeps_subscribe (symbols : list string) (s : State) :
  keeps_guard s (subscribe symbols s).
Proof.
  unfold subscribe. repeat case_match; try apply keeps_refl.
  - eapply keeps_trans; [|apply keeps_ws_send]. keep.
  - keep.
Qed.

Lemma keeps_unsubscribe (symbols : list string) (s : State) :
  keeps_guard s (unsubscribe symbols s).
Proof.
  unfold unsubscribe. repeat case_match; try apply keeps_refl.
  - eapply keeps_trans; [|apply keeps_ws_send]. keep.
  - keep.
Qed.

Lemma keeps_cleanup (s : State) : keeps_guard s (cleanup s).
Proof.
  unfold cleanup.
  assert (keeps_guard s match reconnectTimeoutRef s with
                        | Some id => clearTimeout id s
                        | None => s
                        end) as Hs.
  { destruct (reconnectTimeoutRef s); unfold clearTimeout; keep. }
  destruct (wsRef _); [|done].
  eapply keeps_trans; [exact Hs|apply keeps_ws_close].
Qed.

Lemma held_without_guard (s : State) :
  connectionInProgressRef s = false → guard_held s.
Proof. intros Hg Hguard. congruence. Qed.

Lemma connect_held (p : Props) (s : State) : guard_held s → guard_held (connect p s).
Proof.
  intros Hheld. unfold connect.
  destruct (negb (enabled p) || bool_decide (url p = ""%string)); [done|].
  destruct (connectionInProgressRef s || ws_live s); [done|].
  cbv zeta.
  set (s2 := match wsRef (set_connectionInProgressRef true s) with
             | Some w => ws_close w (set_connectionInProgressRef true s)
             | None => set_connectionInProgressRef true s
             end).
  destruct (wsCtorThrows s2); [by apply held_without_guard|].
  intros _. exists (length (sockets s2)), (Socket CONNECTING None not_created).
  split_and!; try done. simpl.
  by rewrite lookup_app_r, Nat.sub_diag.
Qed.

Lemma open_releases (p : Props) (w : nat) (s : State) :
  connectionInProgressRef (onopen p w s) = false.
Proof. by by_cases. Qed.

Lemma close_releases (p : Props) (code : Z) (s : State) :
  connectionInProgressRef (onclose p code s) = false.
Proof. by by_cases. Qed.

Lemma step_held (p : Props) (e : event) (s : State) :
  guard_held s → guard_held (step p e s).
Proof.
  intros Hheld.
  destruct e as [|symbols|symbols| |w|w m|w|w code|id|t|]; simpl.
  - by apply connect_held.
  - eapply keeps_held; [apply keeps_subscribe|done].
  - eapply keeps_held; [apply keeps_unsubscribe|done].
  - eapply keeps_held; [apply keeps_cleanup|done].
  - destruct (readyState_of w s) as [[]|]; try done.
    apply held_without_guard, open_releases.
  - destruct (readyState_of w s) as [[]|]; try done.
    eapply keeps_held; [apply keeps_dispatch|done].
  - destruct (readyState_of w s); [|done]. by apply held_without_guard.
  - destruct (readyState_of w s) as [[]|]; try done;
      apply held_without_guard, close_releases.
  - destruct (find_timer id s) as [t|]; [|done].
    case_match; [|done].
    assert (guard_held (clearTimeout id s)) as Hheld'.
    { eapply keeps_held; [|done]. unfold clearTimeout. keep. }
    destruct (action t); simpl.
    + eapply keeps_held; [apply keeps_onAuthTimeout|done].
    + by apply connect_held.
  - eapply keeps_held; [|done]. keep.
  - unfold mount. apply connect_held.
    eapply keeps_held; [apply keeps_cachePrices|done].
Qed.

(** X15. The connection guard is set only while the current transport has
    not opened yet or is being closed, in every state the provider can
    reach; and the open, error or close event of any transport clears it.
    So the guard cannot stay set once the browser has delivered the close
    event it owes to that transport. *)
Theorem connection_guard_is_released (p : Props) (events : list event)
    (window ctorThrows itemThrows : bool) (cached : stored) (t : Z) :
  let s := run p events (initial window ctorThrows itemThrows cached t) in
  guard_held s
  ∧ ∀ w r, readyState_of w s = Some r → r ≠ CLOSED →
      connectionInProgressRef (step p (ws_closed w 1006) s) = false
      ∧ connectionInProgressRef (step p (ws_error w) s) = false
      ∧ (r = CONNECTING → connectionInProgressRef (step p (ws_open w) s) = false).
Proof.
  cbv zeta. split.
  - unfold run.
    assert (guard_held (initial window ctorThrows itemThrows cached t)) as Hinit
      by (by apply held_without_guard).
    revert Hinit. generalize (initial window ctorThrows itemThrows cached t).
    induction events as [|e events IH]; intros s Hs; [done|].
    simpl. by apply IH, step_held.
  - intros w r Hr Hne. simpl. rewrite Hr. split_and!.
    + destruct r; try done; apply close_releases.
    + done.
    + intros ->. apply open_releases.
Qed.

Lemma guard_held_while_connecting : current_unsettled Scenario.connecting.
Proof.
  apply (proj1 (connection_guard_is_released Sample.keyed [mounted]
                  true false false no_item 0)).
  reflexivity.
Defined.

End Guard.

(** ** The subscriptions of [OpenPositions] *)

Section OpenPositionsFacts.

Import OpenPositions.

Local Open Scope string_scope.














End OpenPositionsFacts.

(** ** The grouping of [PnLSymbol] *)

Section PnLSymbolFacts.

Import PnLSymbol.

Lemma map_update_keys (symbol : string) (f : Counters → Counters) (m : SymbolMap) :
  (map_update symbol f m).*1 = m.*1.
Proof.
  unfold map_update. rewrite <- list_fmap_compose.
  apply list_fmap_ext. intros i [k v] _. simpl. by case_bool_decide.
Qed.

Lemma add_item_keys (m : SymbolMap) (item : Row) :
  (add_item m item).*1
  = if map_has (underlier_symbol item) m then m.*1
    else m.*1 ++ [underlier_symbol item].
Proof.
  unfold add_item. cbv zeta. rewrite map_update_keys.
  destruct (map_has _ m); [done|].
  unfold map_set_new. by rewrite fmap_app.
Qed.

Lemma group_snoc (rows : list Row) (item : Row) :
  group (rows ++ [item]) = add_item (group rows) item.
Proof. unfold group. by rewrite foldl_snoc. Qed.

Lemma group_keys (rows : list Row) :
  NoDup (group rows).*1
  ∧ ∀ symbol, symbol ∈ (group rows).*1
              ↔ ∃ item, item ∈ rows ∧ underlier_symbol item = symbol.
Proof.
  induction rows as [|item rows [IHnd IHin]] using rev_ind.
  - split; [apply NoDup_nil_2|]. intros symbol. simpl. rewrite elem_of_nil.
    split; [done|]. intros (item & Hin & _). by apply elem_of_nil in Hin.
  - rewrite group_snoc, add_item_keys. unfold map_has.
    case_bool_decide as Hhas; split.
    + done.
    + intros symbol. rewrite IHin. split.
      * intros (x & Hx & <-). exists x. split; [|done].
        apply elem_of_app. by left.
      * intros (x & [Hx| ->%list_elem_of_singleton]%elem_of_app & <-).
        -- by exists x.
        -- by apply IHin.
    + apply NoDup_app. split_and!; [done| |apply NoDup_singleton].
      by intros x Hx ->%list_elem_of_singleton.
    + intros symbol. rewrite elem_of_app, list_elem_of_singleton, IHin. split.
      * intros [(x & Hx & <-)| ->].
        -- exists x. split; [|done]. apply elem_of_app. by left.
        -- exists item. split; [|done]. apply elem_of_app. right.
           by apply list_elem_of_singleton.
      * intros (x & [Hx| ->%list_elem_of_singleton]%elem_of_app & <-).
        -- left. by exists x.
        -- by right.
Qed.

Lemma rows_of_snoc (symbol : string) (P : Row → bool) (rows : list Row) (item : Row) :
  rows_of symbol P (rows ++ [item])
  = rows_of symbol P rows
    + if bool_decide (underlier_symbol item = symbol) && P item then 1 else 0.
Proof.
  unfold rows_of. rewrite filter_app, length_app, Nat2Z.inj_add. f_equal.
  rewrite filter_cons, filter_nil.
  case_bool_decide as Hs; destruct (P item) eqn:HP; simpl;
    destruct (decide _) as [[? ?]|Hn]; try done.
  destruct Hn. by split.
Qed.

Lemma rows_of_absent (symbol : string) (P : Row → bool) (rows : list Row) :
  (∀ item, item ∈ rows → underlier_symbol item ≠ symbol) →
  rows_of symbol P rows = 0.
Proof.
  intros Habs. unfold rows_of.
  rewrite (elem_of_nil_inv (filter _ rows)); [done|].
  intros item [[Hs _] Hin]%list_elem_of_filter. by apply (Habs item).
Qed.

Lemma elem_of_map_update (symbol k : string) (f : Counters → Counters)
    (d : Counters) (m : SymbolMap) :
  (k, d) ∈ map_update symbol f m
  ↔ ∃ v, (k, v) ∈ m ∧ d = if bool_decide (k = symbol) then f v else v.
Proof.
  unfold map_update. rewrite list_elem_of_fmap. split.
  - intros ([k' v] & Heq & Hin). simpl in Heq.
    exists v. case_bool_decide; simplify_eq; split; try done; by case_bool_decide.
  - intros (v & Hin & ->). exists (k, v). split; [|done]. simpl.
    by case_bool_decide.
Qed.

Lemma group_counters (rows : list Row) (symbol : string) (d : Counters) :
  (symbol, d) ∈ group rows →
  totalTrades d = rows_of symbol (λ _, true) rows
  ∧ wins d = rows_of symbol is_win rows
  ∧ losses d = rows_of symbol is_loss rows.
Proof.
  revert symbol d.
  induction rows as [|item rows IH] using rev_ind; intros symbol d Hin.
  { by apply elem_of_nil in Hin. }
  destruct (group_keys rows) as [Hnd Hkeys].
  rewrite group_snoc in Hin. unfold add_item in Hin. cbv zeta in Hin.
  apply elem_of_map_update in Hin as (v & Hin & ->).
  rewrite !rows_of_snoc.
  assert ((symbol, v) ∈ group rows
          ∨ v = no_trades ∧ symbol = underlier_symbol item
            ∧ symbol ∉ (group rows).*1) as [Hold|(-> & -> & Hnew)].
  { unfold map_has, map_set_new in Hin. case_bool_decide as Hhas; [by left|].
    apply elem_of_app in Hin as [Hin|Hin%list_elem_of_singleton]; [by left|].
    simplify_eq. by right. }
  - destruct (IH symbol v Hold) as (Ht & Hw & Hl). rewrite <- Ht, <- Hw, <- Hl.
    rewrite (bool_decide_ext (underlier_symbol item = symbol)
               (symbol = underlier_symbol item)) by done.
    case_bool_decide; simpl; [|lia].
    unfold is_win, is_loss.
    destruct (comment_includes_TP item), (comment_includes_SL item); simpl; lia.
  - rewrite !rows_of_absent.
    2-4: intros x Hx Heq; apply Hnew, Hkeys; by exists x.
    rewrite !bool_decide_eq_true_2 by done. simpl.
    unfold is_win, is_loss.
    destruct (comment_includes_TP item), (comment_includes_SL item); simpl; lia.
Qed.

Lemma total_from (field : Counters → Z) (m : SymbolMap) (a : Z) :
  foldl (λ sum item, sum + field item.2) a m = a + total field m.
Proof.
  unfold total. revert a. induction m as [|e m IH]; intros a; simpl; [lia|].
  rewrite (IH (a + field e.2)), (IH (0 + field e.2)). lia.
Qed.

Lemma total_cons (field : Counters → Z) (e : string * Counters) (m : SymbolMap) :
  total field (e :: m) = field e.2 + total field m.
Proof. unfold total at 1. simpl. by rewrite total_from. Qed.

Lemma total_app (field : Counters → Z) (m m' : SymbolMap) :
  total field (m ++ m') = total field m + total field m'.
Proof.
  induction m as [|e m IH]; [done|].
  rewrite <- app_comm_cons, !total_cons, IH. lia.
Qed.

Lemma total_update (field : Counters → Z) (symbol : string)
    (f : Counters → Counters) (v : Counters) (m : SymbolMap) :
  NoDup m.*1 → (symbol, v) ∈ m →
  total field (map_update symbol f m) = total field m + field (f v) - field v.
Proof.
  unfold map_update.
  induction m as [|[k d] m IH]; intros Hnd Hin; [by apply elem_of_nil in Hin|].
  rewrite fmap_cons in Hnd. apply NoDup_cons in Hnd as [Hk Hnd].
  rewrite fmap_cons, !total_cons. simpl.
  apply elem_of_cons in Hin as [Heq|Hin].
  - injection Heq as <- <-. rewrite bool_decide_eq_true_2 by done. simpl.
    assert ((λ entry : string * Counters,
               if bool_decide (entry.1 = symbol) then (entry.1, f entry.2)
               else entry) <$> m = m) as ->; [|lia].
    rewrite <- (list_fmap_id m) at 2. apply list_fmap_ext.
    intros i [k' d'] Hi. simpl. case_bool_decide; [|done]. simplify_eq.
    destruct Hk. apply list_elem_of_fmap. exists (symbol, d'). split; [done|].
    by apply list_elem_of_lookup_2 in Hi.
  - rewrite bool_decide_eq_false_2.
    + simpl. rewrite IH by done. lia.
    + intros ->. apply Hk, list_elem_of_fmap. by exists (symbol, v).
Qed.

Lemma group_totals (rows : list Row) :
  total totalTrades (group rows) = Z.of_nat (length rows)
  ∧ total wins (group rows)
    = Z.of_nat (length (filter (λ item, is_win item = true) rows))
  ∧ total losses (group rows)
    = Z.of_nat (length (filter (λ item, is_loss item = true) rows)).
Proof.
  induction rows as [|item rows (IHt & IHw & IHl)] using rev_ind; [done|].
  destruct (group_keys rows) as [Hnd Hkeys].
  rewrite group_snoc, !filter_app, !length_app, !Nat2Z.inj_add.
  rewrite <- IHt, <- IHw, <- IHl.
  unfold add_item. cbv zeta. unfold map_has.
  case_bool_decide as Hhas.
  - apply list_elem_of_fmap in Hhas as ([k v] & Hk & Hin). simpl in Hk. subst k.
    rewrite !(total_update _ _ _ v) by done.
    rewrite !filter_cons, !filter_nil. unfold is_win, is_loss. simpl.
    destruct (comment_includes_TP item), (comment_includes_SL item); simpl;
      repeat (destruct (decide _); try done); simpl; lia.
  - unfold map_set_new.
    assert (NoDup (group rows ++ [(underlier_symbol item, no_trades)]).*1) as Hnd'.
    { rewrite fmap_app. apply NoDup_app. split_and!; [done| |apply NoDup_singleton].
      by intros x Hx ->%list_elem_of_singleton. }
    assert ((underlier_symbol item, no_trades)
            ∈ group rows ++ [(underlier_symbol item, no_trades)]) as Hin'.
    { apply elem_of_app. right. by apply list_elem_of_singleton. }
    rewrite !(total_update _ _ _ no_trades) by done.
    rewrite !total_app, !filter_cons, !filter_nil. unfold is_win, is_loss, total. simpl.
    destruct (comment_includes_TP item), (comment_includes_SL item); simpl;
      repeat (destruct (decide _); try done); simpl; lia.
Qed.

(** X17. Grouping the rows of [Pnl] by symbol gives one entry per symbol
    that occurs; its counters are the numbers of rows of that symbol, of
    those marked [TP], and of those marked [SL] and not [TP] (a comment with
    both marks counts as a win only), so every entry has at least one trade
    and no more wins and losses than trades.  The totals over all entries
    are the number of rows fetched, and the numbers of wins and of losses
    among them. *)
Theorem grouping_counts_every_row (rows : list Row) :
  let data := group rows in
  NoDup data.*1
  ∧ (∀ symbol, symbol ∈ data.*1
               ↔ ∃ item, item ∈ rows ∧ underlier_symbol item = symbol)
  ∧ (∀ symbol d, (symbol, d) ∈ data →
       totalTrades d = rows_of symbol (λ _, true) rows
       ∧ wins d = rows_of symbol is_win rows
       ∧ losses d = rows_of symbol is_loss rows
       ∧ 0 < totalTrades d
       ∧ wins d + losses d ≤ totalTrades d)
  ∧ total totalTrades data = Z.of_nat (length rows)
  ∧ total wins data
    = Z.of_nat (length (filter (λ item, is_win item = true) rows))
  ∧ total losses data
    = Z.of_nat (length (filter (λ item, is_loss item = true) rows)).
Proof.
  cbv zeta. destruct (group_keys rows) as [Hnd Hkeys].
  destruct (group_totals rows) as (Ht & Hw & Hl).
  split_and!; try done.
  intros symbol d Hin.
  destruct (group_counters rows symbol d Hin) as (Hdt & Hdw & Hdl).
  split_and!; try done.
  - assert (symbol ∈ (group rows).*1) as Hkey.
    { apply list_elem_of_fmap. by exists (symbol, d). }
    apply Hkeys in Hkey as (item & Hitem & Hs).
    rewrite Hdt. unfold rows_of.
    assert (item ∈ filter (λ item, underlier_symbol item = symbol ∧ true = true) rows)
      as Hf by (by apply list_elem_of_filter).
    revert Hf.
    generalize (filter (λ item, underlier_symbol item = symbol ∧ true = true) rows).
    intros [|? ?] Hf; [by apply elem_of_nil in Hf|]. simpl. lia.
  - rewrite Hdt, Hdw, Hdl. unfold rows_of.
    clear. induction rows as [|item rows IH]; [done|].
    rewrite !filter_cons. unfold is_win, is_loss in *.
    destruct (comment_includes_TP item), (comment_includes_SL item); simpl;
      repeat (destruct (decide _) as [[? ?]|?]; try done); simpl; try lia.
Qed.

End PnLSymbolFacts.

(** ** Pages and order of [TableViewer] *)

Section TableViewerFacts.

Import TableViewer.

Lemma totalPages_bounds (v : View) :
  pageSize * (totalPages v - 1) < totalCount v ≤ pageSize * totalPages v
  ∨ totalCount v ≤ pageSize * totalPages v ∧ totalCount v ≤ 0.
Proof.
  unfold totalPages, pageSize.
  pose proof (Z.div_mod (- totalCount v) 50 ltac:(lia)).
  pose proof (Z.mod_pos_bound (- totalCount v) 50 ltac:(lia)). lia.
Qed.

(** X18. The pages cut the rows of a non-empty result into consecutive
    ranges of 50: every row index lies in the range requested for exactly one
    page between 1 and [totalPages], the text under the table names the first
    and the last row of that range that exist, and the buttons Previous and
    Next keep the page between 1 and [totalPages]. *)
Theorem pages_partition_rows (v : View) :
  0 < totalCount v →
  (∀ row, 0 ≤ row < totalCount v →
     ∃ n, (1 ≤ n ≤ totalPages v
           ∧ (range (at_page n v)).1 ≤ row ≤ (range (at_page n v)).2)
          ∧ ∀ n', (range (at_page n' v)).1 ≤ row ≤ (range (at_page n' v)).2 →
                  n' = n)
  ∧ (1 ≤ currentPage v ≤ totalPages v →
     (showing v).1 = (range v).1 + 1
     ∧ (showing v).2 = Z.min ((range v).2 + 1) (totalCount v)
     ∧ (showing v).1 ≤ (showing v).2
     ∧ 1 ≤ currentPage (previous v) ≤ totalPages v
     ∧ 1 ≤ currentPage (next v) ≤ totalPages v
     ∧ (currentPage v = 1 → previous v = v)
     ∧ (currentPage v = totalPages v → next v = v)).
Proof.
  intros Hc. pose proof (totalPages_bounds v) as Hb.
  unfold range, showing, previous, next, at_page, setCurrentPage, pageSize in *.
  simpl. split.
  - intros row Hrow. exists (row / 50 + 1).
    pose proof (Z.div_mod row 50 ltac:(lia)).
    pose proof (Z.mod_pos_bound row 50 ltac:(lia)).
    split; [lia|]. intros n' Hn'. lia.
  - intros Hpage. split_and!; try lia.
    + intros H1. destruct v. simpl in *. f_equal. lia.
    + intros Hlast. destruct v. simpl in *. f_equal. lia.
Qed.

Lemma pages_partition_rows_sample :
  let v := {| currentPage := 3; totalCount := 120; sortColumn := EmptyString;
              sortDirection := desc |} in
  next v = v.
Proof.
  intros v.
  apply (pages_partition_rows v); [simpl; lia|vm_compute; split; discriminate|].
  reflexivity.
Defined.

(** X19. A click on a column header sorts by that column and returns to the
    first page: the first click on a column asks for ascending order, every
    further click on the same column reverses the order, and two clicks
    later the view is the same again.  Before any click the rows come in
    descending order of the identifier column of the table. *)
Theorem header_click_toggles_order (idColumn column : string) (v : View) :
  column ≠ EmptyString →
  let v1 := handleSort column v in
  currentPage v1 = 1
  ∧ totalCount v1 = totalCount v
  ∧ (order idColumn v1).1 = column
  ∧ (sortColumn v ≠ column → (order idColumn v1).2 = true)
  ∧ (sortColumn v = column → (order idColumn v1).2 = negb (order idColumn v).2)
  ∧ (order idColumn (handleSort column v1)).2 = negb (order idColumn v1).2
  ∧ handleSort column (handleSort column v1) = v1
  ∧ (sortColumn v = EmptyString → order idColumn v = (idColumn, false)).
Proof.
  intros Hcol. cbv zeta. unfold handleSort, order.
  destruct v as [page count col dir]. simpl.
  repeat (case_bool_decide; simpl in *); subst; try done;
    destruct dir; simpl; split_and!; try done;
    repeat (case_bool_decide; simpl in *); try done.
Qed.

Lemma header_click_sample :
  let v := {| currentPage := 4; totalCount := 500; sortColumn := EmptyString;
              sortDirection := desc |} in
  (order "signalId" (handleSort "symbol" v)).2 = true.
Proof.
  intros v.
  apply (proj1 (proj2 (proj2 (proj2
           (header_click_toggles_order "signalId" "symbol" v
              ltac:(discriminate)))))).
  vm_compute. discriminate.
Defined.

End TableViewerFacts.

(** ** The hook [useWebSocket] *)

Section UseWebSocketFacts.

Import UseWebSocket.

Ltac hook_cases :=
  unfold step, rerender, update_subscriptions, sync_symbols, connect, onopen,
    onmessage, onerror, onclose, subscribe, unsubscribe, cleanup, current_open,
    ws_send, ws_close in *;
  repeat (simpl in *; case_match); simpl in *; try done.

Lemma hook_sent_app (h h' : Hook) (fs : list (nat * frame)) :
  wire h' = wire h ++ fs → sent_since h h' = fs.
Proof. unfold sent_since. intros ->. by rewrite drop_app_length. Qed.

(** X20. When the current transport of the hook opens, the handler sends
    the symbol list, and the render that follows the change of [isConnected]
    sends it once more: a connection that finds [isConnected] false
    subscribes twice with the same list, one that finds it true subscribes
    once, and an empty list is never sent. *)
Theorem hook_open_subscribes (o : Options) (w : nat) (h : Hook) :
  sockets h !! w = Some CONNECTING → wsRef h = Some w →
  symbolsRef h = symbols h →
  sent_since h (step o (ws_open w) h)
  = match symbols h with
    | [] => []
    | _ :: _ =>
        if isConnected h then [(w, subscribe_frame (symbols h))]
        else [(w, subscribe_frame (symbols h)); (w, subscribe_frame (symbols h))]
    end.
Proof.
  intros Hw Href Hsym.
  assert (w < length (sockets h))%nat as Hlt by (by eapply lookup_lt_Some).
  apply hook_sent_app. simpl. rewrite Hw.
  unfold onopen, rerender, update_subscriptions, current_open, ws_send. simpl.
  rewrite !list_lookup_insert_eq by done. rewrite Hsym.
  destruct (symbols h) as [|x l] eqn:Hl; destruct (isConnected h) eqn:Hc;
    simpl; rewrite ?Hl, ?Href; simpl;
    rewrite ?list_lookup_insert_eq by done; simpl;
    rewrite ?app_nil_r, <- ?app_assoc; done.
Qed.

Lemma hook_open_subscribes_sample :
  sent_since (run feed [mounted] (initial ["AAPL"%string] false 0))
    (run feed [mounted; ws_open 0] (initial ["AAPL"%string] false 0))
  = [(0%nat, subscribe_frame ["AAPL"%string]);
     (0%nat, subscribe_frame ["AAPL"%string])].
Proof.
  apply (hook_open_subscribes feed 0%nat
           (run feed [mounted] (initial ["AAPL"%string] false 0)));
    reflexivity.
Defined.

(** X21. [subscribe] and [unsubscribe] of the hook send the list they are
    given as it is, on the current transport if it is open, and nothing
    otherwise; they record nothing.  The list sent again when a transport
    opens, [symbolsRef], is changed by no event but a render with a new
    [symbols] option. *)
Theorem hook_subscribe_is_not_recorded (o : Options) (h : Hook) :
  (∀ l, sent_since h (step o (call_subscribe l) h)
        = match current_open h with
          | Some w => [(w, subscribe_frame l)]
          | None => []
          end)
  ∧ (∀ l, sent_since h (step o (call_unsubscribe l) h)
          = match current_open h with
            | Some w => [(w, unsubscribe_frame l)]
            | None => []
            end)
  ∧ (∀ e, (∀ l, e ≠ render l) → symbolsRef h = symbols h →
          symbolsRef (step o e h) = symbolsRef h
          ∧ symbols (step o e h) = symbols h).
Proof.
  split_and!.
  - intros l. apply hook_sent_app. simpl. unfold subscribe, current_open, ws_send.
    destruct (wsRef h) as [w|]; [|by rewrite app_nil_r].
    destruct (sockets h !! w) as [[]|] eqn:Hw; rewrite ?Hw; by rewrite ?app_nil_r.
  - intros l. apply hook_sent_app. simpl. unfold unsubscribe, current_open, ws_send.
    destruct (wsRef h) as [w|]; [|by rewrite app_nil_r].
    destruct (sockets h !! w) as [[]|] eqn:Hw; rewrite ?Hw; by rewrite ?app_nil_r.
  - intros e Hne Hsym. destruct e; try by hook_cases.
    by destruct (Hne symbols0).
Qed.

Lemma hook_subscribe_sample :
  symbolsRef
    (step feed (call_subscribe ["MSFT"%string])
       (run feed [mounted; ws_open 0] (initial ["AAPL"%string] false 0)))
  = ["AAPL"%string].
Proof.
  apply (proj2 (proj2 (hook_subscribe_is_not_recorded feed
           (run feed [mounted; ws_open 0] (initial ["AAPL"%string] false 0))))
           (call_subscribe ["MSFT"%string])).
  - discriminate.
  - reflexivity.
Defined.

(** X22. [connect] of the hook has no guard: when the hook is enabled, has
    a URL and the constructor does not throw, every call creates a transport
    and makes it the current one, and the transport that was current before
    is left closing or closed.  Two calls in a row create two transports. *)
Theorem hook_connect_replaces_transport (o : Options) (h : Hook) :
  enabled o = true → url o ≠ ""%string → wsCtorThrows h = false →
  let h' := connect o h in
  length (sockets h') = S (length (sockets h))
  ∧ wsRef h' = Some (length (sockets h))
  ∧ sockets h' !! length (sockets h) = Some CONNECTING
  ∧ wire h' = wire h
  ∧ (∀ w r, wsRef h = Some w → sockets h !! w = Some r →
            sockets h' !! w
            = Some match r with CONNECTING | OPEN => CLOSING | _ => r end)
  ∧ length (sockets (connect o h')) = S (S (length (sockets h))).
Proof.
  intros He Hu Hc. cbv zeta.
  assert (∀ h0, wsCtorThrows h0 = false →
            sockets (connect o h0)
            = match wsRef h0 with
              | Some w => sockets (ws_close w h0)
              | None => sockets h0
              end ++ [CONNECTING]
            ∧ wsRef (connect o h0) = Some (length (sockets h0))
            ∧ wire (connect o h0) = wire h0
            ∧ wsCtorThrows (connect o h0) = false) as Hconnect.
  { intros h0 Hc0. unfold connect.
    rewrite He, bool_decide_eq_false_2 by done. simpl.
    destruct (wsRef h0) as [w|].
    - change (wsCtorThrows (ws_close w h0)) with (wsCtorThrows h0).
      rewrite Hc0. simpl. by rewrite length_alter.
    - by rewrite Hc0. }
  assert (∀ h0, length match wsRef h0 with
                       | Some w => sockets (ws_close w h0)
                       | None => sockets h0
                       end = length (sockets h0)) as Hlen.
  { intros h0. destruct (wsRef h0); [|done]. simpl. by rewrite length_alter. }
  destruct (Hconnect h Hc) as (Hs & Hr & Hw & Hc').
  destruct (Hconnect (connect o h) Hc') as (Hs' & _).
  rewrite Hs', length_app, Hlen, Hs, length_app, Hlen. simpl.
  split_and!; try done; try lia.
  - rewrite lookup_app_r; rewrite Hlen; [|lia]. by rewrite Nat.sub_diag.
  - intros w r Href Hsock. rewrite Href.
    rewrite lookup_app_l.
    + simpl. by rewrite list_lookup_alter_eq, Hsock.
    + simpl. rewrite length_alter. by eapply lookup_lt_Some.
Qed.

Lemma hook_connect_sample :
  length (sockets (run feed [mounted; call_connect]
                     (initial ["AAPL"%string] false 0)))
  = 2%nat.
Proof.
  apply (hook_connect_replaces_transport feed (initial ["AAPL"%string] false 0));
    [reflexivity|discriminate|reflexivity].
Defined.

End UseWebSocketFacts.
